(** * Model Memory Protocol: the in-memory backend and the protocol dispatcher

    A shallow embedding of [InMemoryBackend] (store, retrieve, update, delete,
    consolidate and their private helpers) and of [MemoryProtocol] (store,
    retrieve, update, delete, sessions, initialize, shutdown and the message
    handler), followed by the properties of the retrieval, consolidation and
    dispatch algorithms.

    Modelling conventions.
    - JavaScript numbers are exact: fractional quantities (scores, importance,
      confidence, thresholds) are rationals [Q], counters and millisecond
      timestamps are integers [Z]; binary64 rounding and NaN are not modelled.
    - Strings are sequences of ASCII characters; [toLowerCase] folds A-Z.
    - A [Map] is an association list in insertion order, because iteration
      order decides the order of search results.
    - Objects that the code mutates in place are the [metadata] objects only;
      they live in a heap and records hold a reference to them, so that the
      shallow copies made by the spread operator share their metadata with
      the original exactly as in the source.
    - [new Date()] and [uuidv4()] are arguments of the operation that calls
      them. *)

From Stdlib Require Import ZArith QArith Qminmax String Ascii List DecimalString.
From Stdlib Require Import Permutation Sorted Lia Lqa.
From stdpp Require Import base list strings gmap.

Open Scope Z_scope.

(** ** Strings *)

Definition is_upper (c : ascii) : bool :=
  let n := nat_of_ascii c in (65 <=? n)%nat && (n <=? 90)%nat.

Definition lower_ascii (c : ascii) : ascii :=
  if is_upper c then ascii_of_nat (nat_of_ascii c + 32) else c.

(** [String.prototype.toLowerCase] on ASCII text. *)
Fixpoint toLowerCase (s : string) : string :=
  match s with
  | EmptyString => EmptyString
  | String c s' => String (lower_ascii c) (toLowerCase s')
  end.

(** [s.includes(sub)]: [sub] occurs in [s] as a contiguous substring. *)
Fixpoint includes (s sub : string) : bool :=
  if String.prefix sub s then true
  else match s with
       | EmptyString => false
       | String _ s' => includes s' sub
       end.

(** The class [\s] restricted to ASCII: tab, line feed, vertical tab, form
    feed, carriage return and space. *)
Definition is_space (c : ascii) : bool :=
  let n := nat_of_ascii c in
  ((9 <=? n)%nat && (n <=? 13)%nat) || (n =? 32)%nat.

(** [s.split(/\s+/)]: the pieces between maximal runs of white space; a
    leading or trailing run yields an empty first or last piece. *)
Fixpoint split_ws_from (s cur : string) (in_ws : bool) : list string :=
  match s with
  | EmptyString => [cur]
  | String c s' =>
      if is_space c then
        if in_ws then split_ws_from s' EmptyString true
        else cur :: split_ws_from s' EmptyString true
      else split_ws_from s' (cur ++ String c EmptyString)%string false
  end.

Definition split_ws (s : string) : list string :=
  split_ws_from s EmptyString false.

(** [arr.slice(a, b)] for non-negative [a] and [b]. *)
Definition slice {A : Type} (a b : nat) (l : list A) : list A :=
  take (b - a) (drop a l).

(** ** Values of untyped positions

    [MemoryMetadata] has an index signature and [MemoryQuery.filters] is a
    [Record<string, any>]: their values are arbitrary.  Objects (dates,
    arrays) are only ever compared by identity, and no filter value is
    identical to an object held by a record. *)

Inductive JsValue :=
  | JUndefined
  | JNull
  | JBool (b : bool)
  | JNum (q : Q)
  | JStr (s : string)
  | JObject.

(** [a === b]. *)
Definition strict_eq (a b : JsValue) : bool :=
  match a, b with
  | JUndefined, JUndefined => true
  | JNull, JNull => true
  | JBool x, JBool y => Bool.eqb x y
  | JNum x, JNum y => Qeq_bool x y
  | JStr x, JStr y => String.eqb x y
  | _, _ => false
  end.

(** ** core/types.ts *)

Inductive MemoryEventType := STORE | RETRIEVE | UPDATE | DELETE | CONSOLIDATE | EVICT.

Inductive MemoryType := EPISODIC | SEMANTIC | PROCEDURAL | WORKING | ARCHIVAL.

Inductive StorageTier :=
  MAIN_CONTEXT | EXTERNAL_CONTEXT | VECTOR_STORE | GRAPH_STORE | TEMPORAL_STORE.

Definition MemoryType_eqb (a b : MemoryType) : bool :=
  match a, b with
  | EPISODIC, EPISODIC | SEMANTIC, SEMANTIC | PROCEDURAL, PROCEDURAL
  | WORKING, WORKING | ARCHIVAL, ARCHIVAL => true
  | _, _ => false
  end.

Definition StorageTier_eqb (a b : StorageTier) : bool :=
  match a, b with
  | MAIN_CONTEXT, MAIN_CONTEXT | EXTERNAL_CONTEXT, EXTERNAL_CONTEXT
  | VECTOR_STORE, VECTOR_STORE | GRAPH_STORE, GRAPH_STORE
  | TEMPORAL_STORE, TEMPORAL_STORE => true
  | _, _ => false
  end.

(** The string value of each enum member. *)
Definition StorageTier_value (t : StorageTier) : string :=
  match t with
  | MAIN_CONTEXT => "main_context"
  | EXTERNAL_CONTEXT => "external_context"
  | VECTOR_STORE => "vector_store"
  | GRAPH_STORE => "graph_store"
  | TEMPORAL_STORE => "temporal_store"
  end.

Record MemoryContext := {
  ctx_version : string;
  ctx_sessionId : string;
  ctx_memoryId : string;
  ctx_flags : string;
  ctx_state : list (string * string);
  ctx_timestamp : Z;
  ctx_userId : option string;
  ctx_agentId : option string
}.

(** [embedding], [embeddingModel], [relationships] and [chunks] are never
    read or written by the code modelled here and are left out. *)
Record MemoryContent := {
  text : string;
  keywords : option (list string);
  tags : option (list string)
}.

Record MemoryMetadata := {
  source : string;
  confidence : Q;
  importance : Q;
  accessCount : Z;
  lastAccessed : Z;
  created : Z;
  updated : Z;
  storageTier : StorageTier;
  compressionLevel : option Q;
  md_tags : option (list string);      (* the [tags] key the protocol reads *)
  extra : list (string * JsValue)      (* [key: string]: any *)
}.

(** A reference to a metadata object. *)
Definition loc := nat.

(** The metadata objects allocated so far. *)
Abbreviation Heap := (list MemoryMetadata).

Record MemoryEvent := {
  e_id : string;
  e_type : MemoryEventType;
  e_memoryType : MemoryType;
  e_context : MemoryContext;
  e_content : MemoryContent;
  e_metadata : loc;
  e_timestamp : Z;
  e_ttl : option Z;
  e_score : option Q                   (* [_score], attached by searchEvents *)
}.

Record TimeRange := { tr_start : option Z; tr_end : option Z }.

Record MemoryQuery := {
  q_id : option string;
  q_query : string;
  q_memoryTypes : option (list MemoryType);
  q_storageTiers : option (list StorageTier);
  q_timeRange : option TimeRange;
  q_limit : option nat;
  q_offset : option nat;
  q_threshold : option Q;
  q_includeMetadata : option bool;
  q_includeContent : option bool;
  q_filters : option (list (string * JsValue))
}.

(** [searchTime], a wall-clock duration, is left out. *)
Record MemorySearchResult := {
  memories : list MemoryEvent;
  totalCount : nat;
  r_query : MemoryQuery
}.

(** [Partial<MemoryMetadata>]: every key may be absent. *)
Record PartialMetadata := {
  p_source : option string;
  p_confidence : option Q;
  p_importance : option Q;
  p_accessCount : option Z;
  p_lastAccessed : option Z;
  p_created : option Z;
  p_updated : option Z;
  p_storageTier : option StorageTier;
  p_compressionLevel : option Q;
  p_tags : option (list string);
  p_extra : list (string * JsValue)
}.

(** [Partial<MemoryEvent>]; a present [metadata] is a reference to the
    caller's metadata object. *)
Record PartialEvent := {
  u_id : option string;
  u_type : option MemoryEventType;
  u_memoryType : option MemoryType;
  u_context : option MemoryContext;
  u_content : option MemoryContent;
  u_metadata : option loc;
  u_timestamp : option Z;
  u_ttl : option Z
}.

Inductive Error :=
  | MemoryProtocolError (message : string) (code : Z)
  | StorageError (message : string).          (* code 500 *)

Inductive Result (A : Type) :=
  | Ok (a : A)
  | Throw (e : Error).
Arguments Ok {A} a.
Arguments Throw {A} e.

Definition MEMORY_PROTOCOL_VERSION : string := "1.0.0".
Definition DEFAULT_SIMILARITY_THRESHOLD : Q := 0.7.
Definition DEFAULT_SEARCH_LIMIT : nat := 10.
Definition DEFAULT_TTL : Z := 86400.

(** ** Field updates of a metadata object *)

Definition set_importance (v : Q) (m : MemoryMetadata) : MemoryMetadata :=
  {| source := source m; confidence := confidence m; importance := v;
     accessCount := accessCount m; lastAccessed := lastAccessed m;
     created := created m; updated := updated m; storageTier := storageTier m;
     compressionLevel := compressionLevel m; md_tags := md_tags m;
     extra := extra m |}.

Definition set_accessCount (v : Z) (m : MemoryMetadata) : MemoryMetadata :=
  {| source := source m; confidence := confidence m; importance := importance m;
     accessCount := v; lastAccessed := lastAccessed m;
     created := created m; updated := updated m; storageTier := storageTier m;
     compressionLevel := compressionLevel m; md_tags := md_tags m;
     extra := extra m |}.

Definition set_lastAccessed (v : Z) (m : MemoryMetadata) : MemoryMetadata :=
  {| source := source m; confidence := confidence m; importance := importance m;
     accessCount := accessCount m; lastAccessed := v;
     created := created m; updated := updated m; storageTier := storageTier m;
     compressionLevel := compressionLevel m; md_tags := md_tags m;
     extra := extra m |}.

Definition set_updated (v : Z) (m : MemoryMetadata) : MemoryMetadata :=
  {| source := source m; confidence := confidence m; importance := importance m;
     accessCount := accessCount m; lastAccessed := lastAccessed m;
     created := created m; updated := v; storageTier := storageTier m;
     compressionLevel := compressionLevel m; md_tags := md_tags m;
     extra := extra m |}.

Definition set_score (v : Q) (e : MemoryEvent) : MemoryEvent :=
  {| e_id := e_id e; e_type := e_type e; e_memoryType := e_memoryType e;
     e_context := e_context e; e_content := e_content e;
     e_metadata := e_metadata e; e_timestamp := e_timestamp e;
     e_ttl := e_ttl e; e_score := Some v |}.

(** ** The heap of metadata objects *)

#[global] Instance MemoryMetadata_inhabited : Inhabited MemoryMetadata :=
  populate {| source := EmptyString; confidence := 0; importance := 0; accessCount := 0;
              lastAccessed := 0; created := 0; updated := 0;
              storageTier := MAIN_CONTEXT; compressionLevel := None;
              md_tags := None; extra := [] |}.

(** [obj.metadata], dereferenced. *)
Definition deref (h : Heap) (l : loc) : MemoryMetadata := h !!! l.

(** A fresh object literal. *)
Definition alloc (m : MemoryMetadata) (h : Heap) : Heap * loc :=
  (h ++ [m], length h).

(** [metadata[key]]. *)
Definition metadata_get (m : MemoryMetadata) (key : string) : JsValue :=
  if String.eqb key "source" then JStr (source m)
  else if String.eqb key "confidence" then JNum (confidence m)
  else if String.eqb key "importance" then JNum (importance m)
  else if String.eqb key "accessCount" then JNum (inject_Z (accessCount m))
  else if String.eqb key "lastAccessed" then JObject
  else if String.eqb key "created" then JObject
  else if String.eqb key "updated" then JObject
  else if String.eqb key "storageTier" then JStr (StorageTier_value (storageTier m))
  else if String.eqb key "compressionLevel" then
    match compressionLevel m with Some c => JNum c | None => JUndefined end
  else if String.eqb key "tags" then
    match md_tags m with Some _ => JObject | None => JUndefined end
  else
    match find (fun kv => String.eqb (fst kv) key) (extra m) with
    | Some kv => snd kv
    | None => JUndefined
    end.

(** ** [Map<string, V>], in insertion order *)

Section JsMap.
Context {V : Type}.

Fixpoint map_get (k : string) (m : list (string * V)) : option V :=
  match m with
  | [] => None
  | (k', v) :: m' => if String.eqb k' k then Some v else map_get k m'
  end.

(** [set] keeps the position of a key that is already present. *)
Fixpoint map_set (k : string) (v : V) (m : list (string * V)) : list (string * V) :=
  match m with
  | [] => [(k, v)]
  | (k', v') :: m' =>
      if String.eqb k' k then (k, v) :: m' else (k', v') :: map_set k v m'
  end.

(** [delete] answers whether the key was present. *)
Fixpoint map_delete (k : string) (m : list (string * V)) : bool * list (string * V) :=
  match m with
  | [] => (false, [])
  | (k', v') :: m' =>
      if String.eqb k' k then (true, m')
      else let '(d, m'') := map_delete k m' in (d, (k', v') :: m'')
  end.

Definition map_values (m : list (string * V)) : list V := map snd m.
Definition map_keys (m : list (string * V)) : list string := map fst m.
End JsMap.

(** ** storage/inMemoryBackend.ts *)

Module InMemoryBackend.

Record state := {
  events : list (string * MemoryEvent);
  initialized : bool
}.

Definition Outcome (A : Type) : Type := Result A * Heap * state.

(** The constructor: an empty map, not yet initialised. *)
Definition new : state := {| events := []; initialized := false |}.

Definition initialize (h : Heap) (b : state) : Outcome unit :=
  if initialized b then (Throw (StorageError "Backend already initialized"), h, b)
  else (Ok tt, h, {| events := events b; initialized := true |}).

(** [stored.metadata.lastAccessed = new Date(); stored.metadata.accessCount++]. *)
Definition touch (now : Z) (m : MemoryMetadata) : MemoryMetadata :=
  set_accessCount (accessCount m + 1) (set_lastAccessed now m).

Definition store (now : Z) (event : MemoryEvent) (h : Heap) (b : state)
  : Outcome unit :=
  if negb (initialized b) then (Throw (StorageError "Backend not initialized"), h, b)
  else
    (* the spread copy has the fields of [event], its metadata reference included *)
    let events' := map_set (e_id event) event (events b) in
    let h' := match map_get (e_id event) events' with
              | Some stored => alter (touch now) (e_metadata stored) h
              | None => h
              end in
    (Ok tt, h', {| events := events'; initialized := initialized b |}).

(** The score loop of [searchEvents] for one event. *)
Definition score_of (queryLower : string) (event : MemoryEvent) : Q :=
  let score := 0%Q in
  let score :=
    if includes (toLowerCase (text (e_content event))) queryLower
    then (score + 0.8)%Q else score in
  let score :=
    match keywords (e_content event) with
    | Some ks =>
        fold_left (fun score keyword =>
                     if includes (toLowerCase keyword) queryLower
                     then (score + 0.6)%Q else score) ks score
    | None => score
    end in
  let score :=
    match tags (e_content event) with
    | Some ts =>
        fold_left (fun score tag =>
                     if includes (toLowerCase tag) queryLower
                     then (score + 0.7)%Q else score) ts score
    | None => score
    end in
  score.

(** [query.threshold || 0.5]: an absent threshold and the number 0 are
    both falsy. *)
Definition threshold_of (query : MemoryQuery) : Q :=
  match q_threshold query with
  | Some t => if Qeq_bool t 0 then 0.5%Q else t
  | None => 0.5%Q
  end.

Definition searchEvents (query : MemoryQuery) (b : state) : list MemoryEvent :=
  let queryLower := toLowerCase (q_query query) in
  fold_left (fun results event =>
               let score := score_of queryLower event in
               if Qle_bool (threshold_of query) score
               then results ++ [set_score score event]
               else results)
            (map_values (events b)) [].

(** The custom filter: every entry of [query.filters] must be strictly
    equal to the metadata value under the same key. *)
Fixpoint matches_filters (m : MemoryMetadata) (entries : list (string * JsValue))
  : bool :=
  match entries with
  | [] => true
  | (key, value) :: rest =>
      if negb (strict_eq (metadata_get m key) value) then false
      else matches_filters m rest
  end.

(** [if (start && eventTime < start) return false;
     if (end && eventTime > end) return false; return true]. *)
Definition in_timeRange (r : TimeRange) (eventTime : Z) : bool :=
  if match tr_start r with Some start => eventTime <? start | None => false end
  then false
  else if match tr_end r with Some end_ => end_ <? eventTime | None => false end
  then false
  else true.

Definition applyFilters (h : Heap) (evs : list MemoryEvent) (query : MemoryQuery)
  : list MemoryEvent :=
  let filtered := evs in
  let filtered :=
    match q_memoryTypes query with
    | Some (t :: ts) =>
        List.filter (fun event =>
                       existsb (MemoryType_eqb (e_memoryType event)) (t :: ts))
                    filtered
    | _ => filtered
    end in
  let filtered :=
    match q_storageTiers query with
    | Some (t :: ts) =>
        List.filter (fun event =>
                       existsb (StorageTier_eqb
                                  (storageTier (deref h (e_metadata event))))
                               (t :: ts))
                    filtered
    | _ => filtered
    end in
  let filtered :=
    match q_timeRange query with
    | Some r => List.filter (fun event => in_timeRange r (e_timestamp event)) filtered
    | None => filtered
    end in
  let filtered :=
    match q_filters query with
    | Some entries =>
        List.filter (fun event =>
                       matches_filters (deref h (e_metadata event)) entries)
                    filtered
    | None => filtered
    end in
  filtered.

(** The comparator handed to [Array.prototype.sort]. *)
Definition compareFn (h : Heap) (a b : MemoryEvent) : Q :=
  let scoreA := match e_score a with
                | Some s => if Qeq_bool s 0 then 0%Q else s | None => 0%Q end in
  let scoreB := match e_score b with
                | Some s => if Qeq_bool s 0 then 0%Q else s | None => 0%Q end in
  if negb (Qeq_bool scoreA scoreB) then (scoreB - scoreA)%Q
  else
    let importanceA := importance (deref h (e_metadata a)) in
    let importanceB := importance (deref h (e_metadata b)) in
    if negb (Qeq_bool importanceA importanceB) then (importanceB - importanceA)%Q
    else inject_Z (e_timestamp b - e_timestamp a).

(** [Array.prototype.sort] is a stable sort: an element moves behind
    another one only when the comparator is positive. *)
Fixpoint sort_insert (cmp : MemoryEvent -> MemoryEvent -> Q) (x : MemoryEvent)
         (l : list MemoryEvent) : list MemoryEvent :=
  match l with
  | [] => [x]
  | y :: l' =>
      if Qle_bool (cmp x y) 0 then x :: y :: l' else y :: sort_insert cmp x l'
  end.

Definition js_sort (cmp : MemoryEvent -> MemoryEvent -> Q) (l : list MemoryEvent)
  : list MemoryEvent :=
  fold_right (sort_insert cmp) [] l.

Definition sortResults (h : Heap) (evs : list MemoryEvent) : list MemoryEvent :=
  js_sort (compareFn h) evs.

(** [query.offset || 0] and [query.limit || DEFAULT_SEARCH_LIMIT]. *)
Definition offset_of (query : MemoryQuery) : nat :=
  match q_offset query with Some o => o | None => 0%nat end.

Definition limit_of (query : MemoryQuery) : nat :=
  match q_limit query with
  | Some O => DEFAULT_SEARCH_LIMIT
  | Some l => l
  | None => DEFAULT_SEARCH_LIMIT
  end.

(** [if (query.id)]: the empty string is falsy. *)
Definition id_of (query : MemoryQuery) : option string :=
  match q_id query with
  | Some EmptyString => None
  | o => o
  end.

(** The candidates of a query, before filtering. *)
Definition candidates (query : MemoryQuery) (b : state) : list MemoryEvent :=
  match id_of query with
  | Some id =>
      match map_get id (events b) with
      | Some event => [event]
      | None => []
      end
  | None => searchEvents query b
  end.

(** The access-metadata loop over the returned page. *)
Definition touch_page (now : Z) (b : state) (page : list MemoryEvent) (h : Heap)
  : Heap :=
  fold_left (fun h event =>
               match map_get (e_id event) (events b) with
               | Some stored => alter (touch now) (e_metadata stored) h
               | None => h
               end) page h.

Definition retrieve (now : Z) (query : MemoryQuery) (h : Heap) (b : state)
  : Outcome MemorySearchResult :=
  if negb (initialized b) then (Throw (StorageError "Backend not initialized"), h, b)
  else
    let results := candidates query b in
    let results := applyFilters h results query in
    let results := sortResults h results in
    let offset := offset_of query in
    let limit := limit_of query in
    let paginatedResults := slice offset (offset + limit) results in
    let h' := touch_page now b paginatedResults h in
    (Ok {| memories := paginatedResults;
           totalCount := length results;
           r_query := query |}, h', b).

(** [{ ...event, ...updates }]: a key present in [updates] wins. *)
Definition spread (event : MemoryEvent) (updates : PartialEvent) : MemoryEvent :=
  {| e_id := default (e_id event) (u_id updates);
     e_type := default (e_type event) (u_type updates);
     e_memoryType := default (e_memoryType event) (u_memoryType updates);
     e_context := default (e_context event) (u_context updates);
     e_content := default (e_content event) (u_content updates);
     e_metadata := default (e_metadata event) (u_metadata updates);
     e_timestamp := default (e_timestamp event) (u_timestamp updates);
     e_ttl := match u_ttl updates with Some t => Some t | None => e_ttl event end;
     e_score := e_score event |}.

Definition update (now : Z) (id : string) (updates : PartialEvent)
           (h : Heap) (b : state) : Outcome unit :=
  if negb (initialized b) then (Throw (StorageError "Backend not initialized"), h, b)
  else
    match map_get id (events b) with
    | None => (Throw (StorageError ("Event not found: " ++ id)), h, b)
    | Some event =>
        let updatedEvent := spread event updates in
        let h' := alter (set_updated now) (e_metadata updatedEvent) h in
        (Ok tt, h',
         {| events := map_set id updatedEvent (events b);
            initialized := initialized b |})
    end.

Definition delete (id : string) (h : Heap) (b : state) : Outcome unit :=
  if negb (initialized b) then (Throw (StorageError "Backend not initialized"), h, b)
  else
    let '(deleted, events') := map_delete id (events b) in
    if negb deleted then (Throw (StorageError ("Event not found: " ++ id)), h, b)
    else (Ok tt, h, {| events := events'; initialized := initialized b |}).

(** [ToInt32]: the operand of a bitwise operator, wrapped to 32 signed bits. *)
Definition to_int32 (z : Z) : Z := (z + 2 ^ 31) mod 2 ^ 32 - 2 ^ 31.

(** One round of the loop of [hashContent]. *)
Definition hash_step (hash : Z) (c : ascii) : Z :=
  let char := Z.of_N (N_of_ascii c) in
  let hash := (to_int32 (Z.shiftl (to_int32 hash) 5) - hash) + char in
  Z.land (to_int32 hash) (to_int32 hash).

Fixpoint hash_loop (content : string) (hash : Z) : Z :=
  match content with
  | EmptyString => hash
  | String c rest => hash_loop rest (hash_step hash c)
  end.

Definition hashContent (content : string) : string :=
  NilZero.string_of_int (Z.to_int (hash_loop content 0)).

(** The loop of [consolidate]: [seen] is the set of fingerprints met so
    far, [consolidated] the output array being built. *)
Fixpoint consolidate_loop (evs : list MemoryEvent) (seen : gset string)
         (consolidated : list MemoryEvent) (h : Heap)
  : list MemoryEvent * Heap :=
  match evs with
  | [] => (consolidated, h)
  | event :: rest =>
      let contentHash := hashContent (text (e_content event)) in
      if negb (bool_decide (contentHash ∈ seen)) then
        consolidate_loop rest ({[contentHash]} ∪ seen) (consolidated ++ [event]) h
      else
        match find (fun e => String.eqb (hashContent (text (e_content e)))
                                        contentHash) consolidated with
        | Some existing =>
            let h1 := alter (fun m => set_importance
                                        (Qmin 1 (importance m + 0.1)) m)
                            (e_metadata existing) h in
            let h2 := alter (fun m => set_accessCount
                                        (accessCount m
                                         + accessCount (deref h1 (e_metadata event))) m)
                            (e_metadata existing) h1 in
            consolidate_loop rest seen consolidated h2
        | None => consolidate_loop rest seen consolidated h
        end
  end.

Definition consolidate (evs : list MemoryEvent) (h : Heap) (b : state)
  : Outcome (list MemoryEvent) :=
  if negb (initialized b) then (Throw (StorageError "Backend not initialized"), h, b)
  else
    let '(consolidated, h') := consolidate_loop evs ∅ [] h in
    (Ok consolidated, h', b).

Definition close (h : Heap) (b : state) : Outcome unit :=
  (Ok tt, h, {| events := []; initialized := false |}).

Definition getAllEvents (b : state) : list MemoryEvent := map_values (events b).

Definition getEventCount (b : state) : nat := length (events b).

(** [clear] empties the map and leaves the backend initialised. *)
Definition clear (b : state) : state :=
  {| events := []; initialized := initialized b |}.

End InMemoryBackend.

(** ** core/memoryProtocol.ts

    [storageBackends] holds the registered backends; the only implementation
    of the [StorageBackend] interface in the repository is the in-memory
    backend, so the dispatcher is modelled over its states. *)

Module MemoryProtocol.

Record state := {
  storageBackends : list (string * InMemoryBackend.state);
  sessions : list (string * MemoryContext);
  initialized : bool
}.

Definition Outcome (A : Type) : Type := Result A * Heap * state.

Definition with_backends (p : state) (bs : list (string * InMemoryBackend.state))
  : state :=
  {| storageBackends := bs; sessions := sessions p; initialized := initialized p |}.

(** [for (const backend of backends) await op(backend)]: the backends are
    visited in map order and the first exception leaves the loop. *)
Fixpoint for_each_backend
         (op : Heap -> InMemoryBackend.state -> InMemoryBackend.Outcome unit)
         (h : Heap) (bs : list (string * InMemoryBackend.state))
  : Result unit * Heap * list (string * InMemoryBackend.state) :=
  match bs with
  | [] => (Ok tt, h, [])
  | (name, b) :: rest =>
      match op h b with
      | (Ok _, h', b') =>
          let '(r, h'', rest') := for_each_backend op h' rest in
          (r, h'', (name, b') :: rest')
      | (Throw e, h', b') => (Throw e, h', (name, b') :: rest)
      end
  end.

(** [initialize]: the two loaders it awaits, [initializeStorageBackends]
    and [initializeTransports], have empty bodies, so the [catch] branch is
    never entered and no backend is initialised here. *)
Definition initialize (h : Heap) (p : state) : Outcome unit :=
  if initialized p
  then (Throw (MemoryProtocolError "Protocol already initialized" 400), h, p)
  else (Ok tt, h,
        {| storageBackends := storageBackends p;
           sessions := sessions p;
           initialized := true |}).

(** [uuidv4()] is the argument [sessionId]; the second call, for
    [memoryId], is [memoryId]. *)
Definition createSession (now : Z) (sessionId memoryId : string)
           (userId agentId : option string) (h : Heap) (p : state)
  : Outcome string :=
  let context := {| ctx_version := MEMORY_PROTOCOL_VERSION;
                    ctx_sessionId := sessionId;
                    ctx_memoryId := memoryId;
                    ctx_flags := EmptyString;
                    ctx_state := [];
                    ctx_timestamp := now;
                    ctx_userId := userId;
                    ctx_agentId := agentId |} in
  (Ok sessionId, h,
   {| storageBackends := storageBackends p;
      sessions := map_set sessionId context (sessions p);
      initialized := initialized p |}).

Definition closeSession (sessionId : string) (h : Heap) (p : state)
  : Outcome unit :=
  match map_get sessionId (sessions p) with
  | None => (Throw (MemoryProtocolError ("Session not found: " ++ sessionId) 404), h, p)
  | Some _ =>
      (Ok tt, h,
       {| storageBackends := storageBackends p;
          sessions := snd (map_delete sessionId (sessions p));
          initialized := initialized p |})
  end.

Definition extractKeywords (content : string) : list string :=
  take 10 (List.filter (fun word => (3 <? String.length word)%nat)
                       (split_ws (toLowerCase content))).

(** Every registered backend is relevant. *)
Definition getRelevantBackends (event : MemoryEvent) (p : state)
  : list (string * InMemoryBackend.state) :=
  storageBackends p.

Definition storeEvent (now : Z) (event : MemoryEvent) (h : Heap) (p : state)
  : Outcome unit :=
  let '(r, h', bs) :=
    for_each_backend (InMemoryBackend.store now event) h
                     (getRelevantBackends event p) in
  (r, h', with_backends p bs).

(** The defaults of [store], overridden by the caller's [...metadata]. *)
Definition memoryMetadata_of (now : Z) (metadata : option PartialMetadata)
  : MemoryMetadata :=
  let ov {A} (f : PartialMetadata -> option A) (d : A) : A :=
    match metadata with
    | Some m => default d (f m)
    | None => d
    end in
  {| source := ov p_source "user";
     confidence := ov p_confidence 1.0%Q;
     importance := ov p_importance 0.5%Q;
     accessCount := ov p_accessCount 0;
     lastAccessed := ov p_lastAccessed now;
     created := ov p_created now;
     updated := ov p_updated now;
     storageTier := ov p_storageTier MAIN_CONTEXT;
     compressionLevel := match metadata with
                         | Some m => p_compressionLevel m | None => None end;
     md_tags := match metadata with Some m => p_tags m | None => None end;
     extra := match metadata with Some m => p_extra m | None => [] end |}.

(** [uuidv4()] is the argument [eventId]. *)
Definition store (now : Z) (eventId : string) (content : string)
           (type : MemoryType) (sessionId : string)
           (metadata : option PartialMetadata) (h : Heap) (p : state)
  : Outcome string :=
  if negb (initialized p)
  then (Throw (MemoryProtocolError "Protocol not initialized" 400), h, p)
  else
    match map_get sessionId (sessions p) with
    | None =>
        (Throw (MemoryProtocolError ("Session not found: " ++ sessionId) 404), h, p)
    | Some context =>
        let memoryContent :=
          {| text := content;
             keywords := Some (extractKeywords content);
             tags := Some match metadata with
                          | Some m => default [] (p_tags m)
                          | None => []
                          end |} in
        let '(h0, memoryMetadata) := alloc (memoryMetadata_of now metadata) h in
        let event :=
          {| e_id := eventId;
             e_type := STORE;
             e_memoryType := type;
             e_context := {| ctx_version := ctx_version context;
                             ctx_sessionId := ctx_sessionId context;
                             ctx_memoryId := eventId;
                             ctx_flags := ctx_flags context;
                             ctx_state := ctx_state context;
                             ctx_timestamp := ctx_timestamp context;
                             ctx_userId := ctx_userId context;
                             ctx_agentId := ctx_agentId context |};
             e_content := memoryContent;
             e_metadata := memoryMetadata;
             e_timestamp := now;
             e_ttl := Some DEFAULT_TTL;
             e_score := None |} in
        match storeEvent now event h0 p with
        | (Ok _, h', p') => (Ok eventId, h', p')
        | (Throw e, h', p') => (Throw e, h', p')
        end
    end.

(** The search across backends is not implemented: an empty result. *)
Definition searchMemories (query : MemoryQuery) : MemorySearchResult :=
  {| memories := []; totalCount := 0; r_query := query |}.

(** [Partial<MemoryQuery>], spread over the defaults of [retrieve]; the
    [query] key of the options, when present, replaces the query text. *)
Record QueryOptions := {
  o_id : option string;
  o_query : option string;
  o_memoryTypes : option (list MemoryType);
  o_storageTiers : option (list StorageTier);
  o_timeRange : option TimeRange;
  o_limit : option nat;
  o_offset : option nat;
  o_threshold : option Q;
  o_includeMetadata : option bool;
  o_includeContent : option bool;
  o_filters : option (list (string * JsValue))
}.

Definition memoryQuery_of (query : string) (options : option QueryOptions)
  : MemoryQuery :=
  match options with
  | None =>
      {| q_id := None; q_query := query; q_memoryTypes := None;
         q_storageTiers := None; q_timeRange := None;
         q_limit := Some DEFAULT_SEARCH_LIMIT; q_offset := None;
         q_threshold := Some DEFAULT_SIMILARITY_THRESHOLD;
         q_includeMetadata := Some true; q_includeContent := Some true;
         q_filters := None |}
  | Some o =>
      {| q_id := o_id o; q_query := default query (o_query o);
         q_memoryTypes := o_memoryTypes o;
         q_storageTiers := o_storageTiers o; q_timeRange := o_timeRange o;
         q_limit := Some (default DEFAULT_SEARCH_LIMIT (o_limit o));
         q_offset := o_offset o;
         q_threshold := Some (default DEFAULT_SIMILARITY_THRESHOLD (o_threshold o));
         q_includeMetadata := Some (default true (o_includeMetadata o));
         q_includeContent := Some (default true (o_includeContent o));
         q_filters := o_filters o |}
  end.

Definition retrieve (query : string) (sessionId : string)
           (options : option QueryOptions) (h : Heap) (p : state)
  : Outcome MemorySearchResult :=
  if negb (initialized p)
  then (Throw (MemoryProtocolError "Protocol not initialized" 400), h, p)
  else
    match map_get sessionId (sessions p) with
    | None =>
        (Throw (MemoryProtocolError ("Session not found: " ++ sessionId) 404), h, p)
    | Some context =>
        let memoryQuery := memoryQuery_of query options in
        (Ok (searchMemories memoryQuery), h, p)
    end.

Definition update (now : Z) (memoryId : string) (updates : PartialEvent)
           (sessionId : string) (h : Heap) (p : state) : Outcome unit :=
  if negb (initialized p)
  then (Throw (MemoryProtocolError "Protocol not initialized" 400), h, p)
  else
    match map_get sessionId (sessions p) with
    | None =>
        (Throw (MemoryProtocolError ("Session not found: " ++ sessionId) 404), h, p)
    | Some context =>
        let '(r, h', bs) :=
          for_each_backend (InMemoryBackend.update now memoryId updates) h
                           (storageBackends p) in
        (r, h', with_backends p bs)
    end.

Definition delete (memoryId : string) (sessionId : string)
           (h : Heap) (p : state) : Outcome unit :=
  if negb (initialized p)
  then (Throw (MemoryProtocolError "Protocol not initialized" 400), h, p)
  else
    match map_get sessionId (sessions p) with
    | None =>
        (Throw (MemoryProtocolError ("Session not found: " ++ sessionId) 404), h, p)
    | Some context =>
        let '(r, h', bs) :=
          for_each_backend (InMemoryBackend.delete memoryId) h
                           (storageBackends p) in
        (r, h', with_backends p bs)
    end.

(** The first loop of [shutdown]: [closeSession] for every key of the
    session map.  Closing a session deletes only the entry being visited,
    so the live iteration visits each key that the map held at the start. *)
Fixpoint close_each_session (keys : list string) (h : Heap) (p : state)
  : Outcome unit :=
  match keys with
  | [] => (Ok tt, h, p)
  | sessionId :: rest =>
      match closeSession sessionId h p with
      | (Ok _, h', p') => close_each_session rest h' p'
      | (Throw e, h', p') => (Throw e, h', p')
      end
  end.

(** [shutdown]; the transports, which hold no part of this state, are
    outside the model. *)
Definition shutdown (h : Heap) (p : state) : Outcome unit :=
  match close_each_session (map_keys (sessions p)) h p with
  | (Throw e, h1, p1) => (Throw e, h1, p1)
  | (Ok _, h1, p1) =>
      match for_each_backend InMemoryBackend.close h1 (storageBackends p1) with
      | (Throw e, h2, bs) => (Throw e, h2, with_backends p1 bs)
      | (Ok _, h2, bs) =>
          (Ok tt, h2,
           {| storageBackends := bs; sessions := sessions p1; initialized := false |})
      end
  end.

(** *** Protocol messages

    [message.params] is untyped.  [Params] lists the shapes that the six
    handlers destructure; a message whose params have another shape than its
    method's handler expects is outside the model ([handleMessage] answers
    [None] for it). *)










End MemoryProtocol.

(** * Vocabulary of the properties *)

(** ** Backends of the dispatcher *)

(** The backend after a successful [store] of [event]. *)
Definition stored_in (event : MemoryEvent) (b : InMemoryBackend.state)
  : InMemoryBackend.state :=
  {| InMemoryBackend.events := map_set (e_id event) event (InMemoryBackend.events b);
     InMemoryBackend.initialized := true |}.

Definition all_initialized (bs : list (string * InMemoryBackend.state)) : Prop :=
  forall name b, In (name, b) bs -> InMemoryBackend.initialized b = true.

(** The caller leaves [accessCount] to the default of the store call. *)
Definition default_accessCount (metadata : option PartialMetadata) : Prop :=
  match metadata with
  | Some m => p_accessCount m = None
  | None => True
  end.

(** The backend holds a record under [id]. *)
Definition holds (id : string) (b : InMemoryBackend.state) : Prop :=
  is_Some (map_get id (InMemoryBackend.events b)).

(** The backend after a successful [delete] of [id]. *)
Definition deleted_from (id : string) (b : InMemoryBackend.state)
  : InMemoryBackend.state :=
  {| InMemoryBackend.events := snd (map_delete id (InMemoryBackend.events b));
     InMemoryBackend.initialized := InMemoryBackend.initialized b |}.

(** The backend after a successful [update] of [id]. *)
Definition updated_in (id : string) (updates : PartialEvent) (b : InMemoryBackend.state)
  : InMemoryBackend.state :=
  match map_get id (InMemoryBackend.events b) with
  | Some event =>
      {| InMemoryBackend.events :=
           map_set id (InMemoryBackend.spread event updates) (InMemoryBackend.events b);
         InMemoryBackend.initialized := InMemoryBackend.initialized b |}
  | None => b
  end.

Definition on_backends (f : InMemoryBackend.state -> InMemoryBackend.state)
           (bs : list (string * InMemoryBackend.state))
  : list (string * InMemoryBackend.state) :=
  map (fun nb => (fst nb, f (snd nb))) bs.

(** The records of a successful retrieve. *)
Definition memories_of {S : Type} (o : Result MemorySearchResult * Heap * S)
  : option (list MemoryEvent) :=
  match fst (fst o) with
  | Ok r => Some (memories r)
  | Throw _ => None
  end.

(** ** The score in the words of the specification

    0.8 if the lower-cased query is a substring of the lower-cased text, plus
    0.6 for each keyword and 0.7 for each tag whose lower-cased form
    contains the lower-cased query. *)

Definition count_containing (queryLower : string) (l : option (list string)) : nat :=
  match l with
  | Some xs => length (List.filter (fun x => includes (toLowerCase x) queryLower) xs)
  | None => 0%nat
  end.

Definition score_as_specified (query : string) (event : MemoryEvent) : Q :=
  let queryLower := toLowerCase query in
  ((if includes (toLowerCase (text (e_content event))) queryLower then 0.8 else 0)
   + 0.6 * inject_Z (Z.of_nat (count_containing queryLower (keywords (e_content event))))
   + 0.7 * inject_Z (Z.of_nat (count_containing queryLower (tags (e_content event)))))%Q.

(** ** Consolidation *)


(** The fingerprint of a record. *)
Definition fingerprint (e : MemoryEvent) : string :=
  InMemoryBackend.hashContent (text (e_content e)).


(** ** Well-formed backends *)

(** Every stored record is found under its own id. *)
Definition keyed_by_id (b : InMemoryBackend.state) : Prop :=
  forall e, In e (map_values (InMemoryBackend.events b)) ->
            map_get (e_id e) (InMemoryBackend.events b) = Some e.

(** No two stored records share a metadata object, and every metadata
    object is allocated. *)
Definition own_metadata (h : Heap) (b : InMemoryBackend.state) : Prop :=
  NoDup (map e_metadata (map_values (InMemoryBackend.events b))) /\
  forall e, In e (map_values (InMemoryBackend.events b)) ->
            (e_metadata e < length h)%nat.

(** ** Paging through a result *)

Definition with_offset (query : MemoryQuery) (o : nat) : MemoryQuery :=
  {| q_id := q_id query; q_query := q_query query;
     q_memoryTypes := q_memoryTypes query; q_storageTiers := q_storageTiers query;
     q_timeRange := q_timeRange query; q_limit := q_limit query;
     q_offset := Some o; q_threshold := q_threshold query;
     q_includeMetadata := q_includeMetadata query;
     q_includeContent := q_includeContent query; q_filters := q_filters query |}.

(** [n] successive retrieve calls for the pages number [k], [k+1], ... of
    the query, each page starting at its number times the limit: the pages
    in order, and the heap after the last call. *)
Fixpoint retrieve_pages (now : Z) (query : MemoryQuery) (n k : nat)
         (h : Heap) (b : InMemoryBackend.state) : list (list MemoryEvent) * Heap :=
  match n with
  | O => ([], h)
  | S n' =>
      match InMemoryBackend.retrieve
              now (with_offset query (k * InMemoryBackend.limit_of query)) h b with
      | (Ok r, h', b') =>
          let '(pages, h'') := retrieve_pages now query n' (S k) h' b' in
          (memories r :: pages, h'')
      | (Throw _, h', _) => ([], h')
      end
  end.

(** The sorted, filtered candidates of a query: its unpaginated result. *)
Definition sorted_matches (query : MemoryQuery) (h : Heap) (b : InMemoryBackend.state)
  : list MemoryEvent :=
  InMemoryBackend.sortResults
    h (InMemoryBackend.applyFilters h (InMemoryBackend.candidates query b) query).

(** No metadata filter of the query reads a field that retrieve changes. *)
Definition filters_ignore_access (query : MemoryQuery) : Prop :=
  match q_filters query with
  | Some entries =>
      forall key value, In (key, value) entries ->
                        key <> "accessCount" /\ key <> "lastAccessed"
  | None => True
  end.

(** A metadata object with its access fields blanked. *)
Definition without_access (m : MemoryMetadata) : MemoryMetadata :=
  set_accessCount 0 (set_lastAccessed 0 m).

(** Two heaps that differ in access counts and access times only. *)
Definition same_but_access (h h' : Heap) : Prop :=
  forall l, without_access (deref h' l) = without_access (deref h l).

(** * Example data *)

Definition session_context (sessionId : string) : MemoryContext :=
  {| ctx_version := MEMORY_PROTOCOL_VERSION; ctx_sessionId := sessionId;
     ctx_memoryId := "m0"; ctx_flags := EmptyString; ctx_state := []; ctx_timestamp := 0;
     ctx_userId := None; ctx_agentId := None |}.

(** Metadata as the protocol's store creates it, with the given importance,
    access count and custom keys. *)
Definition metadata_with (imp : Q) (count : Z) (custom : list (string * JsValue))
  : MemoryMetadata :=
  {| source := "user"; confidence := 1.0; importance := imp; accessCount := count;
     lastAccessed := 0; created := 0; updated := 0; storageTier := MAIN_CONTEXT;
     compressionLevel := None; md_tags := None; extra := custom |}.

(** A semantic record with the given id, text, tags and metadata object. *)
Definition record_with (id txt : string) (tgs : list string) (l : loc) : MemoryEvent :=
  {| e_id := id; e_type := STORE; e_memoryType := SEMANTIC;
     e_context := session_context "s1";
     e_content := {| text := txt;
                     keywords := Some (MemoryProtocol.extractKeywords txt);
                     tags := Some tgs |};
     e_metadata := l; e_timestamp := 0; e_ttl := Some DEFAULT_TTL; e_score := None |}.

(** An initialised backend holding the given records, each under its id. *)
Definition backend_with (evs : list MemoryEvent) : InMemoryBackend.state :=
  {| InMemoryBackend.events := map (fun e => (e_id e, e)) evs;
     InMemoryBackend.initialized := true |}.

(** An initialised protocol with one open session, "s1". *)
Definition protocol_with (bs : list (string * InMemoryBackend.state))
  : MemoryProtocol.state :=
  {| MemoryProtocol.storageBackends := bs;
     MemoryProtocol.sessions := [("s1", session_context "s1")];
     MemoryProtocol.initialized := true |}.

Definition no_updates : PartialEvent :=
  {| u_id := None; u_type := None; u_memoryType := None; u_context := None;
     u_content := None; u_metadata := None; u_timestamp := None; u_ttl := None |}.

(** A query for [txt] with the given limit, offset and metadata filters. *)
Definition page_query (txt : string) (limit offset : option nat)
           (filters : option (list (string * JsValue))) : MemoryQuery :=
  {| q_id := None; q_query := txt; q_memoryTypes := None; q_storageTiers := None;
     q_timeRange := None; q_limit := limit; q_offset := offset; q_threshold := None;
     q_includeMetadata := None; q_includeContent := None; q_filters := filters |}.

(** A query for [txt] with every option absent. *)
Definition query_for (txt : string) : MemoryQuery := page_query txt None None None.


(** ** One record, "m1" *)

Definition one_metadata : Heap := [metadata_with 0.5 1 []].

(** The stored metadata carries the custom key "project"; the second
    metadata object, which [replace_metadata] hands to an update, does not. *)
Definition project_heap : Heap :=
  [metadata_with 0.5 1 [("project", JStr "alpha")]; metadata_with 0.9 1 []].

Definition project_backend : InMemoryBackend.state :=
  backend_with [record_with "m1" "alpha" [] 0%nat].

Definition replace_metadata : PartialEvent :=
  {| u_id := None; u_type := None; u_memoryType := None; u_context := None;
     u_content := None; u_metadata := Some 1%nat; u_timestamp := None;
     u_ttl := None |}.

(** ** Protocols with one and with two backends *)

(** A single, empty in-memory backend. *)
Definition single_backend : MemoryProtocol.state :=
  protocol_with [("in-memory", backend_with [])].

(** Two empty in-memory backends. *)
Definition two_backends : MemoryProtocol.state :=
  protocol_with [("a", backend_with []); ("b", backend_with [])].

(** Two backends, of which only the first holds the record "m1". *)
Definition first_holds_m1 : MemoryProtocol.state :=
  protocol_with [("a", project_backend); ("b", backend_with [])].

(** Two backends, of which only the second holds the record "m1". *)
Definition second_holds_m1 : MemoryProtocol.state :=
  protocol_with [("a", backend_with []); ("b", project_backend)].

(** ** The TypeScript-preference scenario *)

Definition preference_text : string := "The user prefers TypeScript over JavaScript".

Definition preference_overrides : PartialMetadata :=
  {| p_source := None; p_confidence := None; p_importance := Some 0.8%Q;
     p_accessCount := None; p_lastAccessed := None; p_created := None;
     p_updated := None; p_storageTier := None; p_compressionLevel := None;
     p_tags := Some ["preference"; "programming"]; p_extra := [] |}.

(** The record that the protocol's store creates in the scenario. *)
Definition preference_record : MemoryEvent :=
  {| e_id := "m1"; e_type := STORE; e_memoryType := SEMANTIC;
     e_context := {| ctx_version := MEMORY_PROTOCOL_VERSION; ctx_sessionId := "s1";
                     ctx_memoryId := "m1"; ctx_flags := EmptyString; ctx_state := [];
                     ctx_timestamp := 0; ctx_userId := None; ctx_agentId := None |};
     e_content := {| text := preference_text;
                     keywords := Some ["user"; "prefers"; "typescript"; "over";
                                       "javascript"];
                     tags := Some ["preference"; "programming"] |};
     e_metadata := 0%nat; e_timestamp := 100; e_ttl := Some 86400; e_score := None |}.

Definition preference_backend : InMemoryBackend.state :=
  backend_with [preference_record].

Definition preference_heap : Heap :=
  [{| source := "user"; confidence := 1.0; importance := 0.8; accessCount := 1;
      lastAccessed := 100; created := 100; updated := 100;
      storageTier := MAIN_CONTEXT; compressionLevel := None;
      md_tags := Some ["preference"; "programming"]; extra := [] |}].

(** ** Three matching records *)

Definition three_metadata : Heap :=
  [metadata_with 0.5 1 []; metadata_with 0.5 1 []; metadata_with 0.5 1 []].

Definition three_records : InMemoryBackend.state :=
  backend_with [record_with "r1" "note one" [] 0%nat;
                record_with "r2" "note two" [] 1%nat;
                record_with "r3" "note three" [] 2%nat].

(** A query for "note" with limit 1 that filters on accessCount = 1. *)
Definition once_accessed_query : MemoryQuery :=
  page_query "note" (Some 1%nat) None (Some [("accessCount", JNum 1)]).

(** The heap of the three records with a fourth metadata object, and an
    update that makes a record refer to that object. *)
Definition four_metadata : Heap := three_metadata ++ [metadata_with 0.5 1 []].

Definition shared_metadata_update : PartialEvent :=
  {| u_id := None; u_type := None; u_memoryType := None; u_context := None;
     u_content := None; u_metadata := Some 3%nat; u_timestamp := None;
     u_ttl := None |}.

(** ** Three records with the same text *)

Definition duplicate_metadata : Heap :=
  [metadata_with 0.5 3 []; metadata_with 0.2 4 []; metadata_with 0.9 5 []].

Definition duplicate_records : list MemoryEvent :=
  [record_with "d1" "same text" [] 0%nat;
   record_with "d2" "same text" [] 1%nat;
   record_with "d3" "same text" [] 2%nat].

(** * Vocabulary of the further properties *)

(** The keys of the backend's map are pairwise different, as in any [Map]. *)
Definition unique_keys (b : InMemoryBackend.state) : Prop :=
  NoDup (map_keys (InMemoryBackend.events b)).

(** A query that looks one record up by its id and has no other option. *)
Definition query_by_id (id : string) : MemoryQuery :=
  {| q_id := Some id; q_query := EmptyString; q_memoryTypes := None;
     q_storageTiers := None; q_timeRange := None; q_limit := None;
     q_offset := None; q_threshold := None; q_includeMetadata := None;
     q_includeContent := None; q_filters := None |}.

(** ** The order of the results

    The score attached to a record (0 when it has none), and the order
    "higher score first, then higher importance, then later timestamp". *)

Definition score_shown (e : MemoryEvent) : Q :=
  match e_score e with
  | Some s => s
  | None => 0
  end.

Definition ranks_no_lower (h : Heap) (a b : MemoryEvent) : Prop :=
  (score_shown b < score_shown a)%Q \/
  ((score_shown a == score_shown b)%Q /\
   ((importance (deref h (e_metadata b)) < importance (deref h (e_metadata a)))%Q \/
    ((importance (deref h (e_metadata a)) == importance (deref h (e_metadata b)))%Q /\
     e_timestamp b <= e_timestamp a))).

(** ** One filter for the four

    A record passes when it matches every filter that the query supplies;
    an empty array of memory types or storage tiers is no filter. *)

Definition passes_filters (h : Heap) (query : MemoryQuery) (event : MemoryEvent) : bool :=
  match q_memoryTypes query with
  | Some (t :: ts) => existsb (MemoryType_eqb (e_memoryType event)) (t :: ts)
  | _ => true
  end &&
  match q_storageTiers query with
  | Some (t :: ts) =>
      existsb (StorageTier_eqb (storageTier (deref h (e_metadata event)))) (t :: ts)
  | _ => true
  end &&
  match q_timeRange query with
  | Some r =>
      match tr_start r with Some start => start <=? e_timestamp event | None => true end &&
      match tr_end r with Some end_ => e_timestamp event <=? end_ | None => true end
  | None => true
  end &&
  match q_filters query with
  | Some entries =>
      forallb (fun kv => strict_eq (metadata_get (deref h (e_metadata event)) (fst kv))
                                   (snd kv)) entries
  | None => true
  end.

(** ** First occurrences

    The records whose fingerprint is not in [seen] and not the fingerprint
    of an earlier record of the list. *)

Fixpoint first_occurrences (seen : list string) (evs : list MemoryEvent)
  : list MemoryEvent :=
  match evs with
  | [] => []
  | e :: rest =>
      if existsb (String.eqb (fingerprint e)) seen then first_occurrences seen rest
      else e :: first_occurrences (fingerprint e :: seen) rest
  end.

(** ** The fingerprint as a polynomial

    The sum of the character codes weighted by powers of 31, the last
    character having weight 1, for a string read after the value [acc]. *)

Fixpoint polynomial31 (content : string) (acc : Z) : Z :=
  match content with
  | EmptyString => acc
  | String c rest => polynomial31 rest (31 * acc + Z.of_N (N_of_ascii c))
  end.

(** ** Strings *)

(** [sub] occurs in [s]: the specification of [includes]. *)
Definition occurs_in (sub s : string) : Prop :=
  exists before after, s = (before ++ sub ++ after)%string.

(** All characters of [s] satisfy [p]. *)
Fixpoint all_chars (p : ascii -> bool) (s : string) : bool :=
  match s with
  | EmptyString => true
  | String c rest => p c && all_chars p rest
  end.

(** ** More example data *)

(** An uninitialised backend between two initialised ones. *)
Definition middle_uninitialised : MemoryProtocol.state :=
  protocol_with [("a", backend_with []);
                 ("b", InMemoryBackend.new);
                 ("c", backend_with [])].

(** An update that carries nothing but another id. *)
Definition renamed (newId : string) : PartialEvent :=
  {| u_id := Some newId; u_type := None; u_memoryType := None; u_context := None;
     u_content := None; u_metadata := None; u_timestamp := None; u_ttl := None |}.

(** The state in which [shutdown] leaves a protocol. *)
Definition shut_down (p : MemoryProtocol.state) : MemoryProtocol.state :=
  {| MemoryProtocol.storageBackends :=
       on_backends (fun _ => InMemoryBackend.new) (MemoryProtocol.storageBackends p);
     MemoryProtocol.sessions := [];
     MemoryProtocol.initialized := false |}.

(** The error that the four memory operations raise before [initialize]. *)
Definition not_initialized : Error :=
  MemoryProtocolError "Protocol not initialized" 400.

(** The error for a session id that is not open. *)
Definition session_not_found (sessionId : string) : Error :=
  MemoryProtocolError ("Session not found: " ++ sessionId) 404.

(** * Properties *)

(** ** The ordered map *)

Section JsMapFacts.
Context {V : Type}.
Implicit Types (m : list (string * V)) (k : string) (v : V).

Lemma map_get_set_eq m k v : map_get k (map_set k v m) = Some v.
Proof.
  induction m as [|[k' v'] m IH]; simpl.
  - now rewrite String.eqb_refl.
  - destruct (String.eqb k' k) eqn:E; simpl.
    + now rewrite String.eqb_refl.
    + now rewrite E.
Qed.

Lemma map_get_set_ne m k k' v :
  k <> k' -> map_get k' (map_set k v m) = map_get k' m.
Proof.
  intros Hne. induction m as [|[k0 v0] m IH]; simpl.
  - destruct (String.eqb k k') eqn:E; [apply String.eqb_eq in E; contradiction | reflexivity].
  - destruct (String.eqb k0 k) eqn:E; simpl.
    + apply String.eqb_eq in E. subst k0.
      destruct (String.eqb k k') eqn:E'; [apply String.eqb_eq in E'; contradiction | reflexivity].
    + now rewrite IH.
Qed.

Lemma map_delete_fst m k :
  fst (map_delete k m) = match map_get k m with Some _ => true | None => false end.
Proof.
  induction m as [|[k' v'] m IH]; simpl; [reflexivity|].
  destruct (String.eqb k' k); [reflexivity|].
  destruct (map_delete k m) as [d m'']. simpl in *. exact IH.
Qed.

Lemma map_get_In m k v : map_get k m = Some v -> In (k, v) m.
Proof.
  induction m as [|[k' v'] m IH]; simpl; [discriminate|].
  destruct (String.eqb k' k) eqn:E.
  - apply String.eqb_eq in E. intros [= ->]. subst. now left.
  - intros H. right. now apply IH.
Qed.
End JsMapFacts.

(** ** The heap *)

Lemma deref_alter_eq (h : Heap) (l : loc) (f : MemoryMetadata -> MemoryMetadata) :
  (l < length h)%nat -> deref (alter f l h) l = f (deref h l).
Proof.
  intros Hl. unfold deref.
  destruct (lookup_lt_is_Some_2 h l Hl) as [m Hm].
  rewrite (list_lookup_total_correct _ _ _ Hm).
  apply list_lookup_total_correct.
  rewrite list_lookup_alter, Hm. now case_decide.
Qed.

Lemma deref_alter_ne (h : Heap) (l l' : loc) (f : MemoryMetadata -> MemoryMetadata) :
  l <> l' -> deref (alter f l h) l' = deref h l'.
Proof.
  intros Hne. unfold deref.
  rewrite !list_lookup_total_alt. now rewrite list_lookup_alter_ne.
Qed.

Lemma deref_alloc (h : Heap) (m : MemoryMetadata) :
  deref (fst (alloc m h)) (snd (alloc m h)) = m.
Proof.
  unfold deref, alloc. simpl.
  apply list_lookup_total_correct.
  rewrite lookup_app_r by lia. now rewrite Nat.sub_diag.
Qed.

Lemma deref_alloc_old (h : Heap) (m : MemoryMetadata) (l : loc) :
  (l < length h)%nat -> deref (fst (alloc m h)) l = deref h l.
Proof.
  intros Hl. unfold deref, alloc. simpl.
  rewrite !list_lookup_total_alt. now rewrite lookup_app_l.
Qed.

(** ** The dispatcher loop *)

Lemma for_each_backend_ok op h bs h' bs' :
  MemoryProtocol.for_each_backend op h bs = (Ok tt, h', bs') ->
  Forall2 (fun nb nb' => fst nb = fst nb' /\
                         exists h1 h2, op h1 (snd nb) = (Ok tt, h2, snd nb')) bs bs'.
Proof.
  revert h h' bs'.
  induction bs as [|[name b] rest IH]; intros h h' bs' H; simpl in H.
  - injection H as <- <-. constructor.
  - destruct (op h b) as [[r h1] b1] eqn:Hop.
    destruct r as [[]|e]; [|discriminate].
    destruct (MemoryProtocol.for_each_backend op h1 rest) as [[r2 h2] rest'] eqn:Hrest.
    injection H as -> <- <-.
    constructor.
    + simpl. split; [reflexivity|]. now exists h, h1.
    + now apply (IH h1 h2).
Qed.

Lemma Forall2_In_right {A B : Type} (R : A -> B -> Prop) (l : list A) (l' : list B) y :
  Forall2 R l l' -> In y l' -> exists x, In x l /\ R x y.
Proof.
  induction 1 as [|x y' l l' HR _ IH]; simpl; [contradiction|].
  intros [<-|Hin].
  - exists x. auto.
  - destruct (IH Hin) as [x' [Hx HR']]. exists x'. auto.
Qed.

Lemma backend_store_ok now event h b :
  InMemoryBackend.initialized b = true ->
  InMemoryBackend.store now event h b =
    (Ok tt, alter (InMemoryBackend.touch now) (e_metadata event) h,
     {| InMemoryBackend.events := map_set (e_id event) event (InMemoryBackend.events b);
        InMemoryBackend.initialized := true |}).
Proof.
  intros Hi. unfold InMemoryBackend.store.
  rewrite Hi, map_get_set_eq. reflexivity.
Qed.

Lemma backend_store_holds now event h b r h' b' :
  InMemoryBackend.store now event h b = (Ok r, h', b') ->
  map_get (e_id event) (InMemoryBackend.events b') = Some event.
Proof.
  unfold InMemoryBackend.store.
  destruct (InMemoryBackend.initialized b); simpl; [|discriminate].
  intros [= _ _ <-]. simpl. apply map_get_set_eq.
Qed.


(** ** Storing *)

Lemma for_each_store_all now event bs : forall h,
  all_initialized bs ->
  MemoryProtocol.for_each_backend (InMemoryBackend.store now event) h bs =
    (Ok tt,
     Nat.iter (length bs) (alter (InMemoryBackend.touch now) (e_metadata event)) h,
     on_backends (stored_in event) bs).
Proof.
  induction bs as [|[name b] rest IH]; intros h Hall; simpl; [reflexivity|].
  rewrite backend_store_ok by (apply (Hall name); now left).
  rewrite IH by (intros n b0 Hin; apply (Hall n); now right).
  f_equal. f_equal.
  clear. induction (length rest) as [|n IHn]; simpl; [reflexivity|].
  now rewrite <- IHn.
Qed.

Lemma length_iter_alter (f : MemoryMetadata -> MemoryMetadata) l n (h : Heap) :
  length (Nat.iter n (alter f l) h) = length h.
Proof. induction n as [|n IH]; simpl; [reflexivity|]. now rewrite length_alter. Qed.

Lemma deref_iter_alter (f : MemoryMetadata -> MemoryMetadata) l n (h : Heap) :
  (l < length h)%nat ->
  deref (Nat.iter n (alter f l) h) l = Nat.iter n f (deref h l).
Proof.
  intros Hl. induction n as [|n IH]; simpl; [reflexivity|].
  rewrite deref_alter_eq by now rewrite length_iter_alter.
  now rewrite IH.
Qed.

Lemma accessCount_iter_touch now n m :
  accessCount (Nat.iter n (InMemoryBackend.touch now) m) = accessCount m + Z.of_nat n.
Proof.
  induction n as [|n IH]; [simpl; lia|].
  rewrite Nat2Z.inj_succ. simpl. lia.
Qed.

Lemma lastAccessed_iter_touch now n m :
  (0 < n)%nat -> lastAccessed (Nat.iter n (InMemoryBackend.touch now) m) = now.
Proof. destruct n; [lia|]. reflexivity. Qed.

(** C9 (as amended): the backend's store increments the accessCount of the
    stored record's metadata by 1 and sets its lastAccessed to the store
    time; every backend keeps a copy that shares the one metadata object of
    the new record, so after a protocol-level store with the default
    accessCount of 0 each backend observes an accessCount equal to the
    number of registered backends: 1 with a single backend, k with k. *)
Theorem store_counts_one_access_per_backend :
  (forall now event h b,
      InMemoryBackend.initialized b = true ->
      (e_metadata event < length h)%nat ->
      exists h' b',
        InMemoryBackend.store now event h b = (Ok tt, h', b') /\
        map_get (e_id event) (InMemoryBackend.events b') = Some event /\
        accessCount (deref h' (e_metadata event))
          = accessCount (deref h (e_metadata event)) + 1 /\
        lastAccessed (deref h' (e_metadata event)) = now) /\
  (forall now eventId content type sessionId metadata h p,
      MemoryProtocol.initialized p = true ->
      is_Some (map_get sessionId (MemoryProtocol.sessions p)) ->
      all_initialized (MemoryProtocol.storageBackends p) ->
      default_accessCount metadata ->
      exists h' p',
        MemoryProtocol.store now eventId content type sessionId metadata h p
          = (Ok eventId, h', p') /\
        length (MemoryProtocol.storageBackends p')
          = length (MemoryProtocol.storageBackends p) /\
        forall name b', In (name, b') (MemoryProtocol.storageBackends p') ->
          exists ev,
            map_get eventId (InMemoryBackend.events b') = Some ev /\
            accessCount (deref h' (e_metadata ev))
              = Z.of_nat (length (MemoryProtocol.storageBackends p)) /\
            lastAccessed (deref h' (e_metadata ev)) = now).
Proof.
  split.
  - intros now event h b Hi Hl.
    rewrite backend_store_ok by exact Hi.
    do 2 eexists. split; [reflexivity|]. simpl.
    split; [apply map_get_set_eq|].
    rewrite deref_alter_eq by exact Hl. simpl. split; [lia | reflexivity].
  - intros now eventId content type sessionId metadata h p Hi [context Hs] Hall Hdef.
    unfold MemoryProtocol.store. rewrite Hi, Hs. simpl.
    unfold MemoryProtocol.storeEvent, MemoryProtocol.getRelevantBackends.
    rewrite for_each_store_all by exact Hall. simpl.
    do 2 eexists. split; [reflexivity|]. simpl.
    split; [unfold on_backends; now rewrite length_map|].
    intros name b' Hin.
    unfold on_backends in Hin. apply in_map_iff in Hin. destruct Hin as [[n0 b0] [Heq Hin0]].
    injection Heq as _ <-.
    eexists. split; [apply map_get_set_eq|]. simpl.
    assert (Hlen : (length h < length (h ++ [MemoryProtocol.memoryMetadata_of now metadata]))%nat)
      by (rewrite length_app; simpl; lia).
    rewrite deref_iter_alter by exact Hlen.
    pose proof (deref_alloc h (MemoryProtocol.memoryMetadata_of now metadata)) as Hd.
    unfold alloc in Hd. simpl in Hd. rewrite Hd.
    split.
    + rewrite accessCount_iter_touch.
      assert (accessCount (MemoryProtocol.memoryMetadata_of now metadata) = 0) as ->.
      { unfold MemoryProtocol.memoryMetadata_of. simpl.
        destruct metadata as [m|]; simpl in *; [now rewrite Hdef | reflexivity]. }
      lia.
    + apply lastAccessed_iter_touch.
      destruct (MemoryProtocol.storageBackends p); [contradiction | simpl; lia].
Qed.


Lemma store_counts_one_access_per_backend_witness :
  exists h' p',
    MemoryProtocol.store 100 "m1" preference_text SEMANTIC "s1"
                         (Some preference_overrides) [] single_backend
      = (Ok "m1", h', p') /\
    length (MemoryProtocol.storageBackends p') = 1%nat /\
    forall name b', In (name, b') (MemoryProtocol.storageBackends p') ->
      exists ev,
        map_get "m1" (InMemoryBackend.events b') = Some ev /\
        accessCount (deref h' (e_metadata ev)) = 1 /\
        lastAccessed (deref h' (e_metadata ev)) = 100.
Proof.
  apply (proj2 store_counts_one_access_per_backend
               100 "m1" preference_text SEMANTIC "s1"
               (Some preference_overrides) [] single_backend).
  - reflexivity.
  - vm_compute. eauto.
  - intros n b [[= <- <-]|[]]. reflexivity.
  - reflexivity.
Defined.

(** C9 fails as stated: with two registered backends a record stored with
    the default accessCount of 0 has accessCount 2 in each backend right
    after the store, since both stored copies share one metadata object that
    each backend's store increments. *)
Lemma two_backends_count_two_accesses :
  exists h' a b ev,
    MemoryProtocol.store 100 "m1" "alpha" SEMANTIC "s1" None [] two_backends
      = (Ok "m1", h', protocol_with [("a", a); ("b", b)]) /\
    map_get "m1" (InMemoryBackend.events a) = Some ev /\
    map_get "m1" (InMemoryBackend.events b) = Some ev /\
    accessCount (deref h' (e_metadata ev)) = 2.
Proof.
  do 4 eexists. split; [reflexivity|]. repeat split.
Qed.

(** ** Update and delete *)

Section DispatchLoop.
Variable op : Heap -> InMemoryBackend.state -> InMemoryBackend.Outcome unit.
Variable applies : InMemoryBackend.state -> Prop.
Variable after : InMemoryBackend.state -> InMemoryBackend.state.
Variable failure : Error.
Hypothesis op_applies :
  forall h b, InMemoryBackend.initialized b = true -> applies b ->
              exists h', op h b = (Ok tt, h', after b).
Hypothesis op_fails :
  forall h b, InMemoryBackend.initialized b = true -> ~ applies b ->
              op h b = (Throw failure, h, b).

Lemma for_each_backend_all bs : forall h,
  all_initialized bs ->
  (forall name b, In (name, b) bs -> applies b) ->
  exists h', MemoryProtocol.for_each_backend op h bs = (Ok tt, h', on_backends after bs).
Proof.
  induction bs as [|[name b] rest IH]; intros h Hinit Hall; simpl.
  - now exists h.
  - destruct (op_applies h b) as [h1 ->];
      [apply (Hinit name); now left | apply (Hall name); now left|].
    destruct (IH h1) as [h2 ->];
      [intros n b0 Hin; apply (Hinit n); now right
      |intros n b0 Hin; apply (Hall n); now right|].
    now exists h2.
Qed.

Lemma for_each_backend_first_missing pre name b post : forall h,
  all_initialized (pre ++ (name, b) :: post) ->
  (forall n b0, In (n, b0) pre -> applies b0) ->
  ~ applies b ->
  exists h', MemoryProtocol.for_each_backend op h (pre ++ (name, b) :: post)
             = (Throw failure, h', on_backends after pre ++ (name, b) :: post).
Proof.
  induction pre as [|[n0 b0] pre IH]; intros h Hinit Hpre Hb; simpl.
  - rewrite op_fails; [now exists h | apply (Hinit name); now left | exact Hb].
  - destruct (op_applies h b0) as [h1 ->];
      [apply (Hinit n0); now left | apply (Hpre n0); now left|].
    destruct (IH h1) as [h2 ->];
      [intros n b1 Hin; apply (Hinit n); now right
      |intros n b1 Hin; apply (Hpre n); now right | exact Hb |].
    now exists h2.
Qed.
End DispatchLoop.

Lemma holds_dec id b : {holds id b} + {~ holds id b}.
Proof.
  unfold holds. destruct (map_get id (InMemoryBackend.events b)).
  - left. eauto.
  - right. intros [x Hx]. discriminate.
Qed.

(** A list of backends either all hold [id] or splits at the first that does not. *)
Lemma first_missing id (bs : list (string * InMemoryBackend.state)) :
  (forall name b, In (name, b) bs -> holds id b) \/
  exists pre name b post,
    bs = pre ++ (name, b) :: post /\
    (forall n b0, In (n, b0) pre -> holds id b0) /\ ~ holds id b.
Proof.
  induction bs as [|[name b] rest IH].
  - left. intros ? ? [].
  - destruct (holds_dec id b) as [Hb|Hb].
    + destruct IH as [Hall|(pre & n & b1 & post & -> & Hpre & Hb1)].
      * left. intros n0 b0 [[= <- <-]|Hin]; [exact Hb | now apply (Hall n0)].
      * right. exists ((name, b) :: pre), n, b1, post. split; [reflexivity|].
        split; [|exact Hb1].
        intros n0 b0 [[= <- <-]|Hin]; [exact Hb | now apply (Hpre n0)].
    + right. exists [], name, b, rest. split; [reflexivity|].
      split; [intros ? ? [] | exact Hb].
Qed.

Lemma backend_delete_applies id h b :
  InMemoryBackend.initialized b = true -> holds id b ->
  InMemoryBackend.delete id h b = (Ok tt, h, deleted_from id b).
Proof.
  intros Hi [ev Hev]. unfold InMemoryBackend.delete, deleted_from. rewrite Hi. simpl.
  pose proof (map_delete_fst (InMemoryBackend.events b) id) as Hd.
  rewrite Hev in Hd.
  destruct (map_delete id (InMemoryBackend.events b)) as [d m']. simpl in *.
  now subst d.
Qed.

Lemma backend_delete_fails id h b :
  InMemoryBackend.initialized b = true -> ~ holds id b ->
  InMemoryBackend.delete id h b
    = (Throw (StorageError ("Event not found: " ++ id)), h, b).
Proof.
  intros Hi Hn. unfold InMemoryBackend.delete. rewrite Hi. simpl.
  pose proof (map_delete_fst (InMemoryBackend.events b) id) as Hd.
  destruct (map_get id (InMemoryBackend.events b)) eqn:Hev.
  - exfalso. apply Hn. unfold holds. rewrite Hev. eauto.
  - destruct (map_delete id (InMemoryBackend.events b)) as [d m']. simpl in *.
    now subst d.
Qed.

Lemma backend_update_applies now id updates h b :
  InMemoryBackend.initialized b = true -> holds id b ->
  exists h', InMemoryBackend.update now id updates h b = (Ok tt, h', updated_in id updates b).
Proof.
  intros Hi [ev Hev]. unfold InMemoryBackend.update, updated_in. rewrite Hi, Hev. simpl.
  eexists. reflexivity.
Qed.

Lemma backend_update_fails now id updates h b :
  InMemoryBackend.initialized b = true -> ~ holds id b ->
  InMemoryBackend.update now id updates h b
    = (Throw (StorageError ("Event not found: " ++ id)), h, b).
Proof.
  intros Hi Hn. unfold InMemoryBackend.update. rewrite Hi. simpl.
  destruct (map_get id (InMemoryBackend.events b)) eqn:Hev; [|reflexivity].
  exfalso. apply Hn. unfold holds. rewrite Hev. eauto.
Qed.

Lemma for_each_delete_heap id bs : forall h r h' bs',
  MemoryProtocol.for_each_backend (InMemoryBackend.delete id) h bs = (r, h', bs') ->
  h' = h.
Proof.
  induction bs as [|[name b] rest IH]; intros h r h' bs' H; simpl in H.
  - now injection H as _ <- _.
  - assert (Hd : exists r1 b1, InMemoryBackend.delete id h b = (r1, h, b1)).
    { unfold InMemoryBackend.delete.
      destruct (negb (InMemoryBackend.initialized b)); [eauto|].
      destruct (map_delete id (InMemoryBackend.events b)) as [d m'].
      destruct (negb d); eauto. }
    destruct Hd as (r1 & b1 & Hd). rewrite Hd in H.
    destruct r1 as [u|e].
    + destruct (MemoryProtocol.for_each_backend (InMemoryBackend.delete id) h rest)
        as [[r2 h2] rest'] eqn:Hrest.
      injection H as _ <- _. now apply (IH h r2 h2 rest').
    + now injection H as _ <- _.
Qed.

(** C6 (as amended): the dispatcher visits the registered backends in order
    and applies update or delete to each one; the call succeeds exactly when
    every backend holds the id.  At the first backend that does not hold it
    the call fails with that backend's "Event not found" error: the backends
    visited before have the operation applied, the failing one and those
    after it are left as they were, whether or not they hold the record. *)
Theorem dispatch_stops_at_first_backend_without_record memoryId sessionId h p :
  MemoryProtocol.initialized p = true ->
  is_Some (map_get sessionId (MemoryProtocol.sessions p)) ->
  all_initialized (MemoryProtocol.storageBackends p) ->
  let bs := MemoryProtocol.storageBackends p in
  let every_backend_holds := forall name b, In (name, b) bs -> holds memoryId b in
  let not_found := StorageError ("Event not found: " ++ memoryId) in
  (every_backend_holds ->
   MemoryProtocol.delete memoryId sessionId h p
     = (Ok tt, h,
        MemoryProtocol.with_backends p (on_backends (deleted_from memoryId) bs))) /\
  (forall pre name b post,
      bs = pre ++ (name, b) :: post ->
      (forall n b0, In (n, b0) pre -> holds memoryId b0) ->
      ~ holds memoryId b ->
      MemoryProtocol.delete memoryId sessionId h p
        = (Throw not_found, h,
           MemoryProtocol.with_backends
             p (on_backends (deleted_from memoryId) pre ++ (name, b) :: post))) /\
  (forall now updates,
      every_backend_holds ->
      exists h',
        MemoryProtocol.update now memoryId updates sessionId h p
          = (Ok tt, h',
             MemoryProtocol.with_backends
               p (on_backends (updated_in memoryId updates) bs))) /\
  (forall now updates pre name b post,
      bs = pre ++ (name, b) :: post ->
      (forall n b0, In (n, b0) pre -> holds memoryId b0) ->
      ~ holds memoryId b ->
      exists h',
        MemoryProtocol.update now memoryId updates sessionId h p
          = (Throw not_found, h',
             MemoryProtocol.with_backends
               p (on_backends (updated_in memoryId updates) pre ++ (name, b) :: post))) /\
  ((exists h' p', MemoryProtocol.delete memoryId sessionId h p = (Ok tt, h', p'))
   <-> every_backend_holds) /\
  (forall now updates,
      (exists h' p', MemoryProtocol.update now memoryId updates sessionId h p
                     = (Ok tt, h', p'))
      <-> every_backend_holds).
Proof.
  intros Hi [context Hs] Hinit bs every not_found.
  assert (Hdel_all : every ->
    MemoryProtocol.delete memoryId sessionId h p
      = (Ok tt, h, MemoryProtocol.with_backends p (on_backends (deleted_from memoryId) bs))).
  { intros Hall. unfold MemoryProtocol.delete. rewrite Hi, Hs. simpl.
    destruct (for_each_backend_all (InMemoryBackend.delete memoryId) (holds memoryId)
                (deleted_from memoryId)) with (bs := bs) (h := h) as [h' Hl]; auto.
    { intros h0 b Hb Hh. exists h0. now apply backend_delete_applies. }
    fold bs. rewrite Hl. now rewrite (for_each_delete_heap _ _ _ _ _ _ Hl). }
  assert (Hdel_miss : forall pre name b post,
      bs = pre ++ (name, b) :: post ->
      (forall n b0, In (n, b0) pre -> holds memoryId b0) ->
      ~ holds memoryId b ->
      MemoryProtocol.delete memoryId sessionId h p
        = (Throw not_found, h,
           MemoryProtocol.with_backends
             p (on_backends (deleted_from memoryId) pre ++ (name, b) :: post))).
  { intros pre name b post Hbs Hpre Hb.
    unfold MemoryProtocol.delete. rewrite Hi, Hs. simpl. fold bs.
    destruct (for_each_backend_first_missing (InMemoryBackend.delete memoryId)
                (holds memoryId) (deleted_from memoryId) not_found)
      with (pre := pre) (name := name) (b := b) (post := post) (h := h) as [h' Hl]; auto.
    { intros h0 b0 Hb0 Hh. exists h0. now apply backend_delete_applies. }
    { intros h0 b0 Hb0 Hh. now apply backend_delete_fails. }
    { now rewrite <- Hbs. }
    rewrite Hbs, Hl. now rewrite (for_each_delete_heap _ _ _ _ _ _ Hl). }
  assert (Hupd_all : forall now updates, every ->
      exists h',
        MemoryProtocol.update now memoryId updates sessionId h p
          = (Ok tt, h',
             MemoryProtocol.with_backends
               p (on_backends (updated_in memoryId updates) bs))).
  { intros now updates Hall. unfold MemoryProtocol.update. rewrite Hi, Hs. simpl.
    destruct (for_each_backend_all (InMemoryBackend.update now memoryId updates)
                (holds memoryId) (updated_in memoryId updates))
      with (bs := bs) (h := h) as [h' Hl]; auto.
    { intros h0 b Hb Hh. now apply backend_update_applies. }
    fold bs. rewrite Hl. now exists h'. }
  assert (Hupd_miss : forall now updates pre name b post,
      bs = pre ++ (name, b) :: post ->
      (forall n b0, In (n, b0) pre -> holds memoryId b0) ->
      ~ holds memoryId b ->
      exists h',
        MemoryProtocol.update now memoryId updates sessionId h p
          = (Throw not_found, h',
             MemoryProtocol.with_backends
               p (on_backends (updated_in memoryId updates) pre ++ (name, b) :: post))).
  { intros now updates pre name b post Hbs Hpre Hb.
    unfold MemoryProtocol.update. rewrite Hi, Hs. simpl. fold bs.
    destruct (for_each_backend_first_missing (InMemoryBackend.update now memoryId updates)
                (holds memoryId) (updated_in memoryId updates) not_found)
      with (pre := pre) (name := name) (b := b) (post := post) (h := h) as [h' Hl]; auto.
    { intros h0 b0 Hb0 Hh. now apply backend_update_applies. }
    { intros h0 b0 Hb0 Hh. now apply backend_update_fails. }
    { now rewrite <- Hbs. }
    rewrite Hbs, Hl. now exists h'. }
  repeat split; auto.
  - intros (h' & p' & Hok).
    destruct (first_missing memoryId bs) as [Hall|(pre & n & b & post & Hbs & Hpre & Hb)];
      [exact Hall|].
    rewrite (Hdel_miss pre n b post Hbs Hpre Hb) in Hok. discriminate.
  - intros Hall. rewrite (Hdel_all Hall). eauto.
  - intros (h' & p' & Hok).
    destruct (first_missing memoryId bs) as [Hall|(pre & n & b & post & Hbs & Hpre & Hb)];
      [exact Hall|].
    destruct (Hupd_miss now updates pre n b post Hbs Hpre Hb) as [h2 Hthrow].
    rewrite Hthrow in Hok. discriminate.
  - intros Hall. destruct (Hupd_all now updates Hall) as [h2 Hok]. eauto.
Qed.

Lemma dispatch_stops_at_first_backend_without_record_witness :
  MemoryProtocol.delete "m1" "s1" one_metadata first_holds_m1
    = (Throw (StorageError "Event not found: m1"), one_metadata,
       protocol_with [("a", backend_with []); ("b", backend_with [])]).
Proof.
  assert (Hi : MemoryProtocol.initialized first_holds_m1 = true) by reflexivity.
  assert (Hs : is_Some (map_get "s1" (MemoryProtocol.sessions first_holds_m1)))
    by (vm_compute; eauto).
  assert (Hall : all_initialized (MemoryProtocol.storageBackends first_holds_m1)).
  { intros n b [[= <- <-]|[[= <- <-]|[]]]; reflexivity. }
  destruct (dispatch_stops_at_first_backend_without_record
              "m1" "s1" one_metadata first_holds_m1 Hi Hs Hall)
    as (_ & Hmiss & _).
  apply (Hmiss [("a", backend_with [record_with "m1" "alpha" [] 0%nat])]
               "b" (backend_with []) []).
  - reflexivity.
  - intros n b0 [[= <- <-]|[]]. vm_compute. eauto.
  - intros [x Hx]. vm_compute in Hx. discriminate.
Defined.

(** C6 fails as stated: with two backends of which one holds the record, a
    delete (or update) through the dispatcher fails.  When the holder comes
    first its record is deleted and the call still fails; when it comes
    second the call fails before reaching it and the record stays. *)
Lemma dispatch_fails_though_a_backend_holds_the_record :
  (exists name b, In (name, b) (MemoryProtocol.storageBackends first_holds_m1) /\
                  holds "m1" b) /\
  MemoryProtocol.delete "m1" "s1" one_metadata first_holds_m1
    = (Throw (StorageError "Event not found: m1"), one_metadata,
       protocol_with [("a", backend_with []); ("b", backend_with [])]) /\
  MemoryProtocol.delete "m1" "s1" one_metadata second_holds_m1
    = (Throw (StorageError "Event not found: m1"), one_metadata, second_holds_m1) /\
  fst (fst (MemoryProtocol.update 7 "m1" no_updates "s1" one_metadata first_holds_m1))
    = Throw (StorageError "Event not found: m1") /\
  MemoryProtocol.update 7 "m1" no_updates "s1" one_metadata second_holds_m1
    = (Throw (StorageError "Event not found: m1"), one_metadata, second_holds_m1).
Proof.
  split.
  - exists "a", (backend_with [record_with "m1" "alpha" [] 0%nat]).
    split; [now left | vm_compute; eauto].
  - repeat split; vm_compute; reflexivity.
Qed.

(** C5 (as amended): backend update fails with the "Event not found" storage
    error when no record with that id exists, and otherwise replaces the
    record by the spread of the stored record and the update: each top-level
    field present in the update replaces the stored one wholesale, metadata
    included (the record then refers to the update's metadata object, and no
    key of the previously stored metadata is carried over); the updated
    timestamp of the resulting metadata object is set to the call time. *)
Theorem update_replaces_fields_wholesale now id updates h b :
  InMemoryBackend.initialized b = true ->
  (map_get id (InMemoryBackend.events b) = None ->
   InMemoryBackend.update now id updates h b
     = (Throw (StorageError ("Event not found: " ++ id)), h, b)) /\
  (forall event,
      map_get id (InMemoryBackend.events b) = Some event ->
      exists h' b' event',
        InMemoryBackend.update now id updates h b = (Ok tt, h', b') /\
        map_get id (InMemoryBackend.events b') = Some event' /\
        (forall id', id' <> id ->
           map_get id' (InMemoryBackend.events b') = map_get id' (InMemoryBackend.events b)) /\
        e_id event' = default (e_id event) (u_id updates) /\
        e_type event' = default (e_type event) (u_type updates) /\
        e_memoryType event' = default (e_memoryType event) (u_memoryType updates) /\
        e_context event' = default (e_context event) (u_context updates) /\
        e_content event' = default (e_content event) (u_content updates) /\
        e_metadata event' = default (e_metadata event) (u_metadata updates) /\
        e_timestamp event' = default (e_timestamp event) (u_timestamp updates) /\
        e_ttl event' = match u_ttl updates with Some t => Some t | None => e_ttl event end /\
        ((e_metadata event' < length h)%nat ->
         deref h' (e_metadata event') = set_updated now (deref h (e_metadata event'))) /\
        (forall l, u_metadata updates = Some l -> (l < length h)%nat ->
                   forall key, metadata_get (deref h' (e_metadata event')) key
                               = metadata_get (deref h l) key)).
Proof.
  intros Hi. split.
  - intros Hn. unfold InMemoryBackend.update. now rewrite Hi, Hn.
  - intros event Hev. unfold InMemoryBackend.update. rewrite Hi, Hev. simpl.
    do 3 eexists. split; [reflexivity|]. simpl.
    split; [apply map_get_set_eq|].
    split; [intros id' Hne; apply map_get_set_ne; congruence|].
    repeat (split; [reflexivity|]).
    split.
    + intros Hl. now apply deref_alter_eq.
    + intros l Hu Hl key. unfold InMemoryBackend.spread. rewrite Hu. cbn [e_metadata default].
      rewrite deref_alter_eq by exact Hl. reflexivity.
Qed.

Lemma update_replaces_fields_wholesale_witness :
  exists h' b' event',
    InMemoryBackend.update 7 "m1" replace_metadata project_heap project_backend
      = (Ok tt, h', b') /\
    map_get "m1" (InMemoryBackend.events b') = Some event' /\
    e_metadata event' = 1%nat /\
    deref h' 1%nat = set_updated 7 (metadata_with 0.9 1 []).
Proof.
  destruct (update_replaces_fields_wholesale
              7 "m1" replace_metadata project_heap project_backend eq_refl)
    as [_ H].
  destruct (H (record_with "m1" "alpha" [] 0%nat) eq_refl)
    as (h' & b' & event' & Hup & Hget & _ & _ & _ & _ & _ & _ & Hmd & _ & _ & Hheap & _).
  assert (Hm1 : e_metadata event' = 1%nat) by (rewrite Hmd; reflexivity).
  exists h', b', event'. split; [exact Hup|]. split; [exact Hget|].
  split; [exact Hm1|].
  rewrite Hm1 in Hheap. rewrite Hheap; [reflexivity | simpl; lia].
Defined.

(** C5 fails as stated: the stored metadata has the key "project", the
    update's metadata does not, and after the update the stored record no
    longer has it (before the update the key reads "alpha"). *)
Lemma update_drops_absent_metadata_keys :
  (exists stored,
      map_get "m1" (InMemoryBackend.events project_backend) = Some stored /\
      metadata_get (deref project_heap (e_metadata stored)) "project" = JStr "alpha") /\
  metadata_get (deref project_heap 1%nat) "project" = JUndefined /\
  exists h' b' stored',
    InMemoryBackend.update 7 "m1" replace_metadata project_heap project_backend
      = (Ok tt, h', b') /\
    map_get "m1" (InMemoryBackend.events b') = Some stored' /\
    metadata_get (deref h' (e_metadata stored')) "project" = JUndefined.
Proof.
  split; [eexists; split; reflexivity|].
  split; [reflexivity|].
  do 3 eexists. split; [reflexivity|]. split; reflexivity.
Qed.

(** ** Scoring *)

Lemma fold_left_collect {A B : Type} (p : A -> bool) (f : A -> B) (l : list A) :
  forall acc,
    fold_left (fun results x => if p x then results ++ [f x] else results) l acc
    = acc ++ map f (List.filter p l).
Proof.
  induction l as [|x l IH]; intros acc; simpl.
  - now rewrite app_nil_r.
  - destruct (p x); simpl.
    + rewrite IH. now rewrite <- app_assoc.
    + apply IH.
Qed.

Lemma fold_left_weighted (w : Q) (p : string -> bool) (l : list string) :
  forall acc : Q,
    (fold_left (fun score x => if p x then score + w else score) l acc
     == acc + w * inject_Z (Z.of_nat (length (List.filter p l))))%Q.
Proof.
  induction l as [|x l IH]; intros acc; simpl.
  - ring.
  - destruct (p x); simpl length.
    + rewrite IH. rewrite Nat2Z.inj_succ. unfold Z.succ. rewrite inject_Z_plus. ring.
    + apply IH.
Qed.

Lemma score_of_as_specified query event :
  (InMemoryBackend.score_of (toLowerCase query) event
   == score_as_specified query event)%Q.
Proof.
  unfold InMemoryBackend.score_of, score_as_specified, count_containing.
  destruct (keywords (e_content event)) as [ks|];
    destruct (tags (e_content event)) as [ts|];
    rewrite ?fold_left_weighted;
    destruct (includes (toLowerCase (text (e_content event))) (toLowerCase query));
    simpl; ring.
Qed.

Lemma searchEvents_filter query b :
  InMemoryBackend.searchEvents query b
  = map (fun e => set_score (InMemoryBackend.score_of (toLowerCase (q_query query)) e) e)
        (List.filter (fun e => Qle_bool (InMemoryBackend.threshold_of query)
                                        (InMemoryBackend.score_of
                                           (toLowerCase (q_query query)) e))
                     (map_values (InMemoryBackend.events b))).
Proof.
  unfold InMemoryBackend.searchEvents.
  now rewrite (fold_left_collect
                 (fun e => Qle_bool (InMemoryBackend.threshold_of query)
                             (InMemoryBackend.score_of (toLowerCase (q_query query)) e))
                 (fun e => set_score (InMemoryBackend.score_of
                                        (toLowerCase (q_query query)) e) e)).
Qed.





(** The protocol-facing retrieve fills in a threshold of 0.7 and a limit of
    10 before the query reaches a backend, so the engine's own fallbacks
    only apply to queries built elsewhere. *)
Lemma protocol_query_defaults query :
  q_threshold (MemoryProtocol.memoryQuery_of query None) = Some 0.7%Q /\
  q_limit (MemoryProtocol.memoryQuery_of query None) = Some 10%nat /\
  InMemoryBackend.threshold_of (MemoryProtocol.memoryQuery_of query None) = 0.7%Q.
Proof. repeat split. Qed.

(** ** The TypeScript-preference scenario *)

(** C4 fails as stated: after the store of the scenario, the record's score
    for the query "programming preferences" is 0, below 0.5, and neither the
    backend's retrieve under the engine's default threshold nor the
    protocol's retrieve returns it. *)
Lemma preference_record_is_not_retrieved :
  MemoryProtocol.store 100 "m1" preference_text SEMANTIC "s1"
                       (Some preference_overrides) [] single_backend
    = (Ok "m1", preference_heap, protocol_with [("in-memory", preference_backend)]) /\
  (score_as_specified "programming preferences" preference_record == 0)%Q /\
  ~ (0.5 <= score_as_specified "programming preferences" preference_record)%Q /\
  memories_of (InMemoryBackend.retrieve 200 (query_for "programming preferences")
                                        preference_heap preference_backend) = Some [] /\
  memories_of (MemoryProtocol.retrieve "programming preferences" "s1" None
                 preference_heap (protocol_with [("in-memory", preference_backend)]))
    = Some [].
Proof.
  split; [reflexivity|]. split; [reflexivity|].
  split; [intros H; vm_compute in H; apply H; reflexivity|].
  split; reflexivity.
Qed.

(** C4 (as amended): in the scenario the query "programming preferences"
    gives the stored record the score 0, because neither its text nor any
    keyword or tag contains the whole query string, and the record is not
    in the result of the backend's retrieve under the default threshold;
    the query "programming" is contained in the tag "programming" and
    retrieves the record with score 0.7, which is at least 0.5.  The
    protocol-level retrieve returns no record for either query. *)
Theorem preference_record_matches_tag_query_only :
  MemoryProtocol.store 100 "m1" preference_text SEMANTIC "s1"
                       (Some preference_overrides) [] single_backend
    = (Ok "m1", preference_heap, protocol_with [("in-memory", preference_backend)]) /\
  (score_as_specified "programming preferences" preference_record == 0)%Q /\
  memories_of (InMemoryBackend.retrieve 200 (query_for "programming preferences")
                                        preference_heap preference_backend) = Some [] /\
  (score_as_specified "programming" preference_record == 0.7)%Q /\
  (0.5 <= score_as_specified "programming" preference_record)%Q /\
  memories_of (InMemoryBackend.retrieve 200 (query_for "programming")
                                        preference_heap preference_backend)
    = Some [set_score (0 + 0.7) preference_record] /\
  (forall query options,
      memories_of (MemoryProtocol.retrieve query "s1" options preference_heap
                     (protocol_with [("in-memory", preference_backend)])) = Some []).
Proof.
  split; [reflexivity|]. split; [reflexivity|]. split; [reflexivity|].
  split; [reflexivity|].
  split; [intros H; vm_compute in H; discriminate|].
  split; [reflexivity|].
  intros query options. reflexivity.
Qed.

(** ** Retrieval *)

Lemma backend_retrieve_ok now query h b :
  InMemoryBackend.initialized b = true ->
  let sorted := InMemoryBackend.sortResults
                  h (InMemoryBackend.applyFilters
                       h (InMemoryBackend.candidates query b) query) in
  let page := slice (InMemoryBackend.offset_of query)
                    (InMemoryBackend.offset_of query + InMemoryBackend.limit_of query)
                    sorted in
  InMemoryBackend.retrieve now query h b
  = (Ok {| memories := page; totalCount := length sorted; r_query := query |},
     InMemoryBackend.touch_page now b page h, b).
Proof. intros Hi. unfold InMemoryBackend.retrieve. now rewrite Hi. Qed.

(** C7 (as amended): retrieve returns the slice [offset, offset+limit) of
    the sorted, filtered candidates, where an absent offset counts as 0 and
    an absent limit or a limit of 0 counts as DEFAULT_SEARCH_LIMIT = 10, and
    totalCount is the size of the filtered set before slicing; with limit 5
    and offset 0 over exactly 3 matching records it returns all 3 with
    totalCount 3. *)
Theorem retrieve_returns_slice_of_sorted_matches now query h b :
  InMemoryBackend.initialized b = true ->
  let sorted := InMemoryBackend.sortResults
                  h (InMemoryBackend.applyFilters
                       h (InMemoryBackend.candidates query b) query) in
  let offset := match q_offset query with Some o => o | None => 0%nat end in
  let limit := match q_limit query with
               | Some l => if (l =? 0)%nat then 10%nat else l
               | None => 10%nat
               end in
  exists result h',
    InMemoryBackend.retrieve now query h b = (Ok result, h', b) /\
    memories result = slice offset (offset + limit) sorted /\
    totalCount result = length sorted /\
    (length sorted = 3%nat -> q_limit query = Some 5%nat -> offset = 0%nat ->
     memories result = sorted /\ totalCount result = 3%nat).
Proof.
  intros Hi sorted offset limit.
  rewrite backend_retrieve_ok by exact Hi.
  do 2 eexists. split; [reflexivity|]. simpl.
  assert (Hoff : InMemoryBackend.offset_of query = offset) by reflexivity.
  assert (Hlim : InMemoryBackend.limit_of query = limit).
  { unfold InMemoryBackend.limit_of, limit.
    destruct (q_limit query) as [[|l]|]; reflexivity. }
  rewrite Hoff, Hlim. fold sorted.
  split; [reflexivity|]. split; [reflexivity|].
  intros Hlen Hl Ho. split; [|exact Hlen].
  rewrite Ho. subst limit. rewrite Hl. simpl.
  unfold slice. simpl. apply take_ge. rewrite Hlen. lia.
Qed.

Lemma retrieve_returns_slice_of_sorted_matches_witness :
  exists result h',
    InMemoryBackend.retrieve 200 (page_query "note" (Some 5%nat) (Some 0%nat) None)
                             three_metadata three_records = (Ok result, h', three_records) /\
    memories result
      = [set_score (0 + 0.8 + 0.6) (record_with "r1" "note one" [] 0%nat);
         set_score (0 + 0.8 + 0.6) (record_with "r2" "note two" [] 1%nat);
         set_score (0 + 0.8 + 0.6) (record_with "r3" "note three" [] 2%nat)] /\
    totalCount result = 3%nat.
Proof.
  destruct (retrieve_returns_slice_of_sorted_matches
              200 (page_query "note" (Some 5%nat) (Some 0%nat) None)
              three_metadata three_records eq_refl)
    as (result & h' & Hr & _ & _ & H3).
  destruct (H3 eq_refl eq_refl eq_refl) as [Hm Ht].
  exists result, h'. split; [exact Hr|]. split; [|exact Ht].
  rewrite Hm. vm_compute. reflexivity.
Defined.

(** C7 fails as stated: with limit 0 and offset 0 the slice [0, 0) of the
    single match is empty, and retrieve returns the match. *)
Lemma zero_limit_is_replaced_by_default :
  q_limit (page_query "alpha" (Some 0%nat) (Some 0%nat) None) = Some 0%nat /\
  slice 0 (0 + 0)
        (InMemoryBackend.sortResults
           one_metadata
           (InMemoryBackend.applyFilters
              one_metadata
              (InMemoryBackend.candidates
                 (page_query "alpha" (Some 0%nat) (Some 0%nat) None) project_backend)
              (page_query "alpha" (Some 0%nat) (Some 0%nat) None))) = [] /\
  memories_of (InMemoryBackend.retrieve
                 200 (page_query "alpha" (Some 0%nat) (Some 0%nat) None)
                 one_metadata project_backend)
    = Some [set_score (0 + 0.8 + 0.6) (record_with "m1" "alpha" [] 0%nat)].
Proof. repeat split. Qed.

(** ** Consolidation *)






Lemma inject_nat_nonneg n : (0 <= inject_Z (Z.of_nat n))%Q.
Proof.
  change 0%Q with (inject_Z 0). rewrite <- Zle_Qle. apply Nat2Z.is_nonneg.
Qed.







(** ** Lists *)

Lemma In_take {A : Type} (n : nat) (l : list A) x : In x (take n l) -> In x l.
Proof.
  revert n. induction l as [|a l IH]; intros [|n]; simpl; try contradiction.
  intros [->|H]; [now left | right; now apply (IH n)].
Qed.

Lemma In_drop {A : Type} (n : nat) (l : list A) x : In x (drop n l) -> In x l.
Proof.
  revert l. induction n as [|n IH]; intros [|a l]; simpl; auto.
Qed.

Lemma In_slice {A : Type} (a b : nat) (l : list A) x : In x (slice a b l) -> In x l.
Proof. unfold slice. intros H. apply (In_drop a). now apply (In_take (b - a)). Qed.

Section Projections.
Context {A B : Type} (g : A -> B).

Lemma NoDup_map_filter (p : A -> bool) (l : list A) :
  NoDup (map g l) -> NoDup (map g (List.filter p l)).
Proof.
  induction l as [|a l IH]; simpl; intros H; [constructor|].
  inversion H as [|? ? Hnin Hnd]; subst.
  destruct (p a); simpl; [|now apply IH].
  constructor; [|now apply IH].
  intros Hin. apply Hnin. apply list_elem_of_In. apply list_elem_of_In in Hin.
  apply in_map_iff in Hin. destruct Hin as (y & Hy & Hin).
  apply filter_In in Hin. apply in_map_iff. exists y. tauto.
Qed.

Lemma NoDup_map_take (n : nat) (l : list A) :
  NoDup (map g l) -> NoDup (map g (take n l)).
Proof.
  revert n. induction l as [|a l IH]; intros [|n]; simpl; intros H; try constructor.
  - inversion H as [|? ? Hnin Hnd]; subst. intros Hin. apply Hnin.
    apply list_elem_of_In. apply list_elem_of_In in Hin.
    apply in_map_iff in Hin. destruct Hin as (y & Hy & Hin).
    apply in_map_iff. exists y. split; [exact Hy | now apply (In_take n)].
  - inversion H; subst. now apply IH.
Qed.

Lemma NoDup_map_drop (n : nat) (l : list A) :
  NoDup (map g l) -> NoDup (map g (drop n l)).
Proof.
  revert l. induction n as [|n IH]; intros [|a l]; simpl; intros H; auto.
  inversion H; subst. now apply IH.
Qed.

Lemma NoDup_map_slice (a b : nat) (l : list A) :
  NoDup (map g l) -> NoDup (map g (slice a b l)).
Proof. intros H. unfold slice. now apply NoDup_map_take, NoDup_map_drop. Qed.
End Projections.

(** ** Sorting *)

Lemma sort_insert_perm cmp x l :
  Permutation (InMemoryBackend.sort_insert cmp x l) (x :: l).
Proof.
  induction l as [|y l IH]; simpl; [reflexivity|].
  destruct (Qle_bool (cmp x y) 0); [reflexivity|].
  rewrite IH. apply perm_swap.
Qed.

Lemma js_sort_perm cmp l : Permutation (InMemoryBackend.js_sort cmp l) l.
Proof.
  induction l as [|x l IH]; simpl; [reflexivity|].
  rewrite sort_insert_perm. now constructor.
Qed.

Lemma sort_insert_ext cmp cmp' x l :
  (forall a b, cmp a b = cmp' a b) ->
  InMemoryBackend.sort_insert cmp x l = InMemoryBackend.sort_insert cmp' x l.
Proof.
  intros H. induction l as [|y l IH]; simpl; [reflexivity|].
  rewrite H, IH. reflexivity.
Qed.

Lemma js_sort_ext cmp cmp' l :
  (forall a b, cmp a b = cmp' a b) ->
  InMemoryBackend.js_sort cmp l = InMemoryBackend.js_sort cmp' l.
Proof.
  intros H. induction l as [|x l IH]; simpl; [reflexivity|].
  rewrite IH. now apply sort_insert_ext.
Qed.

(** ** Filtering *)

Lemma applyFilters_In h evs query e :
  In e (InMemoryBackend.applyFilters h evs query) -> In e evs.
Proof.
  unfold InMemoryBackend.applyFilters.
  destruct (q_filters query); destruct (q_timeRange query);
    destruct (q_storageTiers query) as [[|? ?]|];
    destruct (q_memoryTypes query) as [[|? ?]|];
    intros H; repeat (apply filter_In in H; destruct H as [H _]); exact H.
Qed.

Lemma applyFilters_NoDup h evs query :
  NoDup (map e_metadata evs) ->
  NoDup (map e_metadata (InMemoryBackend.applyFilters h evs query)).
Proof.
  unfold InMemoryBackend.applyFilters. intros H.
  destruct (q_filters query); destruct (q_timeRange query);
    destruct (q_storageTiers query) as [[|? ?]|];
    destruct (q_memoryTypes query) as [[|? ?]|];
    repeat apply NoDup_map_filter; exact H.
Qed.

(** ** Candidates *)

(** Every candidate is a stored record, possibly annotated with a score. *)
Lemma candidates_stored query b c :
  In c (InMemoryBackend.candidates query b) ->
  exists stored,
    In stored (map_values (InMemoryBackend.events b)) /\
    e_id c = e_id stored /\ e_metadata c = e_metadata stored.
Proof.
  unfold InMemoryBackend.candidates.
  destruct (InMemoryBackend.id_of query) as [id|].
  - destruct (map_get id (InMemoryBackend.events b)) as [event|] eqn:Hg; [|intros []].
    intros [<-|[]]. exists event. split; [|split; reflexivity].
    apply map_get_In in Hg. unfold map_values. apply in_map_iff.
    now exists (id, event).
  - rewrite searchEvents_filter. intros Hin.
    apply in_map_iff in Hin. destruct Hin as (e & <- & Hin).
    apply filter_In in Hin. exists e. tauto.
Qed.

Lemma candidates_NoDup query b :
  NoDup (map e_metadata (map_values (InMemoryBackend.events b))) ->
  NoDup (map e_metadata (InMemoryBackend.candidates query b)).
Proof.
  intros H. unfold InMemoryBackend.candidates.
  destruct (InMemoryBackend.id_of query) as [id|].
  - destruct (map_get id (InMemoryBackend.events b)); simpl; repeat constructor.
    intros Hin. inversion Hin.
  - rewrite searchEvents_filter. rewrite map_map. simpl.
    now apply NoDup_map_filter.
Qed.

Lemma sorted_matches_NoDup query h b :
  NoDup (map e_metadata (map_values (InMemoryBackend.events b))) ->
  NoDup (map e_metadata (sorted_matches query h b)).
Proof.
  intros H. unfold sorted_matches, InMemoryBackend.sortResults.
  rewrite (Permutation_map e_metadata (js_sort_perm _ _)).
  now apply applyFilters_NoDup, candidates_NoDup.
Qed.

Lemma sorted_matches_stored query h b r :
  In r (sorted_matches query h b) ->
  exists stored,
    In stored (map_values (InMemoryBackend.events b)) /\
    e_id r = e_id stored /\ e_metadata r = e_metadata stored.
Proof.
  intros H. unfold sorted_matches, InMemoryBackend.sortResults in H.
  apply (Permutation_in _ (js_sort_perm _ _)) in H.
  apply applyFilters_In in H. now apply candidates_stored in H.
Qed.

(** ** Access tracking *)

Lemma length_touch_locs now (ls : list loc) : forall h : Heap,
  length (fold_left (fun (h : Heap) (l : loc) => alter (InMemoryBackend.touch now) l h) ls h) = length h.
Proof.
  induction ls as [|a ls IH]; intros h; simpl; [reflexivity|].
  rewrite IH. apply length_alter.
Qed.

Lemma touch_locs_spec now (ls : list loc) : forall h : Heap,
  NoDup ls ->
  (forall l, In l ls -> (l < length h)%nat) ->
  forall l,
    (In l ls ->
     deref (fold_left (fun (h : Heap) (l : loc) => alter (InMemoryBackend.touch now) l h) ls h) l
     = InMemoryBackend.touch now (deref h l)) /\
    (~ In l ls ->
     deref (fold_left (fun (h : Heap) (l : loc) => alter (InMemoryBackend.touch now) l h) ls h) l
     = deref h l).
Proof.
  induction ls as [|a ls IH]; intros h Hnd Hlen l; simpl.
  - split; [intros [] | reflexivity].
  - inversion Hnd as [|? ? Hnin Hnd']; subst.
    rewrite list_elem_of_In in Hnin.
    assert (Hlen' : forall l0, In l0 ls ->
                               (l0 < length (alter (InMemoryBackend.touch now) a h))%nat).
    { intros l0 Hin. rewrite length_alter. apply Hlen. now right. }
    destruct (IH (alter (InMemoryBackend.touch now) a h) Hnd' Hlen' l) as [Hin Hout].
    split.
    + intros [<-|Hl].
      * rewrite Hout by exact Hnin. apply deref_alter_eq. apply Hlen. now left.
      * rewrite Hin by exact Hl. rewrite deref_alter_ne; [reflexivity|].
        intros <-. contradiction.
    + intros Hn. rewrite Hout by tauto. apply deref_alter_ne. tauto.
Qed.

Lemma touch_page_locs now b page : forall h,
  (forall r, In r page ->
             exists stored, map_get (e_id r) (InMemoryBackend.events b) = Some stored /\
                            e_metadata stored = e_metadata r) ->
  InMemoryBackend.touch_page now b page h
  = fold_left (fun (h : Heap) (l : loc) => alter (InMemoryBackend.touch now) l h) (map e_metadata page) h.
Proof.
  unfold InMemoryBackend.touch_page.
  induction page as [|r page IH]; intros h H; simpl; [reflexivity|].
  destruct (H r (or_introl eq_refl)) as (stored & -> & ->).
  apply IH. intros r' Hin. apply H. now right.
Qed.

(** C3 (as amended): after a retrieve, each record of the returned page is
    stored in the backend under its id, and the stored copy's accessCount
    is one more than before the call and its lastAccessed is the call time
    (in a backend whose records are found under their own ids and have each
    a metadata object of their own).  The returned record is a shallow copy
    that refers to the same metadata object as the stored one, so the
    increment is visible through the returned record as well. *)
Theorem retrieve_touches_metadata_shared_with_page now query h b :
  InMemoryBackend.initialized b = true ->
  keyed_by_id b ->
  own_metadata h b ->
  exists result h',
    InMemoryBackend.retrieve now query h b = (Ok result, h', b) /\
    forall r, In r (memories result) ->
      exists stored,
        map_get (e_id r) (InMemoryBackend.events b) = Some stored /\
        e_metadata r = e_metadata stored /\
        accessCount (deref h' (e_metadata stored))
          = accessCount (deref h (e_metadata stored)) + 1 /\
        lastAccessed (deref h' (e_metadata stored)) = now /\
        accessCount (deref h' (e_metadata r))
          = accessCount (deref h (e_metadata r)) + 1.
Proof.
  intros Hi Hkey [Hnd Halloc].
  rewrite backend_retrieve_ok by exact Hi.
  fold (sorted_matches query h b).
  set (page := slice (InMemoryBackend.offset_of query)
                     (InMemoryBackend.offset_of query + InMemoryBackend.limit_of query)
                     (sorted_matches query h b)).
  do 2 eexists. split; [reflexivity|]. cbn [memories].
  assert (Hstored : forall r, In r page ->
            exists stored, map_get (e_id r) (InMemoryBackend.events b) = Some stored /\
                           e_metadata stored = e_metadata r /\
                           (e_metadata r < length h)%nat).
  { intros r Hin. apply In_slice in Hin.
    destruct (sorted_matches_stored _ _ _ _ Hin) as (stored & Hs & Hid & Hmd).
    exists stored. rewrite Hid, Hmd. split; [now apply Hkey|].
    split; [reflexivity | now apply Halloc]. }
  rewrite touch_page_locs
    by (intros r Hin; destruct (Hstored r Hin) as (s & ? & ? & _); eauto).
  assert (Hpage : NoDup (map e_metadata page))
    by (apply NoDup_map_slice; now apply sorted_matches_NoDup).
  intros r Hin. destruct (Hstored r Hin) as (stored & Hget & Hmd & Hl).
  exists stored. split; [exact Hget|]. split; [now rewrite Hmd|].
  rewrite Hmd.
  destruct (touch_locs_spec now (map e_metadata page) h Hpage) with (l := e_metadata r)
    as [Htouched _].
  { intros l Hl'. apply in_map_iff in Hl'. destruct Hl' as (r' & <- & Hr').
    now destruct (Hstored r' Hr') as (_ & _ & _ & ?). }
  rewrite Htouched by (apply in_map; exact Hin).
  simpl. repeat split; lia.
Qed.

Lemma retrieve_touches_metadata_shared_with_page_witness :
  exists result h',
    InMemoryBackend.retrieve 200 (page_query "note" (Some 1%nat) None None)
                             three_metadata three_records
      = (Ok result, h', three_records) /\
    forall r, In r (memories result) ->
      exists stored,
        map_get (e_id r) (InMemoryBackend.events three_records) = Some stored /\
        e_metadata r = e_metadata stored /\
        accessCount (deref h' (e_metadata stored))
          = accessCount (deref three_metadata (e_metadata stored)) + 1 /\
        lastAccessed (deref h' (e_metadata stored)) = 200 /\
        accessCount (deref h' (e_metadata r))
          = accessCount (deref three_metadata (e_metadata r)) + 1.
Proof.
  apply (retrieve_touches_metadata_shared_with_page
           200 (page_query "note" (Some 1%nat) None None) three_metadata three_records).
  - reflexivity.
  - intros e [<-|[<-|[<-|[]]]]; reflexivity.
  - split.
    + simpl. repeat constructor; rewrite list_elem_of_In; simpl; intuition discriminate.
    + intros e [<-|[<-|[<-|[]]]]; simpl; lia.
Defined.

(** C3 fails as stated: the record returned by retrieve is not a snapshot
    taken before the increment.  Read through the returned record, the
    accessCount is 1 before the call and 2 after it.  Moreover the increment
    is per metadata object: once two updates have given the records "r1" and
    "r2" the same metadata object, a retrieve that returns both raises the
    stored accessCount of "r1" from 1 to 3. *)
Lemma returned_record_reflects_increment :
  (exists r h',
      InMemoryBackend.retrieve 200 (query_for "alpha") one_metadata project_backend
        = (Ok {| memories := [r]; totalCount := 1;
                 r_query := query_for "alpha" |}, h', project_backend) /\
      accessCount (deref one_metadata (e_metadata r)) = 1 /\
      accessCount (deref h' (e_metadata r)) = 2) /\
  (exists h1 b1 h2 b2 result h3 stored,
      InMemoryBackend.update 150 "r1" shared_metadata_update four_metadata three_records
        = (Ok tt, h1, b1) /\
      InMemoryBackend.update 150 "r2" shared_metadata_update h1 b1 = (Ok tt, h2, b2) /\
      InMemoryBackend.retrieve 200 (query_for "note") h2 b2 = (Ok result, h3, b2) /\
      map_get "r1" (InMemoryBackend.events b2) = Some stored /\
      In (set_score (0 + 0.8 + 0.6) stored) (memories result) /\
      accessCount (deref h2 (e_metadata stored)) = 1 /\
      accessCount (deref h3 (e_metadata stored)) = 3).
Proof.
  split.
  - do 2 eexists. split; [reflexivity|]. split; reflexivity.
  - do 7 eexists. split; [reflexivity|]. split; [reflexivity|].
    split; [reflexivity|]. split; [reflexivity|].
    split; [simpl; now left|]. split; reflexivity.
Qed.

(** ** Paging *)

Lemma without_access_touch now m :
  without_access (InMemoryBackend.touch now m) = without_access m.
Proof. reflexivity. Qed.

Lemma same_but_access_refl h : same_but_access h h.
Proof. intros l. reflexivity. Qed.

Lemma same_but_access_trans h1 h2 h3 :
  same_but_access h1 h2 -> same_but_access h2 h3 -> same_but_access h1 h3.
Proof. intros H12 H23 l. now rewrite H23, H12. Qed.

Lemma same_but_access_alter now l (h : Heap) :
  same_but_access h (alter (InMemoryBackend.touch now) l h).
Proof.
  intros l'. unfold deref. rewrite !list_lookup_total_alt, list_lookup_alter.
  case_decide; [subst l'|reflexivity].
  destruct (h !! l) as [m|]; reflexivity.
Qed.

Lemma same_but_access_touch_page now b page : forall h,
  same_but_access h (InMemoryBackend.touch_page now b page h).
Proof.
  unfold InMemoryBackend.touch_page.
  induction page as [|r page IH]; intros h; simpl; [apply same_but_access_refl|].
  destruct (map_get (e_id r) (InMemoryBackend.events b)) as [stored|]; [|apply IH].
  eapply same_but_access_trans; [apply same_but_access_alter | apply IH].
Qed.

Lemma metadata_get_without_access m key :
  key <> "accessCount" ->
  metadata_get (without_access m) key = metadata_get m key.
Proof.
  intros Hk. unfold metadata_get.
  destruct (String.eqb key "accessCount") eqn:E;
    [apply String.eqb_eq in E; contradiction|].
  reflexivity.
Qed.

Lemma matches_filters_without_access m entries :
  (forall key value, In (key, value) entries ->
                     key <> "accessCount" /\ key <> "lastAccessed") ->
  InMemoryBackend.matches_filters (without_access m) entries
  = InMemoryBackend.matches_filters m entries.
Proof.
  induction entries as [|[key value] entries IH]; intros H; simpl; [reflexivity|].
  rewrite metadata_get_without_access by (apply (H key value); now left).
  rewrite IH; [reflexivity|]. intros k v Hin. apply (H k v). now right.
Qed.

Lemma applyFilters_same_but_access h h' evs query :
  same_but_access h h' -> filters_ignore_access query ->
  InMemoryBackend.applyFilters h' evs query = InMemoryBackend.applyFilters h evs query.
Proof.
  intros Hs Hf. unfold InMemoryBackend.applyFilters.
  assert (Htier : forall l, storageTier (deref h' l) = storageTier (deref h l)).
  { intros l. change (storageTier (without_access (deref h' l))
                      = storageTier (without_access (deref h l))). now rewrite Hs. }
  assert (Hmatch : forall entries,
            q_filters query = Some entries ->
            forall l, InMemoryBackend.matches_filters (deref h' l) entries
                      = InMemoryBackend.matches_filters (deref h l) entries).
  { intros entries He l. unfold filters_ignore_access in Hf. rewrite He in Hf.
    rewrite <- (matches_filters_without_access (deref h' l)) by exact Hf.
    rewrite <- (matches_filters_without_access (deref h l)) by exact Hf.
    now rewrite Hs. }
  assert (Htiers : forall ts (l : list MemoryEvent),
            List.filter (fun event =>
                           existsb (StorageTier_eqb
                                      (storageTier (deref h' (e_metadata event)))) ts) l
            = List.filter (fun event =>
                             existsb (StorageTier_eqb
                                        (storageTier (deref h (e_metadata event)))) ts) l).
  { intros ts l. apply filter_ext. intros event. now rewrite Htier. }
  assert (Hentries : forall entries (l : list MemoryEvent),
            q_filters query = Some entries ->
            List.filter (fun event =>
                           InMemoryBackend.matches_filters
                             (deref h' (e_metadata event)) entries) l
            = List.filter (fun event =>
                             InMemoryBackend.matches_filters
                               (deref h (e_metadata event)) entries) l).
  { intros entries l He. apply filter_ext. intros event. now apply Hmatch. }
  destruct (q_filters query) as [entries|]; destruct (q_timeRange query) as [range|];
    destruct (q_storageTiers query) as [[|tier tiers]|];
    destruct (q_memoryTypes query) as [[|type types]|];
    rewrite ?(Hentries entries _ eq_refl), ?Htiers; reflexivity.
Qed.

Lemma compareFn_same_but_access h h' a b :
  same_but_access h h' ->
  InMemoryBackend.compareFn h' a b = InMemoryBackend.compareFn h a b.
Proof.
  intros Hs. unfold InMemoryBackend.compareFn.
  assert (Himp : forall l, importance (deref h' l) = importance (deref h l)).
  { intros l. change (importance (without_access (deref h' l))
                      = importance (without_access (deref h l))). now rewrite Hs. }
  now rewrite !Himp.
Qed.

Lemma sorted_matches_same_but_access query h h' b :
  same_but_access h h' -> filters_ignore_access query ->
  sorted_matches query h' b = sorted_matches query h b.
Proof.
  intros Hs Hf. unfold sorted_matches, InMemoryBackend.sortResults.
  rewrite (applyFilters_same_but_access h h') by assumption.
  apply js_sort_ext. intros a c. now apply compareFn_same_but_access.
Qed.

Lemma sorted_matches_with_offset query o h b :
  sorted_matches (with_offset query o) h b = sorted_matches query h b.
Proof. reflexivity. Qed.

Lemma slice_app {A : Type} (a b c : nat) (l : list A) :
  (a <= b)%nat -> (b <= c)%nat -> slice a b l ++ slice b c l = slice a c l.
Proof.
  intros Hab Hbc. unfold slice.
  assert (Hd : drop b l = drop (b - a) (drop a l))
    by (rewrite drop_drop; f_equal; lia).
  rewrite Hd, take_take_drop. f_equal. lia.
Qed.

Lemma slice_all {A : Type} (c : nat) (l : list A) :
  (length l <= c)%nat -> slice 0 c l = l.
Proof. intros H. unfold slice. simpl. apply take_ge. lia. Qed.

Lemma retrieve_pages_slices now query b h :
  InMemoryBackend.initialized b = true ->
  filters_ignore_access query ->
  forall n k h',
    same_but_access h h' ->
    concat (fst (retrieve_pages now query n k h' b))
    = slice (k * InMemoryBackend.limit_of query)
            ((k + n) * InMemoryBackend.limit_of query)
            (sorted_matches query h b) /\
    same_but_access h (snd (retrieve_pages now query n k h' b)).
Proof.
  intros Hi Hf. induction n as [|n IH]; intros k h' Hs.
  - simpl. split; [|exact Hs].
    unfold slice. rewrite Nat.add_0_r, Nat.sub_diag. reflexivity.
  - cbn [retrieve_pages]. rewrite backend_retrieve_ok by exact Hi.
    fold (sorted_matches (with_offset query (k * InMemoryBackend.limit_of query)) h' b).
    rewrite sorted_matches_with_offset.
    rewrite (sorted_matches_same_but_access query h h' b Hs Hf).
    change (InMemoryBackend.offset_of
              (with_offset query (k * InMemoryBackend.limit_of query)))
      with (k * InMemoryBackend.limit_of query)%nat.
    change (InMemoryBackend.limit_of
              (with_offset query (k * InMemoryBackend.limit_of query)))
      with (InMemoryBackend.limit_of query).
    match goal with
    | |- context [retrieve_pages now query n (S k) ?h2 b] =>
        destruct (IH (S k) h2) as [Hc Hs2];
        [eapply same_but_access_trans; [exact Hs | apply same_but_access_touch_page]|];
        destruct (retrieve_pages now query n (S k) h2 b) as [pages h3] eqn:Hp
    end.
    cbn [fst snd concat memories] in *. split; [|exact Hs2].
    rewrite Hc.
    replace (S k * InMemoryBackend.limit_of query)%nat
      with (k * InMemoryBackend.limit_of query + InMemoryBackend.limit_of query)%nat
      by lia.
    rewrite slice_app by lia. f_equal. lia.
Qed.

(** C8 (as amended): for every query whose metadata filters do not read
    accessCount or lastAccessed, and every limit, over a backend whose
    record set is not changed between the calls, the pages retrieved in turn
    with offsets 0, limit, 2*limit, ... concatenate to the unpaginated
    sorted result, which lists each filtered candidate exactly once.  The
    calls change access counts and access times only, and the sorted result
    does not depend on them. *)
Theorem pages_concatenate_to_unpaginated_result now query n h b :
  InMemoryBackend.initialized b = true ->
  filters_ignore_access query ->
  (length (sorted_matches query h b) <= n * InMemoryBackend.limit_of query)%nat ->
  concat (fst (retrieve_pages now query n 0 h b)) = sorted_matches query h b /\
  Permutation (sorted_matches query h b)
              (InMemoryBackend.applyFilters h (InMemoryBackend.candidates query b) query) /\
  same_but_access h (snd (retrieve_pages now query n 0 h b)) /\
  sorted_matches query (snd (retrieve_pages now query n 0 h b)) b
  = sorted_matches query h b.
Proof.
  intros Hi Hf Hlen.
  destruct (retrieve_pages_slices now query b h Hi Hf n 0%nat h (same_but_access_refl h))
    as [Hc Hs].
  split; [|split; [|split]].
  - rewrite Hc. simpl. now apply slice_all.
  - apply js_sort_perm.
  - exact Hs.
  - now apply sorted_matches_same_but_access.
Qed.

Lemma pages_concatenate_to_unpaginated_result_witness :
  concat (fst (retrieve_pages
                 200 (page_query "note" (Some 1%nat) None (Some [("source", JStr "user")]))
                 3 0 three_metadata three_records))
  = [set_score (0 + 0.8 + 0.6) (record_with "r1" "note one" [] 0%nat);
     set_score (0 + 0.8 + 0.6) (record_with "r2" "note two" [] 1%nat);
     set_score (0 + 0.8 + 0.6) (record_with "r3" "note three" [] 2%nat)].
Proof.
  destruct (pages_concatenate_to_unpaginated_result
              200 (page_query "note" (Some 1%nat) None (Some [("source", JStr "user")]))
              3 three_metadata three_records) as [Hc _].
  - reflexivity.
  - intros key value [[= <- <-]|[]]. split; discriminate.
  - vm_compute. lia.
  - rewrite Hc. vm_compute. reflexivity.
Defined.

(** C8 fails as stated: the query filters on accessCount = 1 with limit 1
    over three matching records whose access count is 1.  The unpaginated
    result lists the three records; the first page returns the first record
    and raises its count, so the next calls see a shorter filtered set, and
    the pages at offsets 0, 1, 2 and 3 concatenate to the first and the
    third record only. *)
Lemma pages_skip_a_record_when_filter_reads_accessCount :
  sorted_matches once_accessed_query three_metadata three_records
  = [set_score (0 + 0.8 + 0.6) (record_with "r1" "note one" [] 0%nat);
     set_score (0 + 0.8 + 0.6) (record_with "r2" "note two" [] 1%nat);
     set_score (0 + 0.8 + 0.6) (record_with "r3" "note three" [] 2%nat)] /\
  fst (retrieve_pages 200 once_accessed_query 4 0 three_metadata three_records)
  = [[set_score (0 + 0.8 + 0.6) (record_with "r1" "note one" [] 0%nat)];
     [set_score (0 + 0.8 + 0.6) (record_with "r3" "note three" [] 2%nat)];
     []; []] /\
  concat (fst (retrieve_pages 200 once_accessed_query 4 0 three_metadata three_records))
  <> sorted_matches once_accessed_query three_metadata three_records.
Proof.
  split; [vm_compute; reflexivity|]. split; [vm_compute; reflexivity|].
  intros H. vm_compute in H. discriminate.
Qed.

(** ** Well-formed backends are what the protocol's store builds *)

Section JsMapAppend.
Context {V : Type}.
Implicit Types (m : list (string * V)) (k : string) (v : V).

Lemma map_set_fresh m k v :
  ~ In k (map_keys m) -> map_set k v m = m ++ [(k, v)].
Proof.
  induction m as [|[k' v'] m IH]; simpl; intros Hn; [reflexivity|].
  destruct (String.eqb k' k) eqn:E.
  - apply String.eqb_eq in E. exfalso. apply Hn. now left.
  - rewrite IH; [reflexivity|]. intros Hin. apply Hn. now right.
Qed.

Lemma map_get_app_l m m' k v :
  map_get k m = Some v -> map_get k (m ++ m') = Some v.
Proof.
  induction m as [|[k' v'] m IH]; simpl; [discriminate|].
  destruct (String.eqb k' k); [trivial | exact IH].
Qed.

Lemma map_get_app_fresh m m' k :
  ~ In k (map_keys m) -> map_get k (m ++ m') = map_get k m'.
Proof.
  induction m as [|[k' v'] m IH]; simpl; intros Hn; [reflexivity|].
  destruct (String.eqb k' k) eqn:E.
  - apply String.eqb_eq in E. exfalso. apply Hn. now left.
  - apply IH. intros Hin. apply Hn. now right.
Qed.
End JsMapAppend.

Lemma own_metadata_longer h h' b :
  (length h <= length h')%nat -> own_metadata h b -> own_metadata h' b.
Proof.
  intros Hlen [Hnd Halloc]. split; [exact Hnd|].
  intros e Hin. specialize (Halloc e Hin). lia.
Qed.

(** Storing a record with a fresh id and a metadata object of its own keeps
    the backend well formed. *)
Lemma stored_in_well_formed event h b :
  keyed_by_id b -> own_metadata h b ->
  ~ In (e_id event) (map_keys (InMemoryBackend.events b)) ->
  ~ In (e_metadata event) (map e_metadata (map_values (InMemoryBackend.events b))) ->
  (e_metadata event < length h)%nat ->
  keyed_by_id (stored_in event b) /\ own_metadata h (stored_in event b).
Proof.
  intros Hkey [Hnd Halloc] Hid Hmd Hl.
  unfold keyed_by_id, own_metadata, stored_in. cbn [InMemoryBackend.events].
  rewrite map_set_fresh by exact Hid.
  unfold map_values. rewrite map_app. cbn [map snd].
  split; [|split].
  - intros e Hin. apply in_app_or in Hin. destruct Hin as [Hin|[<-|[]]].
    + apply map_get_app_l. now apply Hkey.
    + rewrite map_get_app_fresh by exact Hid. simpl. now rewrite String.eqb_refl.
  - rewrite map_app. cbn [map]. apply NoDup_app. split; [exact Hnd|].
    split; [|repeat constructor; intros Hin; inversion Hin].
    intros x Hx Hx'. apply list_elem_of_In in Hx.
    apply list_elem_of_In in Hx'. destruct Hx' as [<-|[]]. contradiction.
  - intros e Hin. apply in_app_or in Hin.
    destruct Hin as [Hin|[<-|[]]]; [now apply Halloc | exact Hl].
Qed.

(** Every backend of a protocol that is populated through its store call,
    with ids that are new to the backends, stays well formed: the records
    are found under their ids and no two records of one backend share a
    metadata object. *)
Lemma protocol_store_keeps_backends_well_formed
      now eventId content type sessionId metadata h p :
  MemoryProtocol.initialized p = true ->
  is_Some (map_get sessionId (MemoryProtocol.sessions p)) ->
  all_initialized (MemoryProtocol.storageBackends p) ->
  (forall name b, In (name, b) (MemoryProtocol.storageBackends p) ->
                  keyed_by_id b /\ own_metadata h b /\
                  ~ In eventId (map_keys (InMemoryBackend.events b))) ->
  exists h' p',
    MemoryProtocol.store now eventId content type sessionId metadata h p
      = (Ok eventId, h', p') /\
    forall name b', In (name, b') (MemoryProtocol.storageBackends p') ->
                    keyed_by_id b' /\ own_metadata h' b'.
Proof.
  intros Hi [context Hs] Hall Hwf.
  unfold MemoryProtocol.store. rewrite Hi, Hs. simpl.
  unfold MemoryProtocol.storeEvent, MemoryProtocol.getRelevantBackends.
  rewrite for_each_store_all by exact Hall. simpl.
  do 2 eexists. split; [reflexivity|]. simpl.
  intros name b' Hin. unfold on_backends in Hin.
  apply in_map_iff in Hin. destruct Hin as [[n0 b0] [Heq Hin0]].
  injection Heq as _ <-. simpl.
  destruct (Hwf n0 b0 Hin0) as (Hkey & Hown & Hfresh).
  set (h0 := h ++ [MemoryProtocol.memoryMetadata_of now metadata]).
  assert (Hlen0 : (length h < length h0)%nat)
    by (unfold h0; rewrite length_app; simpl; lia).
  match goal with
  | |- keyed_by_id (stored_in ?ev b0) /\ _ =>
      destruct (stored_in_well_formed ev h0 b0) as [Hk Ho]; auto
  end.
  - apply (own_metadata_longer h); [lia | exact Hown].
  - simpl. intros Hin. apply in_map_iff in Hin. destruct Hin as (e & He & Hin).
    destruct Hown as [_ Halloc]. specialize (Halloc e Hin). lia.
  - split; [exact Hk|].
    apply (own_metadata_longer h0); [|exact Ho].
    now rewrite length_iter_alter.
Qed.

(** * Further properties of the code *)

(** ** The order of the results *)

Lemma comparator_score (e : MemoryEvent) :
  (match e_score e with
   | Some s => if Qeq_bool s 0 then 0%Q else s
   | None => 0%Q
   end == score_shown e)%Q.
Proof.
  unfold score_shown. destruct (e_score e) as [s|]; [|reflexivity].
  destruct (Qeq_bool s 0) eqn:E; [|reflexivity].
  apply Qeq_bool_iff in E. now rewrite E.
Qed.

Lemma Qeq_bool_false_neq x y : Qeq_bool x y = false -> ~ (x == y)%Q.
Proof. intros H Hxy. apply Qeq_bool_iff in Hxy. congruence. Qed.

(** The comparator is not positive exactly when the first record ranks no
    lower than the second. *)
Lemma compareFn_ranks h a b :
  Qle_bool (InMemoryBackend.compareFn h a b) 0 = true <-> ranks_no_lower h a b.
Proof.
  unfold InMemoryBackend.compareFn, ranks_no_lower.
  pose proof (comparator_score a) as Ha. pose proof (comparator_score b) as Hb.
  set (sa := match e_score a with
             | Some s => if Qeq_bool s 0 then 0%Q else s | None => 0%Q end) in *.
  set (sb := match e_score b with
             | Some s => if Qeq_bool s 0 then 0%Q else s | None => 0%Q end) in *.
  rewrite Qle_bool_iff.
  destruct (Qeq_bool sa sb) eqn:Es; cbn [negb].
  - apply Qeq_bool_iff in Es.
    destruct (Qeq_bool (importance (deref h (e_metadata a)))
                       (importance (deref h (e_metadata b)))) eqn:Ei; cbn [negb].
    + apply Qeq_bool_iff in Ei.
      change 0%Q with (inject_Z 0). rewrite <- Zle_Qle. split.
      * intros Ht. right. split; [lra|]. right. split; [exact Ei | lia].
      * intros [Hlt|[_ [Hlt|[_ Ht]]]]; [lra | lra | lia].
    + apply Qeq_bool_false_neq in Ei. split.
      * intros Hle. right. split; [lra|]. left. lra.
      * intros [Hlt|[_ [Hlt|[He _]]]]; [lra | lra | contradiction].
  - apply Qeq_bool_false_neq in Es. split.
    + intros Hle. left. lra.
    + intros [Hlt|[He _]]; [lra | lra].
Qed.

Lemma ranks_total h a b : ranks_no_lower h a b \/ ranks_no_lower h b a.
Proof.
  unfold ranks_no_lower.
  destruct (Q_dec (score_shown a) (score_shown b)) as [[Hs|Hs]|Hs].
  - right. now left.
  - left. now left.
  - destruct (Q_dec (importance (deref h (e_metadata a)))
                    (importance (deref h (e_metadata b)))) as [[Hi|Hi]|Hi].
    + right. right. split; [now symmetry|]. now left.
    + left. right. split; [exact Hs|]. now left.
    + destruct (Z_le_gt_dec (e_timestamp b) (e_timestamp a)).
      * left. right. split; [exact Hs|]. right. split; [exact Hi | lia].
      * right. right. split; [now symmetry|]. right. split; [now symmetry | lia].
Qed.

Lemma ranks_trans h a b c :
  ranks_no_lower h a b -> ranks_no_lower h b c -> ranks_no_lower h a c.
Proof.
  unfold ranks_no_lower.
  intros [Hab|[Hab [Hiab|[Hiab Htab]]]] [Hbc|[Hbc [Hibc|[Hibc Htbc]]]];
    try (left; lra);
    right; (split; [lra|]);
    try (left; lra);
    right; split; [lra | lia].
Qed.

Lemma sort_insert_In cmp x l y :
  In y (InMemoryBackend.sort_insert cmp x l) <-> y = x \/ In y l.
Proof.
  split.
  - intros H. apply (Permutation_in _ (sort_insert_perm cmp x l)) in H.
    destruct H as [<-|H]; auto.
  - intros H. apply (Permutation_in _ (Permutation_sym (sort_insert_perm cmp x l))).
    destruct H as [->|H]; [now left | now right].
Qed.

Lemma sort_insert_sorted h x l :
  StronglySorted (ranks_no_lower h) l ->
  StronglySorted (ranks_no_lower h)
                 (InMemoryBackend.sort_insert (InMemoryBackend.compareFn h) x l).
Proof.
  induction l as [|y l IH]; intros Hs; simpl.
  - constructor; constructor.
  - inversion Hs as [|? ? Hl Hall]; subst.
    destruct (Qle_bool (InMemoryBackend.compareFn h x y) 0) eqn:E.
    + apply compareFn_ranks in E. constructor; [exact Hs|].
      constructor; [exact E|].
      rewrite List.Forall_forall in Hall. apply List.Forall_forall.
      intros z Hz. eapply ranks_trans; [exact E | now apply Hall].
    + assert (Hyx : ranks_no_lower h y x).
      { destruct (ranks_total h x y) as [Hxy|Hyx]; [|exact Hyx].
        apply compareFn_ranks in Hxy. congruence. }
      constructor; [now apply IH|].
      rewrite List.Forall_forall in Hall. apply List.Forall_forall.
      intros z Hz. apply sort_insert_In in Hz.
      destruct Hz as [->|Hz]; [exact Hyx | now apply Hall].
Qed.

Lemma js_sort_sorted h l :
  StronglySorted (ranks_no_lower h)
                 (InMemoryBackend.js_sort (InMemoryBackend.compareFn h) l).
Proof.
  induction l as [|x l IH]; simpl; [constructor|]. now apply sort_insert_sorted.
Qed.

Lemma js_sort_of_sorted h l :
  StronglySorted (ranks_no_lower h) l ->
  InMemoryBackend.js_sort (InMemoryBackend.compareFn h) l = l.
Proof.
  induction l as [|x l IH]; intros Hs; simpl; [reflexivity|].
  inversion Hs as [|? ? Hl Hall]; subst.
  rewrite IH by exact Hl.
  destruct l as [|y l]; simpl; [reflexivity|].
  inversion Hall as [|? ? Hxy _]; subst.
  apply compareFn_ranks in Hxy. now rewrite Hxy.
Qed.

Lemma sort_insert_filter h (p : MemoryEvent -> bool) x l :
  (forall y, p x = true -> p y = true -> ranks_no_lower h x y) ->
  List.filter p (InMemoryBackend.sort_insert (InMemoryBackend.compareFn h) x l)
  = List.filter p (x :: l).
Proof.
  intros Htie. induction l as [|y l IH]; simpl; [reflexivity|].
  destruct (Qle_bool (InMemoryBackend.compareFn h x y) 0) eqn:E; [reflexivity|].
  simpl. rewrite IH. simpl.
  destruct (p x) eqn:Hx; [|reflexivity].
  destruct (p y) eqn:Hy; [|reflexivity].
  exfalso. pose proof (Htie y eq_refl Hy) as Hr.
  apply compareFn_ranks in Hr. congruence.
Qed.

(** X1: the results are sorted by score descending, then importance
    descending, then timestamp descending; sorting neither adds nor drops a
    record, leaves a sorted list as it is, and is stable. *)
Theorem sortResults_ranks_records h evs :
  Permutation (InMemoryBackend.sortResults h evs) evs /\
  StronglySorted (ranks_no_lower h) (InMemoryBackend.sortResults h evs) /\
  InMemoryBackend.sortResults h (InMemoryBackend.sortResults h evs)
  = InMemoryBackend.sortResults h evs /\
  (forall p : MemoryEvent -> bool,
      (forall a b, p a = true -> p b = true -> ranks_no_lower h a b) ->
      List.filter p (InMemoryBackend.sortResults h evs) = List.filter p evs).
Proof.
  unfold InMemoryBackend.sortResults.
  split; [apply js_sort_perm|]. split; [apply js_sort_sorted|].
  split; [apply js_sort_of_sorted, js_sort_sorted|].
  intros p Htie. induction evs as [|x l IH]; simpl; [reflexivity|].
  rewrite sort_insert_filter by (intros y Hx Hy; now apply Htie).
  simpl. now rewrite IH.
Qed.

(** ** The record map of a backend *)

Section JsMapKeys.
Context {V : Type}.
Implicit Types (m : list (string * V)) (k : string) (v : V).

Lemma map_get_None m k : map_get k m = None <-> ~ In k (map_keys m).
Proof.
  induction m as [|[k' v'] m IH]; simpl; [tauto|].
  destruct (String.eqb k' k) eqn:E.
  - apply String.eqb_eq in E. split; [discriminate | intros H; exfalso; apply H; now left].
  - apply String.eqb_neq in E. rewrite IH. tauto.
Qed.

Lemma map_set_keys_present m k v :
  In k (map_keys m) -> map_keys (map_set k v m) = map_keys m.
Proof.
  induction m as [|[k' v'] m IH]; simpl; [contradiction|].
  destruct (String.eqb k' k) eqn:E.
  - apply String.eqb_eq in E. now subst.
  - apply String.eqb_neq in E. intros [H|H]; [contradiction|].
    simpl. now rewrite IH.
Qed.

Lemma map_set_keys_NoDup m k v : NoDup (map_keys m) -> NoDup (map_keys (map_set k v m)).
Proof.
  intros Hnd. destruct (in_dec string_dec k (map_keys m)) as [Hin|Hnin].
  - now rewrite map_set_keys_present.
  - rewrite map_set_fresh by exact Hnin. unfold map_keys in *. rewrite map_app. simpl.
    apply NoDup_app. split; [exact Hnd|].
    split; [|repeat constructor; intros H; inversion H].
    intros x Hx Hx'. apply list_elem_of_In in Hx. apply list_elem_of_In in Hx'.
    destruct Hx' as [<-|[]]. contradiction.
Qed.

Lemma map_delete_keys_incl m k x :
  In x (map_keys (snd (map_delete k m))) -> In x (map_keys m).
Proof.
  induction m as [|[k' v'] m IH]; simpl; [trivial|].
  destruct (String.eqb k' k); simpl; [now right|].
  destruct (map_delete k m) as [d m'] eqn:Hd. simpl in *.
  intros [H|H]; [now left | right; now apply IH].
Qed.

Lemma map_delete_keys_NoDup m k :
  NoDup (map_keys m) -> NoDup (map_keys (snd (map_delete k m))).
Proof.
  induction m as [|[k' v'] m IH]; simpl; intros Hnd; [constructor|].
  inversion Hnd as [|? ? Hnin Hnd']; subst.
  destruct (String.eqb k' k); simpl; [exact Hnd'|].
  pose proof (map_delete_keys_incl m k) as Hincl.
  destruct (map_delete k m) as [d m'] eqn:Hd. simpl in *.
  constructor; [|now apply IH].
  intros Hin. apply Hnin. apply list_elem_of_In. apply list_elem_of_In in Hin.
  now apply Hincl.
Qed.

Lemma map_delete_get_eq m k :
  NoDup (map_keys m) -> map_get k (snd (map_delete k m)) = None.
Proof.
  induction m as [|[k' v'] m IH]; simpl; intros Hnd; [reflexivity|].
  inversion Hnd as [|? ? Hnin Hnd']; subst.
  destruct (String.eqb k' k) eqn:E; simpl.
  - apply String.eqb_eq in E. subst k'. apply map_get_None.
    intros Hin. apply Hnin. now apply list_elem_of_In.
  - specialize (IH Hnd'). destruct (map_delete k m) as [d m']. simpl in *.
    now rewrite E.
Qed.

Lemma map_delete_get_ne m k k' :
  k <> k' -> map_get k' (snd (map_delete k m)) = map_get k' m.
Proof.
  intros Hne. induction m as [|[k0 v0] m IH]; simpl; [reflexivity|].
  destruct (String.eqb k0 k) eqn:E; simpl.
  - apply String.eqb_eq in E. subst k0.
    destruct (String.eqb k k') eqn:E'; [apply String.eqb_eq in E'; contradiction|].
    reflexivity.
  - destruct (map_delete k m) as [d m']. simpl in *. now rewrite IH.
Qed.

Lemma map_delete_length m k v :
  map_get k m = Some v -> S (length (snd (map_delete k m))) = length m.
Proof.
  induction m as [|[k' v'] m IH]; simpl; [discriminate|].
  destruct (String.eqb k' k); simpl; [reflexivity|].
  intros H. specialize (IH H). destruct (map_delete k m) as [d m']. simpl in *.
  now rewrite IH.
Qed.

Lemma map_set_length_present m k v :
  In k (map_keys m) -> length (map_set k v m) = length m.
Proof.
  intros H.
  pose proof (map_set_keys_present m k v H) as Hk.
  apply (f_equal (@length _)) in Hk. unfold map_keys in Hk.
  now rewrite !length_map in Hk.
Qed.
End JsMapKeys.

Lemma holds_iff_key id b :
  holds id b <-> In id (map_keys (InMemoryBackend.events b)).
Proof.
  unfold holds. split.
  - intros [e He]. destruct (in_dec string_dec id (map_keys (InMemoryBackend.events b)))
      as [Hin|Hnin]; [exact Hin|].
    apply map_get_None in Hnin. congruence.
  - intros Hin. destruct (map_get id (InMemoryBackend.events b)) eqn:E; [eauto|].
    apply map_get_None in E. contradiction.
Qed.

(** X2: store files the record under its id and leaves every other id as it
    was.  Under an id that is new the record is appended, so the count
    grows by one; under an id already held the record replaces the old one
    in place, so count and order stay. *)
Theorem store_files_record_under_its_id now event h b :
  InMemoryBackend.initialized b = true ->
  exists h' b',
    InMemoryBackend.store now event h b = (Ok tt, h', b') /\
    map_get (e_id event) (InMemoryBackend.events b') = Some event /\
    (forall id, id <> e_id event ->
                map_get id (InMemoryBackend.events b')
                = map_get id (InMemoryBackend.events b)) /\
    (~ holds (e_id event) b ->
     InMemoryBackend.getAllEvents b' = InMemoryBackend.getAllEvents b ++ [event] /\
     InMemoryBackend.getEventCount b' = S (InMemoryBackend.getEventCount b)) /\
    (holds (e_id event) b ->
     map_keys (InMemoryBackend.events b') = map_keys (InMemoryBackend.events b) /\
     InMemoryBackend.getEventCount b' = InMemoryBackend.getEventCount b) /\
    (unique_keys b -> unique_keys b').
Proof.
  intros Hi. rewrite backend_store_ok by exact Hi.
  do 2 eexists. split; [reflexivity|]. cbn [InMemoryBackend.events].
  split; [apply map_get_set_eq|].
  split; [intros id Hne; apply map_get_set_ne; congruence|].
  unfold InMemoryBackend.getAllEvents, InMemoryBackend.getEventCount, unique_keys.
  cbn [InMemoryBackend.events].
  split; [|split].
  - intros Hn. rewrite holds_iff_key in Hn. rewrite map_set_fresh by exact Hn.
    unfold map_values. rewrite map_app, length_app. simpl. split; [reflexivity | lia].
  - intros Hh. rewrite holds_iff_key in Hh.
    split; [now apply map_set_keys_present | now apply map_set_length_present].
  - apply map_set_keys_NoDup.
Qed.

Lemma store_files_record_under_its_id_witness :
  exists h' b',
    InMemoryBackend.store 5 (record_with "r2" "changed" [] 1%nat) three_metadata three_records
      = (Ok tt, h', b') /\
    map_keys (InMemoryBackend.events b') = ["r1"; "r2"; "r3"] /\
    InMemoryBackend.getEventCount b' = 3%nat.
Proof.
  destruct (store_files_record_under_its_id
              5 (record_with "r2" "changed" [] 1%nat) three_metadata three_records eq_refl)
    as (h' & b' & Hs & _ & _ & _ & Hheld & _).
  destruct Hheld as [Hk Hc]; [vm_compute; eauto|].
  exists h', b'. split; [exact Hs|]. split; [rewrite Hk | rewrite Hc]; reflexivity.
Defined.

(** ** Lookup by id, delete and the life cycle of a backend *)

Lemma id_of_query_by_id id :
  id <> EmptyString -> InMemoryBackend.id_of (query_by_id id) = Some id.
Proof. destruct id; [congruence | reflexivity]. Qed.

Lemma backend_retrieve_by_id now id h b :
  InMemoryBackend.initialized b = true -> id <> EmptyString ->
  InMemoryBackend.retrieve now (query_by_id id) h b
  = match map_get id (InMemoryBackend.events b) with
    | Some event =>
        (Ok {| memories := [event]; totalCount := 1; r_query := query_by_id id |},
         InMemoryBackend.touch_page now b [event] h, b)
    | None =>
        (Ok {| memories := []; totalCount := 0; r_query := query_by_id id |}, h, b)
    end.
Proof.
  intros Hi Hid. rewrite backend_retrieve_ok by exact Hi.
  unfold InMemoryBackend.candidates. rewrite id_of_query_by_id by exact Hid.
  destruct (map_get id (InMemoryBackend.events b)) as [event|]; reflexivity.
Qed.

Lemma score_of_empty_query e : (0.5 <= InMemoryBackend.score_of EmptyString e)%Q.
Proof.
  change EmptyString with (toLowerCase EmptyString).
  rewrite (score_of_as_specified EmptyString e).
  unfold score_as_specified. cbn [toLowerCase].
  assert (Ht : includes (toLowerCase (text (e_content e))) EmptyString = true)
    by (destruct (toLowerCase (text (e_content e))); reflexivity).
  rewrite Ht.
  pose proof (inject_nat_nonneg
                (count_containing EmptyString (keywords (e_content e)))).
  pose proof (inject_nat_nonneg (count_containing EmptyString (tags (e_content e)))).
  lra.
Qed.

Lemma filter_all {A : Type} (p : A -> bool) (l : list A) :
  (forall x, In x l -> p x = true) -> List.filter p l = l.
Proof.
  induction l as [|x l IH]; intros H; simpl; [reflexivity|].
  rewrite H by now left. rewrite IH; [reflexivity|]. intros y Hy. apply H. now right.
Qed.

(** X3: a retrieve by a non-empty id returns exactly the record filed under
    that id, with totalCount 1, or an empty result with totalCount 0 and no
    change at all when no record is filed under it.  The empty string is
    not an id: such a query is a search for the empty text, which every
    record matches, so its totalCount is the number of records held. *)
Theorem retrieve_by_id_returns_the_record now id h b :
  InMemoryBackend.initialized b = true ->
  (id <> EmptyString ->
   (forall event,
       map_get id (InMemoryBackend.events b) = Some event ->
       exists h',
         InMemoryBackend.retrieve now (query_by_id id) h b
         = (Ok {| memories := [event]; totalCount := 1; r_query := query_by_id id |},
            h', b)) /\
   (map_get id (InMemoryBackend.events b) = None ->
    InMemoryBackend.retrieve now (query_by_id id) h b
    = (Ok {| memories := []; totalCount := 0; r_query := query_by_id id |}, h, b))) /\
  (exists result h',
      InMemoryBackend.retrieve now (query_by_id EmptyString) h b = (Ok result, h', b) /\
      totalCount result = InMemoryBackend.getEventCount b /\
      length (memories result) = Nat.min 10 (InMemoryBackend.getEventCount b)).
Proof.
  intros Hi. split.
  - intros Hid. split.
    + intros event He. rewrite backend_retrieve_by_id by assumption. rewrite He. eauto.
    + intros He. rewrite backend_retrieve_by_id by assumption. now rewrite He.
  - rewrite backend_retrieve_ok by exact Hi.
    do 2 eexists. split; [reflexivity|]. cbn [totalCount memories].
    assert (Hlen : length (InMemoryBackend.sortResults h
                     (InMemoryBackend.applyFilters h
                        (InMemoryBackend.candidates (query_by_id EmptyString) b)
                        (query_by_id EmptyString)))
                   = InMemoryBackend.getEventCount b).
    { unfold InMemoryBackend.sortResults.
      rewrite (Permutation_length (js_sort_perm _ _)).
      unfold InMemoryBackend.applyFilters, InMemoryBackend.candidates. cbn.
      rewrite searchEvents_filter. rewrite length_map.
      rewrite filter_all.
      - unfold map_values, InMemoryBackend.getEventCount. apply length_map.
      - intros e _. apply Qle_bool_iff. apply score_of_empty_query. }
    split; [exact Hlen|].
    change (InMemoryBackend.offset_of (query_by_id EmptyString)) with 0%nat.
    change (InMemoryBackend.limit_of (query_by_id EmptyString)) with 10%nat.
    unfold slice. cbn [Nat.add Nat.sub]. rewrite drop_0.
    rewrite length_take. rewrite Hlen. reflexivity.
Qed.

Lemma retrieve_by_id_returns_the_record_witness :
  exists h',
    InMemoryBackend.retrieve 9 (query_by_id "r2") three_metadata three_records
    = (Ok {| memories := [record_with "r2" "note two" [] 1%nat]; totalCount := 1;
             r_query := query_by_id "r2" |}, h', three_records).
Proof.
  destruct (retrieve_by_id_returns_the_record 9 "r2" three_metadata three_records eq_refl)
    as [Hid _].
  destruct Hid as [Hfound _]; [discriminate|].
  apply Hfound. reflexivity.
Defined.

(** X4: delete of an id that the backend holds removes that record and no
    other: the count drops by one, every other id reads as before, and the
    heap is untouched.  After it a second delete of the id fails with
    "Event not found", and a retrieve by the id is empty. *)
Theorem delete_removes_the_record_only now id h b :
  InMemoryBackend.initialized b = true ->
  unique_keys b ->
  holds id b ->
  exists b',
    InMemoryBackend.delete id h b = (Ok tt, h, b') /\
    ~ holds id b' /\
    (forall id', id' <> id ->
                 map_get id' (InMemoryBackend.events b')
                 = map_get id' (InMemoryBackend.events b)) /\
    S (InMemoryBackend.getEventCount b') = InMemoryBackend.getEventCount b /\
    unique_keys b' /\
    InMemoryBackend.delete id h b'
    = (Throw (StorageError ("Event not found: " ++ id)), h, b') /\
    (id <> EmptyString ->
     InMemoryBackend.retrieve now (query_by_id id) h b'
     = (Ok {| memories := []; totalCount := 0; r_query := query_by_id id |}, h, b')).
Proof.
  intros Hi Hu Hh. exists (deleted_from id b).
  assert (Hi' : InMemoryBackend.initialized (deleted_from id b) = true) by exact Hi.
  assert (Hgone : map_get id (InMemoryBackend.events (deleted_from id b)) = None)
    by (apply map_delete_get_eq; exact Hu).
  assert (Hnh : ~ holds id (deleted_from id b)).
  { intros [e He]. simpl in *. congruence. }
  split; [now apply backend_delete_applies|].
  split; [exact Hnh|].
  split; [intros id' Hne; apply map_delete_get_ne; congruence|].
  split; [destruct Hh as [e He]; now apply (map_delete_length _ _ e)|].
  split; [now apply map_delete_keys_NoDup|].
  split; [now apply backend_delete_fails|].
  intros Hid. rewrite backend_retrieve_by_id by assumption. now rewrite Hgone.
Qed.

Lemma delete_removes_the_record_only_witness :
  exists b',
    InMemoryBackend.delete "r2" three_metadata three_records = (Ok tt, three_metadata, b') /\
    InMemoryBackend.getAllEvents b'
    = [record_with "r1" "note one" [] 0%nat; record_with "r3" "note three" [] 2%nat].
Proof.
  destruct (delete_removes_the_record_only 9 "r2" three_metadata three_records)
    as (b' & Hd & _).
  - reflexivity.
  - unfold unique_keys. simpl.
    repeat constructor; rewrite list_elem_of_In; simpl; intuition discriminate.
  - vm_compute. eauto.
  - exists b'. split; [exact Hd|].
    vm_compute in Hd. injection Hd as <-. reflexivity.
Defined.

(** X5: a backend refuses a second initialize; closed, it holds nothing and
    refuses store, retrieve, update, delete and consolidate with "Backend
    not initialized", changing nothing; initialised again it starts empty,
    whatever it held before the close.  clear also forgets every record
    but, unlike close, leaves the backend as initialised as it was. *)
Theorem close_forgets_and_disables now event query id updates evs h b :
  let closed := InMemoryBackend.new in
  let reopened := {| InMemoryBackend.events := [];
                     InMemoryBackend.initialized := true |} in
  let refused {A : Type} : InMemoryBackend.Outcome A :=
    (Throw (StorageError "Backend not initialized"), h, closed) in
  InMemoryBackend.close h b = (Ok tt, h, closed) /\
  InMemoryBackend.store now event h closed = refused /\
  InMemoryBackend.retrieve now query h closed = refused /\
  InMemoryBackend.update now id updates h closed = refused /\
  InMemoryBackend.delete id h closed = refused /\
  InMemoryBackend.consolidate evs h closed = refused /\
  InMemoryBackend.initialize h closed = (Ok tt, h, reopened) /\
  InMemoryBackend.initialize h reopened
  = (Throw (StorageError "Backend already initialized"), h, reopened) /\
  InMemoryBackend.getEventCount reopened = 0%nat /\
  InMemoryBackend.retrieve now query h reopened
  = (Ok {| memories := []; totalCount := 0; r_query := query |}, h, reopened) /\
  InMemoryBackend.getEventCount (InMemoryBackend.clear b) = 0%nat /\
  InMemoryBackend.initialized (InMemoryBackend.clear b) = InMemoryBackend.initialized b.
Proof.
  cbv zeta. do 9 (split; [reflexivity|]). split; [|split; reflexivity].
  unfold InMemoryBackend.retrieve, InMemoryBackend.candidates, InMemoryBackend.searchEvents.
  cbn [InMemoryBackend.initialized InMemoryBackend.events negb map_get map_values map fold_left].
  assert (Hc : match InMemoryBackend.id_of query with
               | Some _ => [] | None => @nil MemoryEvent end = [])
    by (destruct (InMemoryBackend.id_of query); reflexivity).
  rewrite Hc.
  assert (Ha : InMemoryBackend.applyFilters h [] query = []).
  { unfold InMemoryBackend.applyFilters.
    destruct (q_filters query); destruct (q_timeRange query);
      destruct (q_storageTiers query) as [[|? ?]|];
      destruct (q_memoryTypes query) as [[|? ?]|]; reflexivity. }
  rewrite Ha. cbn. unfold slice. rewrite drop_nil, take_nil. reflexivity.
Qed.

(** ** Filters *)

Lemma filter_filter {A : Type} (p q : A -> bool) (l : list A) :
  List.filter p (List.filter q l) = List.filter (fun x => q x && p x) l.
Proof.
  induction l as [|x l IH]; simpl; [reflexivity|].
  destruct (q x); simpl; [|exact IH].
  destruct (p x); now rewrite IH.
Qed.

Lemma filter_true {A : Type} (l : list A) : List.filter (fun _ => true) l = l.
Proof. apply filter_all. reflexivity. Qed.

Lemma in_timeRange_inclusive r t :
  InMemoryBackend.in_timeRange r t
  = match tr_start r with Some start => start <=? t | None => true end &&
    match tr_end r with Some end_ => t <=? end_ | None => true end.
Proof.
  unfold InMemoryBackend.in_timeRange.
  destruct (tr_start r) as [s|]; destruct (tr_end r) as [e|]; simpl;
    repeat match goal with
           | |- context [?a <? ?b] => destruct (Z.ltb_spec a b)
           | |- context [?a <=? ?b] => destruct (Z.leb_spec a b)
           end; simpl; try reflexivity; lia.
Qed.

Lemma matches_filters_forallb m entries :
  InMemoryBackend.matches_filters m entries
  = forallb (fun kv => strict_eq (metadata_get m (fst kv)) (snd kv)) entries.
Proof.
  induction entries as [|[key value] entries IH]; simpl; [reflexivity|].
  destruct (strict_eq (metadata_get m key) value); simpl; [exact IH | reflexivity].
Qed.

Lemma applyFilters_filter h evs query :
  InMemoryBackend.applyFilters h evs query = List.filter (passes_filters h query) evs.
Proof.
  unfold InMemoryBackend.applyFilters, passes_filters.
  destruct (q_filters query) as [entries|]; destruct (q_timeRange query) as [range|];
    destruct (q_storageTiers query) as [[|tier tiers]|];
    destruct (q_memoryTypes query) as [[|type types]|];
    rewrite ?filter_filter;
    try (symmetry; apply filter_true);
    apply filter_ext; intros e;
    rewrite ?in_timeRange_inclusive, ?matches_filters_forallb;
    cbn [andb]; rewrite ?andb_true_r, ?andb_assoc; reflexivity.
Qed.

(** X6: applyFilters keeps, in their order, exactly the records that pass
    every filter the query supplies: membership in a non-empty list of
    memory types, membership in a non-empty list of storage tiers, a
    timestamp within the inclusive bounds that are present, and strict
    equality of the metadata value with every entry of the custom filters.
    An empty list of types or tiers filters nothing, and filtering twice is
    filtering once. *)
Theorem applyFilters_keeps_passing_records h evs query :
  InMemoryBackend.applyFilters h evs query = List.filter (passes_filters h query) evs /\
  (forall e, In e (InMemoryBackend.applyFilters h evs query)
             <-> In e evs /\ passes_filters h query e = true) /\
  InMemoryBackend.applyFilters h (InMemoryBackend.applyFilters h evs query) query
  = InMemoryBackend.applyFilters h evs query.
Proof.
  assert (Heq : forall l, InMemoryBackend.applyFilters h l query
                          = List.filter (passes_filters h query) l)
    by (intros l; apply applyFilters_filter).
  split; [apply Heq|]. split.
  - intros e. rewrite Heq. apply filter_In.
  - rewrite !Heq. rewrite filter_filter. apply filter_ext.
    intros e. now destruct (passes_filters h query e).
Qed.

(** ** What retrieve changes and what it returns *)

Lemma length_touch_page now b page : forall h,
  length (InMemoryBackend.touch_page now b page h) = length h.
Proof.
  unfold InMemoryBackend.touch_page.
  induction page as [|r page IH]; intros h; simpl; [reflexivity|].
  destruct (map_get (e_id r) (InMemoryBackend.events b)); rewrite IH;
    [apply length_alter | reflexivity].
Qed.

Lemma length_filter_le {A : Type} (p : A -> bool) (l : list A) :
  (length (List.filter p l) <= length l)%nat.
Proof.
  induction l as [|x l IH]; simpl; [lia|]. destruct (p x); simpl; lia.
Qed.

Lemma candidates_length query b :
  (length (InMemoryBackend.candidates query b) <= InMemoryBackend.getEventCount b)%nat.
Proof.
  unfold InMemoryBackend.candidates, InMemoryBackend.getEventCount.
  destruct (InMemoryBackend.id_of query) as [id|].
  - destruct (map_get id (InMemoryBackend.events b)) as [e|] eqn:E; simpl; [|lia].
    apply map_get_In in E. destruct (InMemoryBackend.events b); [contradiction | simpl; lia].
  - rewrite searchEvents_filter, length_map.
    etransitivity; [apply length_filter_le|]. unfold map_values. now rewrite length_map.
Qed.

Lemma candidates_are_stored query b c :
  In c (InMemoryBackend.candidates query b) ->
  exists stored,
    In stored (InMemoryBackend.getAllEvents b) /\
    (c = stored \/ exists score, c = set_score score stored).
Proof.
  unfold InMemoryBackend.candidates, InMemoryBackend.getAllEvents.
  destruct (InMemoryBackend.id_of query) as [id|].
  - destruct (map_get id (InMemoryBackend.events b)) as [event|] eqn:Hg; [|intros []].
    intros [<-|[]]. exists event. split; [|now left].
    apply map_get_In in Hg. unfold map_values. apply in_map_iff. now exists (id, event).
  - rewrite searchEvents_filter. intros Hin.
    apply in_map_iff in Hin. destruct Hin as (e & <- & Hin).
    apply filter_In in Hin. exists e. split; [tauto|]. right. eauto.
Qed.

(** X7: a retrieve on an initialised backend always succeeds and leaves the
    backend's record map as it is; in the heap it changes access counts and
    access times only.  The page is never longer than the limit in force,
    nor than totalCount, which is never more than the number of records
    held; and every returned record is a stored record, at most with a
    score attached. *)
Theorem retrieve_changes_access_fields_only now query h b :
  InMemoryBackend.initialized b = true ->
  exists result h',
    InMemoryBackend.retrieve now query h b = (Ok result, h', b) /\
    same_but_access h h' /\
    length h' = length h /\
    (length (memories result) <= InMemoryBackend.limit_of query)%nat /\
    (length (memories result) <= totalCount result)%nat /\
    (totalCount result <= InMemoryBackend.getEventCount b)%nat /\
    (forall r, In r (memories result) ->
               exists stored,
                 In stored (InMemoryBackend.getAllEvents b) /\
                 (r = stored \/ exists score, r = set_score score stored)) /\
    r_query result = query.
Proof.
  intros Hi. rewrite backend_retrieve_ok by exact Hi.
  fold (sorted_matches query h b).
  do 2 eexists. split; [reflexivity|]. cbn [memories totalCount r_query].
  split; [apply same_but_access_touch_page|].
  split; [apply length_touch_page|].
  split; [unfold slice; rewrite length_take; lia|].
  split; [unfold slice; rewrite length_take, length_drop; lia|].
  split.
  - unfold sorted_matches, InMemoryBackend.sortResults.
    rewrite (Permutation_length (js_sort_perm _ _)).
    rewrite applyFilters_filter.
    etransitivity; [apply length_filter_le | apply candidates_length].
  - split; [|reflexivity]. intros r Hr. apply In_slice in Hr.
    unfold sorted_matches, InMemoryBackend.sortResults in Hr.
    apply (Permutation_in _ (js_sort_perm _ _)) in Hr.
    apply applyFilters_In in Hr. now apply candidates_are_stored in Hr.
Qed.

Lemma retrieve_changes_access_fields_only_witness :
  exists result h',
    InMemoryBackend.retrieve 100 (page_query "note" (Some 2%nat) None None)
                             three_metadata three_records
      = (Ok result, h', three_records) /\
    same_but_access three_metadata h' /\
    length h' = 3%nat /\
    (length (memories result) <= 2)%nat /\
    (totalCount result <= 3)%nat.
Proof.
  destruct (retrieve_changes_access_fields_only
              100 (page_query "note" (Some 2%nat) None None)
              three_metadata three_records eq_refl)
    as (result & h' & Hr & Hsame & Hlen & Hpage & _ & Htotal & _).
  exists result, h'. auto.
Defined.

(** ** Consolidation of an arbitrary list *)

Lemma existsb_fingerprint fp seen :
  existsb (String.eqb fp) seen = true <-> In fp seen.
Proof.
  rewrite existsb_exists. split.
  - intros (x & Hin & Heq). apply String.eqb_eq in Heq. now subst.
  - intros Hin. exists fp. split; [exact Hin | apply String.eqb_refl].
Qed.

Lemma consolidate_loop_first_occurrences evs :
  forall (seen : gset string) (seenl : list string) consolidated (h : Heap),
    (forall fp, fp ∈ seen <-> In fp seenl) ->
    exists h',
      InMemoryBackend.consolidate_loop evs seen consolidated h
        = (consolidated ++ first_occurrences seenl evs, h') /\
      length h' = length h /\
      (forall l : loc,
          (forall kept, In kept (consolidated ++ first_occurrences seenl evs) ->
                        e_metadata kept <> l) ->
          deref h' l = deref h l).
Proof.
  induction evs as [|e evs IH]; intros seen seenl cons h Hseen.
  - exists h. simpl. rewrite app_nil_r. auto.
  - cbn [InMemoryBackend.consolidate_loop first_occurrences].
    fold (fingerprint e).
    destruct (existsb (String.eqb (fingerprint e)) seenl) eqn:Hex.
    + apply existsb_fingerprint in Hex.
      rewrite bool_decide_eq_true_2 by now apply Hseen. cbn [negb].
      destruct (find _ cons) as [existing|] eqn:Hfind.
      * apply find_some in Hfind. destruct Hfind as [Hin _].
        match goal with
        | |- context [InMemoryBackend.consolidate_loop evs seen cons ?h2] =>
            destruct (IH seen seenl cons h2 Hseen) as (h' & Hloop & Hlen & Hframe)
        end.
        exists h'. split; [exact Hloop|]. split.
        { rewrite Hlen, !length_alter. reflexivity. }
        intros l Hl. rewrite (Hframe l Hl).
        assert (Hne : e_metadata existing <> l).
        { apply Hl. apply in_or_app. now left. }
        rewrite !deref_alter_ne by exact Hne. reflexivity.
      * apply (IH seen seenl cons h Hseen).
    + assert (Hnin : ~ In (fingerprint e) seenl).
      { intros Hin. apply existsb_fingerprint in Hin. congruence. }
      rewrite bool_decide_eq_false_2 by (intros Hin; now apply Hnin, Hseen).
      cbn [negb].
      destruct (IH ({[fingerprint e]} ∪ seen) (fingerprint e :: seenl) (cons ++ [e]) h)
        as (h' & Hloop & Hlen & Hframe).
      { intros fp. rewrite elem_of_union, elem_of_singleton, Hseen. simpl.
        split; (intros [->|H]; [now left | now right]). }
      rewrite <- app_assoc in Hloop, Hframe. simpl in Hloop, Hframe.
      exists h'. auto.
Qed.

Lemma first_occurrences_seen seen evs e :
  In e (first_occurrences seen evs) -> In e evs /\ ~ In (fingerprint e) seen.
Proof.
  revert seen. induction evs as [|x evs IH]; intros seen; simpl; [tauto|].
  destruct (existsb (String.eqb (fingerprint x)) seen) eqn:Hex.
  - intros Hin. apply IH in Hin. tauto.
  - intros [<-|Hin].
    + split; [now left|]. intros Hin. apply existsb_fingerprint in Hin. congruence.
    + apply IH in Hin. simpl in Hin. tauto.
Qed.

Lemma first_occurrences_distinct evs : forall seen,
  List.NoDup (map fingerprint (first_occurrences seen evs)).
Proof.
  induction evs as [|x evs IH]; intros seen; simpl; [constructor|].
  destruct (existsb (String.eqb (fingerprint x)) seen); [apply IH|].
  simpl. constructor; [|apply IH].
  intros Hin. apply in_map_iff in Hin. destruct Hin as (e & Heq & Hin).
  apply first_occurrences_seen in Hin. destruct Hin as [_ Hn].
  apply Hn. rewrite Heq. now left.
Qed.

Lemma first_occurrences_cover evs : forall seen e,
  In e evs ->
  In (fingerprint e) seen \/
  exists kept, In kept (first_occurrences seen evs) /\ fingerprint kept = fingerprint e.
Proof.
  induction evs as [|x evs IH]; intros seen e; simpl; [tauto|].
  destruct (existsb (String.eqb (fingerprint x)) seen) eqn:Hex.
  - intros [<-|Hin]; [left; now apply existsb_fingerprint | now apply IH].
  - intros [<-|Hin]; [right; exists x; simpl; tauto|].
    destruct (IH (fingerprint x :: seen) e Hin) as [[Heq|Hs]|(kept & Hk & Hf)].
    + right. exists x. simpl. tauto.
    + now left.
    + right. exists kept. simpl. tauto.
Qed.

Lemma first_occurrences_of_distinct evs : forall seen,
  List.NoDup (map fingerprint evs) ->
  (forall e, In e evs -> ~ In (fingerprint e) seen) ->
  first_occurrences seen evs = evs.
Proof.
  induction evs as [|x evs IH]; intros seen Hnd Hseen; simpl; [reflexivity|].
  simpl in Hnd. apply List.NoDup_cons_iff in Hnd. destruct Hnd as [Hx Hnd].
  destruct (existsb (String.eqb (fingerprint x)) seen) eqn:Hex.
  - apply existsb_fingerprint in Hex. exfalso. apply (Hseen x); [now left | exact Hex].
  - f_equal. apply IH; [exact Hnd|].
    intros e Hin [Heq|Hs].
    + apply Hx. rewrite Heq. now apply in_map.
    + apply (Hseen e); [now right | exact Hs].
Qed.

Lemma consolidate_loop_of_distinct evs :
  forall (seen : gset string) consolidated (h : Heap),
    List.NoDup (map fingerprint evs) ->
    (forall e, In e evs -> fingerprint e ∉ seen) ->
    InMemoryBackend.consolidate_loop evs seen consolidated h = (consolidated ++ evs, h).
Proof.
  induction evs as [|x evs IH]; intros seen cons h Hnd Hseen.
  - simpl. now rewrite app_nil_r.
  - cbn [InMemoryBackend.consolidate_loop]. fold (fingerprint x).
    simpl in Hnd. apply List.NoDup_cons_iff in Hnd. destruct Hnd as [Hx Hnd].
    rewrite bool_decide_eq_false_2 by (apply Hseen; now left). cbn [negb].
    rewrite IH; [now rewrite <- app_assoc | exact Hnd |].
    intros e Hin. rewrite elem_of_union, elem_of_singleton.
    intros [Heq|Hs].
    + apply Hx. rewrite <- Heq. now apply in_map.
    + apply (Hseen e); [now right | exact Hs].
Qed.

(** X8: consolidate, for any list of records, returns the first record of
    each fingerprint, in the order of the list: the fingerprints of the
    output are pairwise distinct and every input record has its fingerprint
    represented.  The backend's own map is left as it is (a folded record
    stays stored), the heap keeps its size and changes only at the metadata
    objects of the returned records; a list without repeated fingerprints
    comes back as it is with nothing changed, and consolidating the output
    again changes nothing. *)
Theorem consolidate_keeps_first_of_each_fingerprint evs h b :
  InMemoryBackend.initialized b = true ->
  exists h',
    InMemoryBackend.consolidate evs h b = (Ok (first_occurrences [] evs), h', b) /\
    List.NoDup (map fingerprint (first_occurrences [] evs)) /\
    (forall e, In e evs ->
               exists kept, In kept (first_occurrences [] evs) /\
                            fingerprint kept = fingerprint e) /\
    (forall kept, In kept (first_occurrences [] evs) -> In kept evs) /\
    length h' = length h /\
    (forall l : loc,
        (forall kept, In kept (first_occurrences [] evs) -> e_metadata kept <> l) ->
        deref h' l = deref h l) /\
    (List.NoDup (map fingerprint evs) -> first_occurrences [] evs = evs /\ h' = h) /\
    InMemoryBackend.consolidate (first_occurrences [] evs) h' b
      = (Ok (first_occurrences [] evs), h', b).
Proof.
  intros Hi. unfold InMemoryBackend.consolidate. rewrite Hi. cbn [negb].
  destruct (consolidate_loop_first_occurrences evs ∅ [] [] h)
    as (h' & Hloop & Hlen & Hframe).
  { intros fp. split; [set_solver | intros []]. }
  simpl in Hloop, Hframe. rewrite Hloop. exists h'.
  split; [reflexivity|].
  split; [apply first_occurrences_distinct|].
  split.
  { intros e Hin. destruct (first_occurrences_cover evs [] e Hin) as [[]|H]. exact H. }
  split.
  { intros kept Hin. now apply first_occurrences_seen in Hin. }
  split; [exact Hlen|].
  split; [exact Hframe|].
  split.
  - intros Hnd.
    rewrite (consolidate_loop_of_distinct evs ∅ [] h Hnd) in Hloop by set_solver.
    simpl in Hloop. inversion Hloop as [[Hevs Hh]]. rewrite <- Hevs. auto.
  - rewrite consolidate_loop_of_distinct; [reflexivity | apply first_occurrences_distinct |].
    set_solver.
Qed.

Lemma consolidate_keeps_first_of_each_fingerprint_witness :
  exists h',
    InMemoryBackend.consolidate duplicate_records duplicate_metadata three_records
      = (Ok (first_occurrences [] duplicate_records), h', three_records) /\
    length (first_occurrences [] duplicate_records) = 1%nat /\
    length h' = length duplicate_metadata.
Proof.
  destruct (consolidate_keeps_first_of_each_fingerprint
              duplicate_records duplicate_metadata three_records eq_refl)
    as (h' & Hc & _ & _ & _ & Hlen & _).
  exists h'. split; [exact Hc|]. split; [reflexivity | exact Hlen].
Defined.

(** ** The fingerprint *)

Lemma to_int32_range z : - 2 ^ 31 <= InMemoryBackend.to_int32 z < 2 ^ 31.
Proof.
  unfold InMemoryBackend.to_int32.
  pose proof (Z.mod_pos_bound (z + 2 ^ 31) (2 ^ 32) ltac:(lia)). lia.
Qed.

Lemma to_int32_small z : - 2 ^ 31 <= z < 2 ^ 31 -> InMemoryBackend.to_int32 z = z.
Proof.
  intros Hz. unfold InMemoryBackend.to_int32. rewrite Z.mod_small by lia. lia.
Qed.

Lemma to_int32_eq a b : InMemoryBackend.to_int32 a = InMemoryBackend.to_int32 b <-> a mod 2 ^ 32 = b mod 2 ^ 32.
Proof.
  unfold InMemoryBackend.to_int32. split; intros H.
  - assert (H' : (a + 2 ^ 31) mod 2 ^ 32 = (b + 2 ^ 31) mod 2 ^ 32) by lia.
    rewrite <- (Z.add_simpl_r a (2 ^ 31)), <- (Z.add_simpl_r b (2 ^ 31)).
    rewrite <- (Zminus_mod_idemp_l (a + 2 ^ 31)), <- (Zminus_mod_idemp_l (b + 2 ^ 31)).
    now rewrite H'.
  - rewrite <- (Zplus_mod_idemp_l a), <- (Zplus_mod_idemp_l b). now rewrite H.
Qed.

Lemma to_int32_mod z : InMemoryBackend.to_int32 z mod 2 ^ 32 = z mod 2 ^ 32.
Proof.
  apply to_int32_eq. apply to_int32_small. apply to_int32_range.
Qed.

Lemma hash_step_polynomial hash c :
  InMemoryBackend.hash_step hash c = InMemoryBackend.to_int32 (31 * hash + Z.of_N (N_of_ascii c)).
Proof.
  unfold InMemoryBackend.hash_step. cbv zeta. rewrite Z.land_diag.
  apply to_int32_eq. rewrite Z.shiftl_mul_pow2 by lia.
  set (char := Z.of_N (N_of_ascii c)).
  rewrite <- Zplus_mod_idemp_l, <- Zminus_mod_idemp_l, to_int32_mod.
  rewrite <- Zmult_mod_idemp_l, to_int32_mod, Zmult_mod_idemp_l.
  rewrite Zminus_mod_idemp_l, Zplus_mod_idemp_l.
  f_equal. lia.
Qed.

Lemma hash_loop_polynomial content : forall acc,
  InMemoryBackend.hash_loop content (InMemoryBackend.to_int32 acc) = InMemoryBackend.to_int32 (polynomial31 content acc).
Proof.
  induction content as [|c rest IH]; intros acc; simpl; [reflexivity|].
  rewrite hash_step_polynomial, <- IH. f_equal.
  apply to_int32_eq.
  rewrite <- Zplus_mod_idemp_l, <- Zmult_mod_idemp_r, to_int32_mod.
  now rewrite Zmult_mod_idemp_r, Zplus_mod_idemp_l.
Qed.

Lemma polynomial31_app s t : forall acc,
  polynomial31 (s ++ t) acc = polynomial31 t (polynomial31 s acc).
Proof.
  induction s as [|c s IH]; intros acc; simpl; [reflexivity | apply IH].
Qed.

Lemma polynomial31_congruent t : forall a b,
  a mod 2 ^ 32 = b mod 2 ^ 32 ->
  polynomial31 t a mod 2 ^ 32 = polynomial31 t b mod 2 ^ 32.
Proof.
  induction t as [|c t IH]; intros a b Hab; simpl; [exact Hab|].
  apply IH.
  rewrite <- Zplus_mod_idemp_l, <- Zmult_mod_idemp_r, Hab.
  now rewrite Zmult_mod_idemp_r, Zplus_mod_idemp_l.
Qed.

(** X9: the fingerprint of a text is the decimal numeral of the polynomial
    of its character codes in base 31, wrapped to a signed 32-bit integer:
    the loop never leaves the 32-bit range, the empty text has fingerprint
    "0", and texts that differ only by "Aa" against "BB" in the same place
    have the same fingerprint, so that different texts are folded by
    consolidate. *)
Theorem hashContent_is_wrapped_polynomial content :
  InMemoryBackend.hashContent content
  = NilZero.string_of_int (Z.to_int (InMemoryBackend.to_int32 (polynomial31 content 0))) /\
  - 2 ^ 31 <= InMemoryBackend.hash_loop content 0 < 2 ^ 31 /\
  InMemoryBackend.hashContent EmptyString = "0" /\
  (forall before after : string,
      InMemoryBackend.hashContent (before ++ "Aa" ++ after)
      = InMemoryBackend.hashContent (before ++ "BB" ++ after)) /\
  (forall other : string,
      polynomial31 other 0 mod 2 ^ 32 = polynomial31 content 0 mod 2 ^ 32 ->
      InMemoryBackend.hashContent other = InMemoryBackend.hashContent content).
Proof.
  assert (Hloop : forall s, InMemoryBackend.hash_loop s 0 = InMemoryBackend.to_int32 (polynomial31 s 0)).
  { intros s. rewrite <- hash_loop_polynomial. reflexivity. }
  unfold InMemoryBackend.hashContent.
  split; [now rewrite Hloop|].
  split; [rewrite Hloop; apply to_int32_range|].
  split; [reflexivity|].
  split.
  - intros before after. rewrite !Hloop. do 2 f_equal.
    apply to_int32_eq. rewrite !polynomial31_app.
    apply polynomial31_congruent. simpl. f_equal. lia.
  - intros other Heq. rewrite !Hloop. do 2 f_equal. now apply to_int32_eq.
Qed.

(** ** Keywords *)

Lemma string_app_cons (c : ascii) (a b : string) :
  (String c a ++ b)%string = String c (a ++ b).
Proof. reflexivity. Qed.

Lemma string_app_nil_l (b : string) : (EmptyString ++ b)%string = b.
Proof. reflexivity. Qed.

Lemma string_app_assoc (a b c : string) : ((a ++ b) ++ c = a ++ (b ++ c))%string.
Proof.
  induction a as [|x a IH]; [reflexivity|].
  rewrite !string_app_cons. now rewrite IH.
Qed.

Lemma string_app_nil_r (a : string) : (a ++ EmptyString)%string = a.
Proof.
  induction a as [|x a IH]; [reflexivity|].
  rewrite string_app_cons. now rewrite IH.
Qed.

Lemma prefix_app (sub s : string) :
  String.prefix sub s = true <-> exists after, s = (sub ++ after)%string.
Proof.
  revert s. induction sub as [|c sub IH]; intros s.
  - split; [intros _; now exists s | intros _; now destruct s].
  - destruct s as [|d s]; cbn [String.prefix].
    + split; [discriminate | intros [after Heq]].
      rewrite string_app_cons in Heq. discriminate.
    + destruct (Ascii.ascii_dec c d) as [<-|Hne].
      * rewrite IH. split; intros [after Heq]; exists after.
        -- rewrite string_app_cons. now rewrite Heq.
        -- rewrite string_app_cons in Heq. now injection Heq.
      * split; [discriminate | intros [after Heq]].
        rewrite string_app_cons in Heq. congruence.
Qed.

Lemma includes_occurs (s sub : string) :
  includes s sub = true <-> occurs_in sub s.
Proof.
  unfold occurs_in. induction s as [|c s IH]; cbn [includes].
  - destruct (String.prefix sub EmptyString) eqn:Hp.
    + split; [intros _ | reflexivity].
      apply prefix_app in Hp. destruct Hp as [after Heq].
      exists EmptyString, after. exact Heq.
    + split; [discriminate|]. intros (before & after & Heq).
      destruct before as [|d before]; [|rewrite string_app_cons in Heq; discriminate].
      rewrite string_app_nil_l in Heq.
      assert (String.prefix sub EmptyString = true) by (apply prefix_app; eauto).
      congruence.
  - destruct (String.prefix sub (String c s)) eqn:Hp.
    + split; [intros _ | reflexivity].
      apply prefix_app in Hp. destruct Hp as [after Heq].
      exists EmptyString, after. exact Heq.
    + rewrite IH. split.
      * intros (before & after & ->). now exists (String c before), after.
      * intros (before & after & Heq). destruct before as [|d before].
        -- rewrite string_app_nil_l in Heq.
           assert (String.prefix sub (String c s) = true) by (apply prefix_app; eauto).
           congruence.
        -- rewrite string_app_cons in Heq. injection Heq as _ ->. eauto.
Qed.

Lemma includes_refl (s : string) : includes s s = true.
Proof.
  apply includes_occurs. exists EmptyString, EmptyString.
  now rewrite string_app_nil_l, string_app_nil_r.
Qed.

Lemma all_chars_app p (a b : string) :
  all_chars p (a ++ b) = all_chars p a && all_chars p b.
Proof.
  induction a as [|x a IH]; [reflexivity|].
  rewrite string_app_cons. cbn [all_chars]. now rewrite IH, andb_assoc.
Qed.

(** The pieces of a split occur in the text, hold no white space, and
    inherit every property that all characters of the text have. *)
Lemma split_ws_from_pieces (s : string) : forall cur in_ws piece,
  In piece (split_ws_from s cur in_ws) ->
  occurs_in piece (cur ++ s) /\
  (all_chars (fun c => negb (is_space c)) cur = true ->
   all_chars (fun c => negb (is_space c)) piece = true) /\
  (forall p, all_chars p (cur ++ s) = true -> all_chars p piece = true).
Proof.
  induction s as [|c s IH]; intros cur in_ws piece; cbn [split_ws_from].
  - intros [<-|[]]. rewrite string_app_nil_r. split; [|split; auto].
    exists EmptyString, EmptyString.
    now rewrite string_app_nil_l, string_app_nil_r.
  - assert (Hrest : forall piece',
               In piece' (split_ws_from s EmptyString true) ->
               occurs_in piece' (cur ++ String c s) /\
               (all_chars (fun c => negb (is_space c)) cur = true ->
                all_chars (fun c => negb (is_space c)) piece' = true) /\
               (forall p, all_chars p (cur ++ String c s) = true ->
                          all_chars p piece' = true)).
    { intros piece' Hin. destruct (IH _ _ _ Hin) as ((before & after & Heq) & Hws & Hall).
      rewrite string_app_nil_l in Heq, Hall. split; [|split].
      - exists (cur ++ String c before)%string, after.
        rewrite string_app_assoc, string_app_cons. now rewrite Heq.
      - intros _. now apply Hws.
      - intros p Hp. apply Hall. rewrite all_chars_app in Hp. cbn [all_chars] in Hp.
        apply andb_prop in Hp. destruct Hp as [_ Hp].
        apply andb_prop in Hp. tauto. }
    destruct (is_space c) eqn:Hc.
    + destruct in_ws; [exact (Hrest piece)|].
      intros [<-|Hin]; [|exact (Hrest piece Hin)].
      split; [|split].
      * exists EmptyString, (String c s). now rewrite string_app_nil_l.
      * auto.
      * intros p Hp. rewrite all_chars_app in Hp. apply andb_prop in Hp. tauto.
    + intros Hin. destruct (IH _ _ _ Hin) as (Hocc & Hws & Hall).
      rewrite string_app_assoc, string_app_cons, string_app_nil_l in Hocc, Hall.
      split; [exact Hocc|]. split; [|exact Hall].
      intros Hcur. apply Hws. rewrite all_chars_app. cbn [all_chars].
      now rewrite Hcur, Hc.
Qed.

Lemma is_upper_lower_ascii c : is_upper (lower_ascii c) = false.
Proof.
  destruct c as [[] [] [] [] [] [] [] []]; reflexivity.
Qed.

Lemma toLowerCase_no_upper s :
  all_chars (fun c => negb (is_upper c)) (toLowerCase s) = true.
Proof.
  induction s as [|c s IH]; simpl; [reflexivity|].
  now rewrite is_upper_lower_ascii, IH.
Qed.

Lemma toLowerCase_fixed s :
  all_chars (fun c => negb (is_upper c)) s = true -> toLowerCase s = s.
Proof.
  induction s as [|c s IH]; simpl; [reflexivity|].
  intros H. apply andb_prop in H. destruct H as [Hc Hs].
  rewrite (IH Hs). unfold lower_ascii.
  destruct (is_upper c); [discriminate | reflexivity].
Qed.

Lemma extractKeywords_words content keyword :
  In keyword (MemoryProtocol.extractKeywords content) ->
  (3 < String.length keyword)%nat /\
  all_chars (fun c => negb (is_space c)) keyword = true /\
  toLowerCase keyword = keyword /\
  includes (toLowerCase content) keyword = true.
Proof.
  unfold MemoryProtocol.extractKeywords. intros Hin.
  apply In_take in Hin. apply filter_In in Hin. destruct Hin as [Hin Hlen].
  apply Nat.ltb_lt in Hlen.
  destruct (split_ws_from_pieces _ _ _ _ Hin) as (Hocc & Hws & Hall).
  rewrite string_app_nil_l in Hocc, Hall.
  split; [exact Hlen|]. split; [now apply Hws|]. split.
  - apply toLowerCase_fixed. apply Hall. apply toLowerCase_no_upper.
  - now apply includes_occurs.
Qed.

(** X10: extractKeywords returns at most ten keywords; each of them is
    longer than three characters, holds no white space, is in lower case,
    and occurs as a contiguous piece of the lower-cased text (ASCII text). *)
Theorem extractKeywords_returns_long_words_of_the_text content :
  (length (MemoryProtocol.extractKeywords content) <= 10)%nat /\
  forall keyword,
    In keyword (MemoryProtocol.extractKeywords content) ->
    (3 < String.length keyword)%nat /\
    all_chars (fun c => negb (is_space c)) keyword = true /\
    toLowerCase keyword = keyword /\
    occurs_in keyword (toLowerCase content).
Proof.
  split.
  - unfold MemoryProtocol.extractKeywords. rewrite length_take. lia.
  - intros keyword Hin.
    destruct (extractKeywords_words content keyword Hin) as (Hlen & Hws & Hlow & Hinc).
    repeat split; try assumption. now apply includes_occurs.
Qed.

Lemma count_containing_member queryLower ks keyword :
  In keyword ks ->
  includes (toLowerCase keyword) queryLower = true ->
  (1 <= count_containing queryLower (Some ks))%nat.
Proof.
  intros Hin Hinc. unfold count_containing.
  assert (H : In keyword (List.filter (fun x => includes (toLowerCase x) queryLower) ks))
    by (apply filter_In; auto).
  destruct (List.filter _ ks); [contradiction | simpl; lia].
Qed.

Lemma count_containing_nonneg queryLower l :
  (0 <= inject_Z (Z.of_nat (count_containing queryLower l)))%Q.
Proof.
  change 0%Q with (inject_Z 0). rewrite <- Zle_Qle. lia.
Qed.

(** The record that the protocol's store builds has the text as given and
    the keywords of that text; every backend holds it under the new id. *)
Lemma protocol_store_record now eventId content type sessionId metadata h p id h' p' :
  MemoryProtocol.store now eventId content type sessionId metadata h p = (Ok id, h', p') ->
  id = eventId /\
  forall name b', In (name, b') (MemoryProtocol.storageBackends p') ->
    exists ev,
      map_get id (InMemoryBackend.events b') = Some ev /\
      e_id ev = id /\
      ctx_memoryId (e_context ev) = id /\
      e_memoryType ev = type /\
      e_timestamp ev = now /\
      text (e_content ev) = content /\
      keywords (e_content ev) = Some (MemoryProtocol.extractKeywords content) /\
      e_metadata ev = length h.
Proof.
  unfold MemoryProtocol.store.
  destruct (MemoryProtocol.initialized p); simpl; [|discriminate].
  destruct (map_get sessionId (MemoryProtocol.sessions p)) as [context|]; [|discriminate].
  unfold MemoryProtocol.storeEvent, MemoryProtocol.getRelevantBackends.
  match goal with
  | |- context [MemoryProtocol.for_each_backend ?op ?h0 ?bs] =>
      destruct (MemoryProtocol.for_each_backend op h0 bs) as [[r h1] bs'] eqn:Hloop
  end.
  destruct r as [[]|e]; [|discriminate].
  intros [= <- <- <-]. split; [reflexivity|].
  simpl. intros name b' Hin.
  apply for_each_backend_ok in Hloop.
  destruct (Forall2_In_right _ _ _ _ Hloop Hin) as [[name0 b0] [_ [_ [h1' [h2' Hst]]]]].
  simpl in Hst. apply backend_store_holds in Hst. simpl in Hst.
  eexists. split; [exact Hst|]. simpl. repeat split; reflexivity.
Qed.

(** X11: a record stored through the protocol is found by each of its own
    keywords: for a query whose lower-cased text is one of the keywords
    that store extracted from the content, the record's score in every
    backend is at least 1.4 (0.8 for the text and 0.6 for the keyword), so
    the search returns it under every threshold in force up to 1.4, the
    default 0.5 included. *)
Theorem stored_record_is_found_by_its_keywords
        now eventId content type sessionId metadata h p id h' p' keyword query :
  MemoryProtocol.store now eventId content type sessionId metadata h p = (Ok id, h', p') ->
  In keyword (MemoryProtocol.extractKeywords content) ->
  toLowerCase (q_query query) = keyword ->
  (InMemoryBackend.threshold_of query <= 1.4)%Q ->
  forall name b', In (name, b') (MemoryProtocol.storageBackends p') ->
    exists ev score,
      map_get id (InMemoryBackend.events b') = Some ev /\
      text (e_content ev) = content /\
      (1.4 <= score)%Q /\
      In (set_score score ev) (InMemoryBackend.searchEvents query b').
Proof.
  intros Hstore Hkw Hq Hth name b' Hin.
  destruct (protocol_store_record _ _ _ _ _ _ _ _ _ _ _ Hstore) as [_ Hrec].
  destruct (Hrec name b' Hin) as (ev & Hget & _ & _ & _ & _ & Htext & Hkws & _).
  destruct (extractKeywords_words content keyword Hkw) as (_ & _ & Hlow & Hinc).
  set (score := InMemoryBackend.score_of (toLowerCase (q_query query)) ev).
  assert (Hscore : (1.4 <= score)%Q).
  { unfold score. rewrite score_of_as_specified. unfold score_as_specified.
    rewrite Htext, Hkws, Hq, Hinc.
    pose proof (count_containing_member keyword _ keyword Hkw) as Hone.
    rewrite Hlow in Hone. specialize (Hone (includes_refl keyword)).
    pose proof (count_containing_nonneg keyword (tags (e_content ev))) as Htags.
    assert (Hk : (1 <= inject_Z (Z.of_nat (count_containing keyword
                     (Some (MemoryProtocol.extractKeywords content)))))%Q).
    { change 1%Q with (inject_Z 1). rewrite <- Zle_Qle. lia. }
    lra. }
  exists ev, score. split; [exact Hget|]. split; [exact Htext|]. split; [exact Hscore|].
  rewrite searchEvents_filter. apply in_map_iff. exists ev. split; [reflexivity|].
  apply filter_In. split.
  - apply map_get_In in Hget. unfold map_values. apply in_map_iff.
    now exists (id, ev).
  - apply Qle_bool_iff. fold score. lra.
Qed.

Lemma stored_record_is_found_by_its_keywords_witness :
  exists ev score,
    map_get "m1" (InMemoryBackend.events preference_backend) = Some ev /\
    text (e_content ev) = preference_text /\
    (1.4 <= score)%Q /\
    In (set_score score ev)
       (InMemoryBackend.searchEvents (query_for "TypeScript") preference_backend).
Proof.
  refine (stored_record_is_found_by_its_keywords
            100 "m1" preference_text SEMANTIC "s1" (Some preference_overrides)
            [] single_backend "m1" preference_heap
            (protocol_with [("in-memory", preference_backend)])
            "typescript" (query_for "TypeScript")
            eq_refl _ _ _ "in-memory" preference_backend _).
  - vm_compute. tauto.
  - reflexivity.
  - vm_compute. discriminate.
  - simpl. now left.
Defined.

(** ** A store that reaches an uninitialised backend *)

Lemma iter_alter_shift (f : MemoryMetadata -> MemoryMetadata) (l : loc) n (h : Heap) :
  Nat.iter n (alter f l) (alter f l h) = alter f l (Nat.iter n (alter f l) h).
Proof. induction n as [|n IH]; simpl; [reflexivity | now rewrite IH]. Qed.

Lemma for_each_store_stops now event front name b back : forall h,
  all_initialized front ->
  InMemoryBackend.initialized b = false ->
  MemoryProtocol.for_each_backend (InMemoryBackend.store now event) h
                                  (front ++ (name, b) :: back)
  = (Throw (StorageError "Backend not initialized"),
     Nat.iter (length front) (alter (InMemoryBackend.touch now) (e_metadata event)) h,
     on_backends (stored_in event) front ++ (name, b) :: back).
Proof.
  induction front as [|[n0 b0] front IH]; intros h Hall Hb; simpl.
  - unfold InMemoryBackend.store. now rewrite Hb.
  - rewrite backend_store_ok by (apply (Hall n0); now left).
    rewrite IH; [|intros n b1 Hin; apply (Hall n); now right | exact Hb].
    now rewrite iter_alter_shift.
Qed.

(** X12: when the protocol's store meets a backend that is not initialised,
    the call fails with the storage error "Backend not initialized" and
    returns no id, but nothing is rolled back: every backend registered
    before that one holds the new record, that backend and the later ones
    are as they were, and the record's metadata object has been allocated
    and counts one access for each backend written. *)
Theorem store_stops_at_uninitialised_backend
        now eventId content type sessionId metadata h p front name b back :
  MemoryProtocol.initialized p = true ->
  is_Some (map_get sessionId (MemoryProtocol.sessions p)) ->
  MemoryProtocol.storageBackends p = front ++ (name, b) :: back ->
  all_initialized front ->
  InMemoryBackend.initialized b = false ->
  exists event h',
    MemoryProtocol.store now eventId content type sessionId metadata h p
      = (Throw (StorageError "Backend not initialized"), h',
         MemoryProtocol.with_backends
           p (on_backends (stored_in event) front ++ (name, b) :: back)) /\
    e_id event = eventId /\
    text (e_content event) = content /\
    (forall n b', In (n, b') (on_backends (stored_in event) front) ->
                  map_get eventId (InMemoryBackend.events b') = Some event) /\
    length h' = S (length h) /\
    accessCount (deref h' (length h))
      = accessCount (MemoryProtocol.memoryMetadata_of now metadata)
        + Z.of_nat (length front).
Proof.
  intros Hi [context Hs] Hbs Hall Hb.
  unfold MemoryProtocol.store. rewrite Hi, Hs. cbn [negb alloc].
  unfold MemoryProtocol.storeEvent, MemoryProtocol.getRelevantBackends.
  rewrite Hbs, for_each_store_stops by assumption.
  do 2 eexists. split; [reflexivity|]. cbn [e_id e_content text e_metadata].
  split; [reflexivity|]. split; [reflexivity|]. split; [|split].
  - intros n b' Hin. unfold on_backends in Hin. apply in_map_iff in Hin.
    destruct Hin as ([n0 b0] & [= _ <-] & _). cbn [snd stored_in InMemoryBackend.events e_id].
    apply map_get_set_eq.
  - rewrite length_iter_alter, length_app. simpl. lia.
  - rewrite deref_iter_alter by (rewrite length_app; simpl; lia).
    rewrite accessCount_iter_touch. f_equal.
    pose proof (deref_alloc h (MemoryProtocol.memoryMetadata_of now metadata)) as Hd.
    unfold alloc in Hd. simpl in Hd. now rewrite Hd.
Qed.

Lemma store_stops_at_uninitialised_backend_witness :
  exists event h',
    MemoryProtocol.store 100 "m1" preference_text SEMANTIC "s1" None [] middle_uninitialised
      = (Throw (StorageError "Backend not initialized"), h',
         MemoryProtocol.with_backends
           middle_uninitialised
           (on_backends (stored_in event) [("a", backend_with [])]
            ++ ("b", InMemoryBackend.new) :: [("c", backend_with [])])) /\
    e_id event = "m1" /\
    text (e_content event) = preference_text /\
    (forall n b', In (n, b') (on_backends (stored_in event) [("a", backend_with [])]) ->
                  map_get "m1" (InMemoryBackend.events b') = Some event) /\
    length h' = 1%nat /\
    accessCount (deref h' 0%nat)
      = accessCount (MemoryProtocol.memoryMetadata_of 100 None) + 1.
Proof.
  apply (store_stops_at_uninitialised_backend
           100 "m1" preference_text SEMANTIC "s1" None [] middle_uninitialised
           [("a", backend_with [])] "b" InMemoryBackend.new [("c", backend_with [])]).
  - reflexivity.
  - vm_compute. eauto.
  - reflexivity.
  - intros n b0 [[= _ <-]|[]]. reflexivity.
  - reflexivity.
Defined.

(** ** What update leaves alone *)

(** X13: a successful update keeps the backend's keys, their order and
    their number, and changes no metadata object except for the updated
    time of the resulting record's.  The record stays filed under the id
    it was stored with: when the update carries another id, the record's
    id field changes but a lookup under the new id still finds nothing. *)
Theorem update_keeps_keys_and_order now id updates h b :
  InMemoryBackend.initialized b = true ->
  holds id b ->
  exists h' b' event',
    InMemoryBackend.update now id updates h b = (Ok tt, h', b') /\
    map_get id (InMemoryBackend.events b') = Some event' /\
    map_keys (InMemoryBackend.events b') = map_keys (InMemoryBackend.events b) /\
    InMemoryBackend.getEventCount b' = InMemoryBackend.getEventCount b /\
    InMemoryBackend.initialized b' = true /\
    length h' = length h /\
    (forall l : loc, l <> e_metadata event' -> deref h' l = deref h l) /\
    ((e_metadata event' < length h)%nat ->
     deref h' (e_metadata event') = set_updated now (deref h (e_metadata event'))) /\
    (forall newId, u_id updates = Some newId ->
                   e_id event' = newId /\
                   (newId <> id ->
                    map_get newId (InMemoryBackend.events b')
                    = map_get newId (InMemoryBackend.events b))).
Proof.
  intros Hi Hheld. pose proof Hheld as [event Hev].
  apply holds_iff_key in Hheld.
  unfold InMemoryBackend.update. rewrite Hi, Hev. cbn [negb].
  do 3 eexists. split; [reflexivity|]. cbn [InMemoryBackend.events InMemoryBackend.initialized].
  split; [apply map_get_set_eq|].
  split; [now apply map_set_keys_present|].
  split; [unfold InMemoryBackend.getEventCount; cbn [InMemoryBackend.events];
          now apply map_set_length_present|].
  split; [reflexivity|].
  split; [apply length_alter|].
  split; [intros l Hl; apply deref_alter_ne; congruence|].
  split; [intros Hl; now apply deref_alter_eq|].
  intros newId Hnew. unfold InMemoryBackend.spread. cbn [e_id]. rewrite Hnew.
  split; [reflexivity|]. intros Hne. apply map_get_set_ne. congruence.
Qed.

Lemma update_keeps_keys_and_order_witness :
  exists h' b' event',
    InMemoryBackend.update 200 "r2" (renamed "r9") three_metadata three_records
      = (Ok tt, h', b') /\
    map_get "r2" (InMemoryBackend.events b') = Some event' /\
    map_keys (InMemoryBackend.events b') = ["r1"; "r2"; "r3"] /\
    InMemoryBackend.getEventCount b' = 3%nat /\
    InMemoryBackend.initialized b' = true /\
    length h' = length three_metadata /\
    (forall l : loc, l <> e_metadata event' -> deref h' l = deref three_metadata l) /\
    ((e_metadata event' < length three_metadata)%nat ->
     deref h' (e_metadata event') = set_updated 200 (deref three_metadata (e_metadata event'))) /\
    (forall newId, u_id (renamed "r9") = Some newId ->
                   e_id event' = newId /\
                   (newId <> "r2" ->
                    map_get newId (InMemoryBackend.events b')
                    = map_get newId (InMemoryBackend.events three_records))).
Proof.
  apply (update_keeps_keys_and_order 200 "r2" (renamed "r9") three_metadata three_records).
  - reflexivity.
  - vm_compute. eauto.
Defined.

(** ** Sessions *)

Lemma map_delete_app_fresh {V : Type} (m : list (string * V)) k v :
  ~ In k (map_keys m) -> map_delete k (m ++ [(k, v)]) = (true, m).
Proof.
  induction m as [|[k' v'] m IH]; simpl; intros Hn.
  - now rewrite String.eqb_refl.
  - destruct (String.eqb k' k) eqn:E.
    + apply String.eqb_eq in E. exfalso. apply Hn. now left.
    + rewrite IH; [reflexivity|]. intros Hin. apply Hn. now right.
Qed.

(** X14: a session created under an id that is not open yet is open with
    the context built for it, leaves the other sessions and the backends
    alone, and closing it gives back the state before its creation.
    Closing an id that is not open fails with code 404 and changes
    nothing, and so does every memory operation of an initialised protocol
    under such an id, whatever the backends hold. *)
Theorem session_opens_and_closes now sessionId memoryId userId agentId h p :
  ~ In sessionId (map_keys (MemoryProtocol.sessions p)) ->
  exists context p1,
    MemoryProtocol.createSession now sessionId memoryId userId agentId h p
      = (Ok sessionId, h, p1) /\
    map_get sessionId (MemoryProtocol.sessions p1) = Some context /\
    ctx_sessionId context = sessionId /\
    ctx_memoryId context = memoryId /\
    ctx_timestamp context = now /\
    ctx_userId context = userId /\
    ctx_agentId context = agentId /\
    MemoryProtocol.storageBackends p1 = MemoryProtocol.storageBackends p /\
    (forall other, other <> sessionId ->
                   map_get other (MemoryProtocol.sessions p1)
                   = map_get other (MemoryProtocol.sessions p)) /\
    MemoryProtocol.closeSession sessionId h p1 = (Ok tt, h, p) /\
    MemoryProtocol.closeSession sessionId h p = (Throw (session_not_found sessionId), h, p) /\
    (MemoryProtocol.initialized p = true ->
     (forall now' eventId content type metadata,
         MemoryProtocol.store now' eventId content type sessionId metadata h p
         = (Throw (session_not_found sessionId), h, p)) /\
     (forall query options,
         MemoryProtocol.retrieve query sessionId options h p
         = (Throw (session_not_found sessionId), h, p)) /\
     (forall now' memoryId' updates,
         MemoryProtocol.update now' memoryId' updates sessionId h p
         = (Throw (session_not_found sessionId), h, p)) /\
     (forall memoryId',
         MemoryProtocol.delete memoryId' sessionId h p
         = (Throw (session_not_found sessionId), h, p))).
Proof.
  intros Hfresh. pose proof Hfresh as Hnone. apply map_get_None in Hnone.
  unfold MemoryProtocol.createSession.
  do 2 eexists. split; [reflexivity|]. cbn [MemoryProtocol.sessions MemoryProtocol.storageBackends].
  split; [apply map_get_set_eq|].
  do 6 (split; [reflexivity|]).
  split; [intros other Hne; apply map_get_set_ne; congruence|].
  split.
  { unfold MemoryProtocol.closeSession. cbn [MemoryProtocol.sessions].
    rewrite map_get_set_eq. cbn [MemoryProtocol.storageBackends MemoryProtocol.initialized].
    rewrite map_set_fresh by exact Hfresh.
    rewrite map_delete_app_fresh by exact Hfresh. now destruct p. }
  split.
  { unfold MemoryProtocol.closeSession. now rewrite Hnone. }
  intros Hi.
  unfold MemoryProtocol.store, MemoryProtocol.retrieve, MemoryProtocol.update,
    MemoryProtocol.delete.
  rewrite Hi, Hnone. cbn [negb]. auto.
Qed.

Lemma session_opens_and_closes_witness :
  exists context p1,
    MemoryProtocol.createSession 100 "s2" "m0" None (Some "agent") [] single_backend
      = (Ok "s2", [], p1) /\
    map_get "s2" (MemoryProtocol.sessions p1) = Some context /\
    ctx_sessionId context = "s2" /\
    MemoryProtocol.closeSession "s2" [] p1 = (Ok tt, [], single_backend) /\
    MemoryProtocol.closeSession "s2" [] single_backend
      = (Throw (session_not_found "s2"), [], single_backend).
Proof.
  destruct (session_opens_and_closes 100 "s2" "m0" None (Some "agent") [] single_backend)
    as (context & p1 & Hc & Hg & Hid & _ & _ & _ & _ & _ & _ & Hclose & Hagain & _).
  - vm_compute. intros [H|[]]. discriminate.
  - exists context, p1. auto.
Defined.

(** ** Shutting down *)

Lemma close_each_session_all bs init : forall ss h,
  MemoryProtocol.close_each_session
    (map_keys ss) h
    {| MemoryProtocol.storageBackends := bs; MemoryProtocol.sessions := ss;
       MemoryProtocol.initialized := init |}
  = (Ok tt, h,
     {| MemoryProtocol.storageBackends := bs; MemoryProtocol.sessions := [];
        MemoryProtocol.initialized := init |}).
Proof.
  induction ss as [|[k v] ss IH]; intros h; [reflexivity|].
  cbn [map_keys map fst MemoryProtocol.close_each_session].
  unfold MemoryProtocol.closeSession.
  cbn [MemoryProtocol.sessions map_get map_delete MemoryProtocol.storageBackends
       MemoryProtocol.initialized].
  rewrite String.eqb_refl. cbn [snd]. apply IH.
Qed.

Lemma for_each_close bs : forall h,
  MemoryProtocol.for_each_backend InMemoryBackend.close h bs
  = (Ok tt, h, on_backends (fun _ => InMemoryBackend.new) bs).
Proof.
  induction bs as [|[name b] bs IH]; intros h; simpl; [reflexivity|].
  now rewrite IH.
Qed.

Lemma shutdown_result h p : MemoryProtocol.shutdown h p = (Ok tt, h, shut_down p).
Proof.
  destruct p as [bs ss init]. unfold MemoryProtocol.shutdown.
  cbn [MemoryProtocol.sessions]. rewrite close_each_session_all.
  cbn [MemoryProtocol.storageBackends MemoryProtocol.sessions].
  now rewrite for_each_close.
Qed.

(** X15: shutdown always succeeds: it closes every session, closes every
    backend (which forgets its records) under its name, and marks the
    protocol uninitialised, leaving the heap alone; a second shutdown
    changes nothing.  Afterwards the four memory operations fail with code
    400 and change nothing, while initialize succeeds once and only sets
    the protocol's flag: the backends stay uninitialised and empty, so a
    store under a new session then fails with the storage error of the
    first backend. *)
Theorem shutdown_closes_sessions_and_backends h p :
  MemoryProtocol.shutdown h p = (Ok tt, h, shut_down p) /\
  MemoryProtocol.shutdown h (shut_down p) = (Ok tt, h, shut_down p) /\
  map fst (MemoryProtocol.storageBackends (shut_down p))
  = map fst (MemoryProtocol.storageBackends p) /\
  (forall name b, In (name, b) (MemoryProtocol.storageBackends (shut_down p)) ->
                  b = InMemoryBackend.new) /\
  (forall now eventId content type sessionId metadata,
      MemoryProtocol.store now eventId content type sessionId metadata h (shut_down p)
      = (Throw not_initialized, h, shut_down p)) /\
  (forall query sessionId options,
      MemoryProtocol.retrieve query sessionId options h (shut_down p)
      = (Throw not_initialized, h, shut_down p)) /\
  (forall now memoryId updates sessionId,
      MemoryProtocol.update now memoryId updates sessionId h (shut_down p)
      = (Throw not_initialized, h, shut_down p)) /\
  (forall memoryId sessionId,
      MemoryProtocol.delete memoryId sessionId h (shut_down p)
      = (Throw not_initialized, h, shut_down p)) /\
  exists up,
    MemoryProtocol.initialize h (shut_down p) = (Ok tt, h, up) /\
    MemoryProtocol.initialize h up
    = (Throw (MemoryProtocolError "Protocol already initialized" 400), h, up) /\
    MemoryProtocol.storageBackends up = MemoryProtocol.storageBackends (shut_down p) /\
    MemoryProtocol.sessions up = [] /\
    (MemoryProtocol.storageBackends p <> [] ->
     forall now sessionId memoryId userId agentId eventId content type metadata,
       exists h' p',
         MemoryProtocol.store
           now eventId content type sessionId metadata h
           (snd (MemoryProtocol.createSession now sessionId memoryId userId agentId h up))
         = (Throw (StorageError "Backend not initialized"), h', p') /\
         MemoryProtocol.storageBackends p' = MemoryProtocol.storageBackends (shut_down p)).
Proof.
  split; [apply shutdown_result|].
  split.
  { rewrite shutdown_result.
    assert (Hidem : shut_down (shut_down p) = shut_down p); [|now rewrite Hidem].
    unfold shut_down, on_backends. cbn [MemoryProtocol.storageBackends].
    now rewrite map_map. }
  split.
  { unfold shut_down, on_backends. cbn [MemoryProtocol.storageBackends].
    rewrite map_map. reflexivity. }
  split.
  { intros name b Hin. unfold shut_down, on_backends in Hin.
    cbn [MemoryProtocol.storageBackends] in Hin.
    apply in_map_iff in Hin. now destruct Hin as (nb & [= _ <-] & _). }
  do 4 (split; [reflexivity|]).
  eexists. split; [reflexivity|]. split; [reflexivity|].
  split; [reflexivity|]. split; [reflexivity|].
  intros Hne now sessionId memoryId userId agentId eventId content type metadata.
  destruct p as [[|[name b] bs] ss init]; [contradiction|].
  unfold MemoryProtocol.store, MemoryProtocol.createSession.
  cbn [snd MemoryProtocol.initialized MemoryProtocol.sessions negb].
  rewrite map_get_set_eq. cbn [alloc].
  unfold MemoryProtocol.storeEvent, MemoryProtocol.getRelevantBackends, shut_down.
  cbn [MemoryProtocol.storageBackends on_backends map fst snd].
  cbn [MemoryProtocol.for_each_backend].
  unfold InMemoryBackend.store at 1.
  cbn [InMemoryBackend.initialized InMemoryBackend.new negb].
  do 2 eexists. split; reflexivity.
Qed.

(** ** Protocol messages *)







(** ** Well-formed backends stay well formed *)

Section JsMapSplit.
Context {V : Type}.
Implicit Types (m pre post : list (string * V)) (k : string) (v : V).

Lemma map_get_split m k v :
  map_get k m = Some v ->
  exists pre post, m = pre ++ (k, v) :: post /\ ~ In k (map_keys pre).
Proof.
  induction m as [|[k' v'] m IH]; simpl; [discriminate|].
  destruct (String.eqb k' k) eqn:E.
  - apply String.eqb_eq in E. intros [= ->]. subst k'.
    exists [], m. split; [reflexivity | intros []].
  - apply String.eqb_neq in E. intros Hg.
    destruct (IH Hg) as (pre & post & -> & Hpre).
    exists ((k', v') :: pre), post. split; [reflexivity|].
    simpl. intros [H|H]; [contradiction | now apply Hpre].
Qed.

Lemma map_set_at pre k v v' post :
  ~ In k (map_keys pre) ->
  map_set k v' (pre ++ (k, v) :: post) = pre ++ (k, v') :: post.
Proof.
  induction pre as [|[k0 v0] pre IH]; simpl; intros Hn.
  - now rewrite String.eqb_refl.
  - destruct (String.eqb k0 k) eqn:E.
    + apply String.eqb_eq in E. exfalso. apply Hn. now left.
    + rewrite IH; [reflexivity|]. intros H. apply Hn. now right.
Qed.

Lemma map_delete_at pre k v post :
  ~ In k (map_keys pre) ->
  map_delete k (pre ++ (k, v) :: post) = (true, pre ++ post).
Proof.
  induction pre as [|[k0 v0] pre IH]; simpl; intros Hn.
  - now rewrite String.eqb_refl.
  - destruct (String.eqb k0 k) eqn:E.
    + apply String.eqb_eq in E. exfalso. apply Hn. now left.
    + rewrite IH; [reflexivity|]. intros H. apply Hn. now right.
Qed.
End JsMapSplit.

(** In a backend whose records have metadata objects of their own, the
    record at one place of the map occurs at no other place. *)
Lemma own_metadata_elsewhere h b pre k v post e :
  own_metadata h b ->
  InMemoryBackend.events b = pre ++ (k, v) :: post ->
  In e (map_values pre ++ map_values post) ->
  e_metadata e <> e_metadata v.
Proof.
  intros [Hnd _] Hev Hin. rewrite Hev in Hnd. unfold map_values in *.
  rewrite !map_app in Hnd. cbn [map snd] in Hnd.
  apply NoDup_app in Hnd. destruct Hnd as (_ & Hdisj & Hright).
  apply NoDup_cons in Hright. destruct Hright as [Hnin _].
  intros Heq. apply in_app_or in Hin. destruct Hin as [Hin|Hin].
  - apply (Hdisj (e_metadata v)).
    + apply list_elem_of_In. rewrite <- Heq. now apply in_map.
    + left.
  - apply Hnin. apply list_elem_of_In. rewrite <- Heq. now apply in_map.
Qed.

Lemma NoDup_metadata_remove (pre post : list MemoryEvent) v :
  NoDup (map e_metadata (pre ++ v :: post)) -> NoDup (map e_metadata (pre ++ post)).
Proof.
  rewrite !map_app. cbn [map]. rewrite !NoDup_app, NoDup_cons.
  intros (Hpre & Hdisj & _ & Hpost). split; [exact Hpre|]. split; [|exact Hpost].
  intros x Hx Hx'. apply (Hdisj x Hx). now right.
Qed.

(** X17: the condition under which retrieve counts one access per returned
    record is an invariant.  If an initialised backend files every record
    under the record's own id and no two of its records share a metadata
    object, the same holds after a successful delete, after a retrieve, and
    after a successful update that carries neither an id nor a metadata
    object. *)
Theorem well_formed_backend_stays_well_formed now id query h b :
  InMemoryBackend.initialized b = true ->
  keyed_by_id b ->
  own_metadata h b ->
  (forall h' b',
      InMemoryBackend.delete id h b = (Ok tt, h', b') ->
      keyed_by_id b' /\ own_metadata h' b') /\
  (forall result h' b',
      InMemoryBackend.retrieve now query h b = (Ok result, h', b') ->
      keyed_by_id b' /\ own_metadata h' b') /\
  (forall updates h' b',
      u_id updates = None ->
      u_metadata updates = None ->
      InMemoryBackend.update now id updates h b = (Ok tt, h', b') ->
      keyed_by_id b' /\ own_metadata h' b').
Proof.
  intros Hi Hkey Hown. split; [|split].
  - intros h' b'. unfold InMemoryBackend.delete. rewrite Hi. cbn [negb].
    destruct (map_get id (InMemoryBackend.events b)) as [v|] eqn:Hget.
    2:{ pose proof (map_delete_fst (InMemoryBackend.events b) id) as Hf.
        rewrite Hget in Hf.
        destruct (map_delete id (InMemoryBackend.events b)) as [d m'].
        simpl in Hf. subst d. discriminate. }
    destruct (map_get_split _ _ _ Hget) as (pre & post & Hev & Hpre).
    rewrite Hev, map_delete_at by exact Hpre. cbn [negb].
    intros [= <- <-].
    assert (Hvals : forall e, In e (map_values (pre ++ post)) ->
                              In e (map_values (InMemoryBackend.events b)) /\
                              e_metadata e <> e_metadata v).
    { intros e Hin. unfold map_values in Hin. rewrite map_app in Hin. split.
      - rewrite Hev. unfold map_values. rewrite map_app. cbn [map].
        apply in_app_or in Hin. apply in_or_app. simpl. tauto.
      - now apply (own_metadata_elsewhere h b pre id v post). }
    split; [|split].
    + unfold keyed_by_id. cbn [InMemoryBackend.events]. intros e Hin.
      destruct (Hvals e Hin) as [Hst Hne].
      pose proof (Hkey e Hst) as Hge.
      assert (Hid : id <> e_id e).
      { intros Heq. rewrite <- Heq, Hget in Hge. congruence. }
      pose proof (map_delete_get_ne (InMemoryBackend.events b) id (e_id e) Hid) as Hd.
      rewrite Hev, map_delete_at in Hd by exact Hpre. cbn [snd] in Hd.
      rewrite Hd, <- Hev. exact Hge.
    + cbn [InMemoryBackend.events]. destruct Hown as [Hnd _].
      rewrite Hev in Hnd. unfold map_values in *. rewrite map_app in *.
      cbn [map snd] in Hnd. now apply NoDup_metadata_remove in Hnd.
    + cbn [InMemoryBackend.events]. intros e Hin.
      destruct Hown as [_ Halloc]. apply Halloc. now apply Hvals.
  - intros result h' b'. rewrite backend_retrieve_ok by exact Hi.
    intros [= _ <- <-]. split; [exact Hkey|].
    apply (own_metadata_longer h); [|exact Hown].
    now rewrite length_touch_page.
  - intros updates h' b' Huid Hmd. unfold InMemoryBackend.update.
    rewrite Hi. cbn [negb].
    destruct (map_get id (InMemoryBackend.events b)) as [v|] eqn:Hget; [|discriminate].
    destruct (map_get_split _ _ _ Hget) as (pre & post & Hev & Hpre).
    intros [= <- <-].
    set (v' := InMemoryBackend.spread v updates).
    assert (Hmeta : e_metadata v' = e_metadata v)
      by (unfold v', InMemoryBackend.spread; cbn [e_metadata]; now rewrite Hmd).
    assert (Hidv' : e_id v' = e_id v)
      by (unfold v', InMemoryBackend.spread; cbn [e_id]; now rewrite Huid).
    assert (Hin_v : In v (map_values (InMemoryBackend.events b))).
    { rewrite Hev. unfold map_values. rewrite map_app. apply in_or_app. right. now left. }
    assert (Helse : forall e, In e (map_values pre ++ map_values post) ->
                              In e (map_values (InMemoryBackend.events b)) /\
                              e_id e <> id).
    { intros e Hin. assert (Hst : In e (map_values (InMemoryBackend.events b))).
      { rewrite Hev. unfold map_values. rewrite map_app. cbn [map].
        apply in_app_or in Hin. apply in_or_app. simpl. tauto. }
      split; [exact Hst|]. intros Heq.
      pose proof (Hkey e Hst) as Hge. rewrite Heq, Hget in Hge.
      injection Hge as <-.
      now apply (own_metadata_elsewhere h b pre id v post v Hown Hev). }
    assert (Hidv : e_id v = id).
    { destruct (string_dec (e_id v) id) as [Heq|Hne]; [exact Heq|].
      exfalso. pose proof (Hkey v Hin_v) as Hgv.
      apply map_get_In in Hgv. rewrite Hev in Hgv.
      apply (own_metadata_elsewhere h b pre id v post v Hown Hev); [|reflexivity].
      unfold map_values. apply in_app_or in Hgv. apply in_or_app.
      destruct Hgv as [Hgv|[[= Heq]|Hgv]].
      - left. apply in_map_iff. now exists (e_id v, v).
      - congruence.
      - right. apply in_map_iff. now exists (e_id v, v). }
    cbn [InMemoryBackend.events]. fold v'.
    rewrite Hev, map_set_at by exact Hpre.
    split; [|split].
    + unfold keyed_by_id. cbn [InMemoryBackend.events]. intros e Hin.
      rewrite <- (map_set_at pre id v v' post Hpre), <- Hev.
      unfold map_values in Hin. rewrite map_app in Hin. cbn [map snd] in Hin.
      apply in_app_or in Hin. destruct Hin as [Hin|[<-|Hin]].
      * destruct (Helse e) as [Hst Hne]; [apply in_or_app; now left|].
        rewrite map_get_set_ne by congruence. now apply Hkey.
      * rewrite Hidv', Hidv. apply map_get_set_eq.
      * destruct (Helse e) as [Hst Hne]; [apply in_or_app; now right|].
        rewrite map_get_set_ne by congruence. now apply Hkey.
    + cbn [InMemoryBackend.events]. destruct Hown as [Hnd _].
      rewrite Hev in Hnd. unfold map_values in *. rewrite !map_app in *.
      cbn [map snd] in *. now rewrite Hmeta.
    + cbn [InMemoryBackend.events]. intros e Hin. rewrite length_alter.
      destruct Hown as [_ Halloc].
      unfold map_values in Hin. rewrite map_app in Hin. cbn [map snd] in Hin.
      apply in_app_or in Hin. destruct Hin as [Hin|[<-|Hin]].
      * apply Halloc. apply Helse. apply in_or_app. now left.
      * rewrite Hmeta. now apply Halloc.
      * apply Halloc. apply Helse. apply in_or_app. now right.
Qed.

Lemma well_formed_backend_stays_well_formed_witness :
  keyed_by_id (deleted_from "r2" three_records) /\
  own_metadata three_metadata (deleted_from "r2" three_records).
Proof.
  refine (proj1 (well_formed_backend_stays_well_formed
                   100 "r2" (query_for "note") three_metadata three_records
                   eq_refl _ _)
                three_metadata (deleted_from "r2" three_records) eq_refl).
  - intros e [<-|[<-|[<-|[]]]]; reflexivity.
  - split.
    + simpl. repeat constructor; rewrite list_elem_of_In; simpl; intuition discriminate.
    + intros e [<-|[<-|[<-|[]]]]; simpl; lia.
Defined.
